(** * Verification of the git checkpoint hook (checkpoint/checkpoint.ts)

    A shallow embedding of the checkpoint store and restore engine:
    the string and number primitives of the host language that the
    code relies on (module [JS]), an in-memory model of the git
    commands the code shells out to (module [Git]), the five core
    functions of checkpoint.ts (module [Checkpoint]) and the event
    handlers of the hook (module [Hook]), followed by the properties
    of the specification.

    Modelling conventions.
    - Strings are sequences of code units below 256 (Rocq [string]);
      the UTF-8 transport through the child process is transparent.
    - Numbers that hold times and turn indices are integers ([Z]);
      a time value may also be [NaN] (an unparsable date).
    - A git command is a typed operation on the repository state and
      either returns its standard output or fails.  The shell that
      sits between [exec] and git and the [maxBuffer] limit of
      [execAsync] are not modelled: arguments reach git unchanged and
      outputs fit the buffer.
    - [console.error] logging has no effect on the state and is left
      out. *)

From Stdlib Require Import ZArith Lia Ascii String.
From stdpp Require Import base option list gmap strings sorting.

Open Scope Z_scope.

(** ** Host language primitives *)

Module JS.

(** A JavaScript number holding an integer, or NaN. *)
Inductive number : Type :=
  | Num (z : Z)
  | NaN.

Definition sub (a b : number) : number :=
  match a, b with
  | Num x, Num y => Num (x - y)
  | _, _ => NaN
  end.

(** [a >= b]: false as soon as one side is NaN. *)
Definition ge (a b : number) : bool :=
  match a, b with
  | Num x, Num y => y <=? x
  | _, _ => false
  end.

(** The sign test [v > 0] that [Array.prototype.sort] applies to the
    value of the comparison function; NaN counts as +0. *)
Definition positive_result (v : number) : bool :=
  match v with
  | Num z => 0 <? z
  | NaN => false
  end.

(** [Array.prototype.sort(comparefn)], a stable sort: an element moves
    behind exactly those elements it compares greater than. *)
Fixpoint sort_insert {A : Type} (comparefn : A -> A -> number)
    (x : A) (l : list A) : list A :=
  match l with
  | [] => [x]
  | y :: l' =>
      if positive_result (comparefn x y)
      then y :: sort_insert comparefn x l'
      else x :: l
  end.

Fixpoint sort {A : Type} (comparefn : A -> A -> number) (l : list A)
    : list A :=
  match l with
  | [] => []
  | x :: l' => sort_insert comparefn x (sort comparefn l')
  end.

(** *** Strings *)

Definition isLineTerminator (c : ascii) : bool :=
  (c =? "010")%char || (c =? "013")%char.

(** WhiteSpace and LineTerminator code units below 256: TAB, LF, VT,
    FF, CR, SP and NBSP. *)
Definition isWhiteSpace (c : ascii) : bool :=
  (c =? "009")%char || (c =? "010")%char || (c =? "011")%char ||
  (c =? "012")%char || (c =? "013")%char || (c =? "032")%char ||
  (c =? "160")%char.

Fixpoint rev_append (s acc : string) : string :=
  match s with
  | EmptyString => acc
  | String c s' => rev_append s' (String c acc)
  end.

Definition rev (s : string) : string := rev_append s EmptyString.

Fixpoint trimStart (s : string) : string :=
  match s with
  | EmptyString => EmptyString
  | String c s' => if isWhiteSpace c then trimStart s' else s
  end.

Definition trimEnd (s : string) : string := rev (trimStart (rev s)).

(** [String.prototype.trim]. *)
Definition trim (s : string) : string := trimEnd (trimStart s).

(** [String.prototype.startsWith], returning the remainder. *)
Fixpoint strip_prefix (p s : string) : option string :=
  match p, s with
  | EmptyString, _ => Some s
  | String a p', String b s' =>
      if (a =? b)%char then strip_prefix p' s' else None
  | String _ _, EmptyString => None
  end.

Definition startsWith (s p : string) : bool :=
  match strip_prefix p s with Some _ => true | None => false end.

(** The pieces of a string between the characters that satisfy
    [sep].  The lines of a text are its maximal runs of characters
    that are not line terminators: with the [m] flag [^] and [$] match
    exactly at the boundaries of these runs, and [.] matches exactly
    their characters. *)
Fixpoint split_where (sep : ascii -> bool) (s : string) : list string :=
  match s with
  | EmptyString => [EmptyString]
  | String c s' =>
      if sep c then EmptyString :: split_where sep s'
      else match split_where sep s' with
           | l :: ls => String c l :: ls
           | [] => [String c EmptyString]
           end
  end.

Definition lines (s : string) : list string :=
  split_where isLineTerminator s.

(** [s.split(c)] for a one-character separator. *)
Definition split (c : ascii) (s : string) : list string :=
  split_where (fun c' => (c' =? c)%char) s.

Fixpoint find_map {A B : Type} (f : A -> option B) (l : list A)
    : option B :=
  match l with
  | [] => None
  | x :: l' => match f x with Some y => Some y | None => find_map f l' end
  end.

(** One line against [key (.+)]: the capture is the rest of the line
    and must hold at least one character. *)
Definition match_key_line (key line : string) : option string :=
  match strip_prefix (key +:+ " ") line with
  | Some (String c rest) => Some (String c rest)
  | _ => None
  end.

(** [text.match(/^key (.+)$/m)], reduced to its capture group: the
    leftmost match is the first line of that shape. *)
Definition match_key (key text : string) : option string :=
  find_map (match_key_line key) (lines text).

Definition isDigit (c : ascii) : bool :=
  (Nat.leb 48 (nat_of_ascii c)) && (Nat.leb (nat_of_ascii c) 57).

Fixpoint all_digits (s : string) : bool :=
  match s with
  | EmptyString => true
  | String c s' => isDigit c && all_digits s'
  end.

(** A string against [-?\d+]. *)
Definition is_integer_literal (s : string) : bool :=
  match s with
  | String "-" (String c s') => all_digits (String c s')
  | String c s' => all_digits (String c s')
  | EmptyString => false
  end.

Definition match_int_line (key line : string) : option string :=
  match strip_prefix (key +:+ " ") line with
  | Some rest => if is_integer_literal rest then Some rest else None
  | None => None
  end.

(** [text.match(/^key (-?\d+)$/m)], reduced to its capture group. *)
Definition match_int (key text : string) : option string :=
  find_map (match_int_line key) (lines text).

(** *** Decimal numerals *)

Definition digit_char (d : Z) : ascii := ascii_of_nat (48 + Z.to_nat d).

Definition digit_val (c : ascii) : Z := Z.of_nat (nat_of_ascii c) - 48.

Fixpoint digits_from (fuel : nat) (n : Z) (acc : string) : string :=
  match fuel with
  | O => acc
  | S fuel' =>
      let acc' := String (digit_char (n mod 10)) acc in
      if n <? 10 then acc' else digits_from fuel' (n / 10) acc'
  end.

(** The decimal digits of a natural number, most significant first. *)
Definition decimal (n : Z) : string :=
  digits_from (S (Z.to_nat (Z.log2 n))) n EmptyString.

(** The conversion of an integer-valued number to a string (template
    literal [${n}]). *)
Definition Number_toString (z : Z) : string :=
  if z <? 0 then String "-" (decimal (- z)) else decimal z.

Fixpoint digits_value (s : string) (acc : Z) : Z :=
  match s with
  | EmptyString => acc
  | String c s' => digits_value s' (10 * acc + digit_val c)
  end.

(** [parseInt(s, 10)] on a string that matched [-?\d+]. *)
Definition parseInt (s : string) : Z :=
  match s with
  | String "-" s' => - digits_value s' 0
  | _ => digits_value s 0
  end.

(** [Array.prototype.join]. *)
Fixpoint join (sep : string) (l : list string) : string :=
  match l with
  | [] => EmptyString
  | [x] => x
  | x :: l' => x +:+ sep +:+ join sep l'
  end.

(** *** Dates

    Time values are milliseconds since 1970-01-01T00:00:00Z.  The
    calendar functions below are the proleptic Gregorian calendar of
    the language standard (Day, TimeWithinDay, YearFromTime,
    MonthFromTime, DateFromTime and MakeDay). *)

Definition msPerDay : Z := 86400000.

(** Year, month (1..12) and day of month (1..31) of a day number. *)
Definition civil_from_days (day : Z) : Z * Z * Z :=
  let z := day + 719468 in
  let era := z / 146097 in
  let doe := z mod 146097 in
  let yoe := (doe - doe / 1460 + doe / 36524 - doe / 146096) / 365 in
  let doy := doe - (365 * yoe + yoe / 4 - yoe / 100) in
  let mp := (5 * doy + 2) / 153 in
  let d := doy - (153 * mp + 2) / 5 + 1 in
  let m := if mp <? 10 then mp + 3 else mp - 9 in
  (yoe + era * 400 + (if m <=? 2 then 1 else 0), m, d).

(** MakeDay: the day number of a civil date. *)
Definition days_from_civil (y m d : Z) : Z :=
  let y' := if m <=? 2 then y - 1 else y in
  let era := y' / 400 in
  let yoe := y' mod 400 in
  let mp := if 2 <? m then m - 3 else m + 9 in
  let doy := (153 * mp + 2) / 5 + d - 1 in
  era * 146097 + (yoe * 365 + yoe / 4 - yoe / 100 + doy) - 719468.

Definition is_leap_year (y : Z) : bool :=
  ((y mod 4 =? 0) && negb (y mod 100 =? 0)) || (y mod 400 =? 0).

Definition days_in_month (y m : Z) : Z :=
  if m =? 2 then (if is_leap_year y then 29 else 28)
  else if (m =? 4) || (m =? 6) || (m =? 9) || (m =? 11) then 30
  else 31.

(** The [k] low decimal digits of [n], zero padded. *)
Fixpoint pad_onto (k : nat) (n : Z) (acc : string) : string :=
  match k with
  | O => acc
  | S k' => pad_onto k' (n / 10) (String (digit_char (n mod 10)) acc)
  end.

Definition pad (k : nat) (n : Z) : string := pad_onto k n EmptyString.

(** [new Date(t).toISOString()] for a time value [t]:
    YYYY-MM-DDTHH:mm:ss.sssZ, with the expanded year (sign and six
    digits) outside 0..9999. *)
Definition toISOString (t : Z) : string :=
  let '(y, m, d) := civil_from_days (t / msPerDay) in
  let r := t mod msPerDay in
  let year :=
    if (0 <=? y) && (y <=? 9999) then pad 4 y
    else String (if y <? 0 then "-"%char else "+"%char) (pad 6 (Z.abs y)) in
  year +:+ "-" +:+ pad 2 m +:+ "-" +:+ pad 2 d +:+ "T" +:+
  pad 2 (r / 3600000) +:+ ":" +:+ pad 2 (r / 60000 mod 60) +:+ ":" +:+
  pad 2 (r / 1000 mod 60) +:+ "." +:+ pad 3 (r mod 1000) +:+ "Z".

(** Exactly [k] decimal digits at the head of [s]. *)
Fixpoint take_digits (k : nat) (s : string) (acc : Z) : option (Z * string) :=
  match k with
  | O => Some (acc, s)
  | S k' =>
      match s with
      | String c s' =>
          if isDigit c then take_digits k' s' (10 * acc + digit_val c)
          else None
      | EmptyString => None
      end
  end.

Definition expect (c : ascii) (s : string) : option string :=
  match s with
  | String c' s' => if (c =? c')%char then Some s' else None
  | EmptyString => None
  end.

(** The date-time string format with every field present and the UTC
    designator: YYYY-MM-DDTHH:mm:ss.sssZ with legal field values. *)
Definition parse_iso (s : string) : option Z :=
  '(y, s) ← take_digits 4 s 0;
  s ← expect "-" s;
  '(m, s) ← take_digits 2 s 0;
  s ← expect "-" s;
  '(d, s) ← take_digits 2 s 0;
  s ← expect "T" s;
  '(h, s) ← take_digits 2 s 0;
  s ← expect ":" s;
  '(mi, s) ← take_digits 2 s 0;
  s ← expect ":" s;
  '(sec, s) ← take_digits 2 s 0;
  s ← expect "." s;
  '(ms, s) ← take_digits 3 s 0;
  s ← expect "Z" s;
  match s with
  | EmptyString =>
      if (1 <=? m) && (m <=? 12) && (1 <=? d) && (d <=? days_in_month y m)
         && (h <=? 23) && (mi <=? 59) && (sec <=? 59)
      then Some (days_from_civil y m d * msPerDay
                 + ((h * 60 + mi) * 60 + sec) * 1000 + ms)
      else None
  | String _ _ => None
  end.

(** What the engine makes of a date string outside the format above is
    implementation-defined in the language standard. *)
Class Engine : Type := { Date_parse_fallback : string -> number }.

(** [new Date(s).getTime()] for a string [s]. *)
Definition Date_parse `{Engine} (s : string) : number :=
  match parse_iso s with
  | Some t => Num t
  | None => Date_parse_fallback s
  end.

End JS.

(** ** Computations that change a state and may throw

    An exception leaves the state as the effects before it made it:
    nothing is rolled back. *)

Inductive outcome (A : Type) : Type :=
  | Return (a : A)
  | Throw (e : string).

Arguments Return {A} a.
Arguments Throw {A} e.

Definition M (S A : Type) : Type := S -> S * outcome A.

Definition ret {S A : Type} (a : A) : M S A := fun s => (s, Return a).

Definition throw {S A : Type} (e : string) : M S A := fun s => (s, Throw e).

Definition bind {S A B : Type} (c : M S A) (k : A -> M S B) : M S B :=
  fun s =>
    match c s with
    | (s', Return a) => k a s'
    | (s', Throw e) => (s', Throw e)
    end.

Definition gets {S A : Type} (f : S -> A) : M S A := fun s => (s, Return (f s)).

Definition modify {S : Type} (f : S -> S) : M S unit :=
  fun s => (f s, Return tt).

(** [try { c } catch (e) { h e }] *)
Definition try_catch {S A : Type} (c : M S A) (h : string -> M S A) : M S A :=
  fun s =>
    match c s with
    | (s', Return a) => (s', Return a)
    | (s', Throw e) => h e s'
    end.

(** [try { c } finally { f }], for a finaliser that does not throw. *)
Definition try_finally {S A : Type} (c : M S A) (f : S -> S) : M S A :=
  fun s => let '(s', o) := c s in (f s', o).

Notation "x <- c ;; k" := (bind c (fun x => k))
  (at level 100, c at next level, right associativity).
Notation "c ;;; k" := (bind c (fun _ => k))
  (at level 100, right associativity).

(** ** The git commands *)

Module Git.

(** A path is the list of its components; a tree (as well as an index
    and a working tree) maps the paths of its files to their
    contents. *)
Abbreviation path := (list string).
Abbreviation tree := (gmap (list string) string).

Record commit : Type := mkCommit {
  c_tree : string;
  c_parents : list string;
  c_author : string;          (* name, e-mail, time and zone *)
  c_committer : string;
  c_time : Z;                 (* committer time, in seconds *)
  c_message : string
}.

(** Object names (SHA-1) of trees and commits. *)
Class ObjectNames : Type := {
  tree_name : tree -> string;
  commit_name : commit -> string
}.

Record repo : Type := mkRepo {
  toplevel : string;
  head : option string;       (* None: unborn *)
  index : tree;               (* the staging area *)
  worktree : tree;            (* the files on disk *)
  ignored : path -> bool;     (* the ignore-file rules *)
  trees : gmap string tree;
  commits : gmap string commit;
  refs : gmap string string;
  locked : gset string        (* refs whose lock file is held *)
}.

Definition set_head (h : option string) (r : repo) : repo :=
  mkRepo (toplevel r) h (index r) (worktree r) (ignored r)
         (trees r) (commits r) (refs r) (locked r).
Definition set_index (i : tree) (r : repo) : repo :=
  mkRepo (toplevel r) (head r) i (worktree r) (ignored r)
         (trees r) (commits r) (refs r) (locked r).
Definition set_worktree (w : tree) (r : repo) : repo :=
  mkRepo (toplevel r) (head r) (index r) w (ignored r)
         (trees r) (commits r) (refs r) (locked r).
Definition set_trees (t : gmap string tree) (r : repo) : repo :=
  mkRepo (toplevel r) (head r) (index r) (worktree r) (ignored r)
         t (commits r) (refs r) (locked r).
Definition set_commits (c : gmap string commit) (r : repo) : repo :=
  mkRepo (toplevel r) (head r) (index r) (worktree r) (ignored r)
         (trees r) c (refs r) (locked r).
Definition set_refs (f : gmap string string) (r : repo) : repo :=
  mkRepo (toplevel r) (head r) (index r) (worktree r) (ignored r)
         (trees r) (commits r) f (locked r).

(** The machine the commands run on: the repository around the working
    directory, if there is one, and the index files that live in
    temporary directories. *)
Record machine : Type := mkMachine {
  repository : option repo;
  tmp_index : gmap string tree;
  tmp_count : nat              (* temporary directories made so far *)
}.

Definition set_repository (r : repo) (m : machine) : machine :=
  mkMachine (Some r) (tmp_index m) (tmp_count m).
Definition set_tmp_index (t : gmap string tree) (m : machine) : machine :=
  mkMachine (repository m) t (tmp_count m).

(** Two distinct paths collide when one is a directory prefix of the
    other: they cannot both be files. *)
Definition collide (p q : path) : Prop :=
  p ≠ q ∧ (p `prefix_of` q ∨ q `prefix_of` p).

#[export] Instance collide_dec (p q : path) : Decision (collide p q).
Proof. unfold collide. apply _. Defined.

(** [q] is in the way of writing the entries [t]. *)
Definition in_the_way (t : tree) (q : path) : Prop :=
  set_Exists (collide q) (dom t).

#[export] Instance in_the_way_dec (t : tree) (q : path)
  : Decision (in_the_way t q).
Proof. unfold in_the_way. apply _. Defined.

(** Forced check-out of entries: each entry is written over what is
    there, files and directories in the way of an entry are removed,
    and every other file stays. *)
Definition checkout_entries (entries wt : tree) : tree :=
  entries ∪ filter (fun kv => ¬ in_the_way entries kv.1) wt.

(** [git reset --hard <commit>]: the files of the index that the
    commit does not have are deleted, the files of the commit are
    checked out, the index and HEAD are set to the commit. *)
Definition reset_hard (c : string) (r : repo) : option repo :=
  co ← commits r !! c;
  t ← trees r !! c_tree co;
  Some (set_head (Some c) (set_index t (set_worktree
    (checkout_entries t
       (filter (fun kv => index r !! kv.1 = None) (worktree r))) r))).

(** [git read-tree --reset <tree>] without [-u]: the index becomes
    the tree, no file is touched. *)
Definition read_tree_reset (t : string) (r : repo) : option repo :=
  tr ← trees r !! t;
  Some (set_index tr r).

(** [git checkout-index -a -f] *)
Definition checkout_index (r : repo) : repo :=
  set_worktree (checkout_entries (index r) (worktree r)) r.

(** [git add -A .] from the top level, on the index [i]: every file
    on disk that is not ignored or is already in [i] is staged, the
    entries whose file is gone are dropped. *)
Definition add_all (r : repo) (i : tree) : tree :=
  filter (fun kv => ignored r kv.1 = false ∨ is_Some (i !! kv.1))
         (worktree r).

(** The ref names git accepts (git check-ref-format). *)
Definition bad_ref_char (c : ascii) : bool :=
  (Nat.ltb (nat_of_ascii c) 32) || (c =? "127")%char || (c =? " ")%char
  || (c =? "~")%char || (c =? "^")%char || (c =? ":")%char
  || (c =? "?")%char || (c =? "*")%char || (c =? "[")%char
  || (c =? "\")%char.

Fixpoint has_bad_ref_char (s : string) : bool :=
  match s with
  | EmptyString => false
  | String c s' => bad_ref_char c || has_bad_ref_char s'
  end.

(** The components of a ref name, split at the slashes. *)
Definition components (s : string) : list string := JS.split "/" s.

Fixpoint contains (needle s : string) : bool :=
  JS.startsWith s needle ||
  match s with
  | EmptyString => false
  | String _ s' => contains needle s'
  end.

Definition ends_with (s suffix : string) : bool :=
  JS.startsWith (JS.rev s) (JS.rev suffix).

Definition good_component (c : string) : bool :=
  negb (c =? "")%string && negb (JS.startsWith c ".")
  && negb (ends_with c ".lock").

Definition check_ref_format (name : string) : bool :=
  negb (has_bad_ref_char name)
  && forallb good_component (components name)
  && negb (contains ".." name) && negb (contains "@{" name)
  && negb (ends_with name ".").

(** The identity that [GIT_AUTHOR_*] or [GIT_COMMITTER_*] set. *)
Record ident : Type := mkIdent {
  i_name : string;
  i_email : string;
  i_date : string
}.

Inductive command : Type :=
  | RevParseIsInsideWorkTree
  | RevParseShowToplevel
  | RevParseHEAD
  | WriteTree (index_file : option string)
  | AddAll (index_file : option string)
  | CommitTree (tree_sha : string) (input : string) (author committer : ident)
  | UpdateRef (ref value : string)
  | ResetHard (commit_sha : string)
  | ReadTreeReset (tree_sha : string)
  | CheckoutIndexAllForce
  | RevParseVerify (ref : string)
  | CatFileCommit (object : string)
  | ForEachRef (sort_committerdate : bool) (pattern : string)
  | UpdateRefDelete (ref : string).

Definition LF : string := String "010" EmptyString.

(** The index a command works on: the file [GIT_INDEX_FILE] names, an
    empty index if that file does not exist, the staging area of the
    repository otherwise. *)
Definition index_of (m : machine) (r : repo) (f : option string) : tree :=
  match f with
  | Some file => default ∅ (tmp_index m !! file)
  | None => index r
  end.

Definition with_index (m : machine) (r : repo) (f : option string)
    (i : tree) : machine :=
  match f with
  | Some file => set_tmp_index (<[file := i]> (tmp_index m)) m
  | None => set_repository (set_index i r) m
  end.

(** The date of an identity, in seconds: git reads the date-time
    format that [toISOString] writes and drops the milliseconds. *)
Definition ident_time (i : ident) : option Z :=
  t ← JS.parse_iso (i_date i);
  Some (t / 1000).

Definition ident_line (i : ident) (secs : Z) : string :=
  i_name i +:+ " <" +:+ i_email i +:+ "> " +:+ JS.Number_toString secs
  +:+ " +0000".

(** The raw text of a commit object. *)
Definition commit_text (c : commit) : string :=
  "tree " +:+ c_tree c +:+ LF +:+
  foldr (fun p acc => "parent " +:+ p +:+ LF +:+ acc) EmptyString
        (c_parents c) +:+
  "author " +:+ c_author c +:+ LF +:+
  "committer " +:+ c_committer c +:+ LF +:+
  LF +:+ c_message c.

(** The order of [for-each-ref]: by the sort key, then by name. *)
Definition ref_order (a b : Z * string) : Prop :=
  a.1 < b.1 ∨ (a.1 = b.1 ∧ String.le a.2 b.2).

#[export] Instance ref_order_dec : RelDecision ref_order.
Proof. intros a b. unfold ref_order. apply _. Defined.

(** The committer date of the object a ref points at: none (zero) for
    an object that is not a commit, an error for a missing object. *)
Definition committerdate (r : repo) (sha : string) : option Z :=
  match commits r !! sha with
  | Some c => Some (c_time c)
  | None => match trees r !! sha with Some _ => Some 0 | None => None end
  end.

Definition listed_refs (r : repo) (pattern : string)
    : list (string * string) :=
  filter (fun kv => JS.startsWith kv.1 pattern = true) (map_to_list (refs r)).

Fixpoint sort_keys (r : repo) (by_date : bool) (l : list (string * string))
    : option (list (Z * string)) :=
  match l with
  | [] => Some []
  | (name, sha) :: l' =>
      k ← (if by_date then committerdate r sha else Some 0);
      ks ← sort_keys r by_date l';
      Some ((k, name) :: ks)
  end.

(** [git for-each-ref [--sort=committerdate] --format='%(refname)'] *)
Definition for_each_ref (r : repo) (by_date : bool) (pattern : string)
    : option (list string) :=
  ks ← sort_keys r by_date (listed_refs r pattern);
  Some ((merge_sort ref_order ks).*2).

(** The output of [for-each-ref]: one name a line. *)
Definition listing_text (names : list string) : string :=
  foldr (fun n acc => n +:+ LF +:+ acc) EmptyString names.

Definition fatal {A : Type} (m : machine) : machine * outcome A :=
  (m, Throw "Command failed").

Section Commands.

Context `{ObjectNames}.

(** The effect and the standard output of one command. *)
Definition run (c : command) : M machine string := fun m =>
  match repository m with
  | None => fatal m
  | Some r =>
      match c with
      | RevParseIsInsideWorkTree => (m, Return ("true" +:+ LF))
      | RevParseShowToplevel => (m, Return (toplevel r +:+ LF))
      | RevParseHEAD =>
          match head r with
          | Some h => (m, Return (h +:+ LF))
          | None => fatal m
          end
      | WriteTree f =>
          let i := index_of m r f in
          (set_repository (set_trees (<[tree_name i := i]> (trees r)) r) m,
           Return (tree_name i +:+ LF))
      | AddAll f =>
          (with_index m r f (add_all r (index_of m r f)), Return EmptyString)
      | CommitTree t input author committer =>
          match trees r !! t, ident_time author, ident_time committer with
          | Some _, Some ta, Some tc =>
              let c := mkCommit t [] (ident_line author ta)
                         (ident_line committer tc) tc input in
              (set_repository
                 (set_commits (<[commit_name c := c]> (commits r)) r) m,
               Return (commit_name c +:+ LF))
          | _, _, _ => fatal m
          end
      | UpdateRef ref value =>
          if check_ref_format ref
             && bool_decide (ref ∉ locked r)
             && bool_decide (is_Some (commits r !! value)
                             ∨ is_Some (trees r !! value))
          then (set_repository (set_refs (<[ref := value]> (refs r)) r) m,
                Return EmptyString)
          else fatal m
      | ResetHard c =>
          match reset_hard c r with
          | Some r' => (set_repository r' m, Return EmptyString)
          | None => fatal m
          end
      | ReadTreeReset t =>
          match read_tree_reset t r with
          | Some r' => (set_repository r' m, Return EmptyString)
          | None => fatal m
          end
      | CheckoutIndexAllForce =>
          (set_repository (checkout_index r) m, Return EmptyString)
      | RevParseVerify ref =>
          match refs r !! ref with
          | Some sha => (m, Return (sha +:+ LF))
          | None => fatal m
          end
      | CatFileCommit object =>
          match commits r !! object with
          | Some c => (m, Return (commit_text c))
          | None => fatal m
          end
      | ForEachRef by_date pattern =>
          match for_each_ref r by_date pattern with
          | Some names => (m, Return (listing_text names))
          | None => fatal m
          end
      | UpdateRefDelete ref =>
          if bool_decide (ref ∉ locked r)
          then (set_repository (set_refs (delete ref (refs r)) r) m,
                Return EmptyString)
          else fatal m
      end
  end.

End Commands.

(** [rm(dir, { recursive: true, force: true })] *)
Definition rm (dir : string) (m : machine) : machine :=
  set_tmp_index
    (filter (fun kv => JS.startsWith kv.1 (dir +:+ "/") = false)
            (tmp_index m)) m.

(** [mkdtemp(prefix)]: a new directory, named after the number of
    directories made before it, with nothing in it. *)
Definition mkdtemp (prefix : string) : M machine string := fun m =>
  let dir := prefix +:+ JS.Number_toString (Z.of_nat (tmp_count m)) in
  (rm dir (mkMachine (repository m) (tmp_index m) (S (tmp_count m))),
   Return dir).

End Git.

(** ** The checkpoint functions of checkpoint.ts *)

Module Checkpoint.

Import Git.

Definition ZEROS : string := "0000000000000000000000000000000000000000".
Definition REF_BASE : string := "refs/pi-checkpoints".
Definition MAX_CHECKPOINTS : nat := 100.

Record CheckpointData : Type := mkCheckpointData {
  id : string;
  turnIndex : Z;
  sessionId : string;
  headSha : string;
  indexTreeSha : string;
  worktreeTreeSha : string;
  timestamp : JS.number
}.

Definition pi_checkpoint (date : string) : ident :=
  mkIdent "pi-checkpoint" "checkpoint@pi" date.

(** The commit message of a checkpoint. *)
Definition checkpoint_message (id sessionId : string) (turnIndex : Z)
    (headSha indexTreeSha worktreeTreeSha isoTimestamp : string) : string :=
  JS.join LF
    [ "checkpoint:" +:+ id;
      "sessionId " +:+ sessionId;
      "turn " +:+ JS.Number_toString turnIndex;
      "head " +:+ headSha;
      "index-tree " +:+ indexTreeSha;
      "worktree-tree " +:+ worktreeTreeSha;
      "created " +:+ isoTimestamp ].

Section Functions.

Context `{ObjectNames} `{JS.Engine}.

Definition execAsync (c : command) : M machine string := run c.

Definition isGitRepo (cwd : string) : M machine bool :=
  try_catch (execAsync RevParseIsInsideWorkTree ;;; ret true)
            (fun _ => ret false).

Definition getRepoRoot (cwd : string) : M machine string :=
  stdout <- execAsync RevParseShowToplevel ;;
  ret (JS.trim stdout).

(** [now] is the value of [Date.now()]. *)
Definition createCheckpoint (cwd id : string) (turnIndex : Z)
    (sessionId : string) (now : Z) : M machine CheckpointData :=
  root <- getRepoRoot cwd ;;
  let timestamp := now in
  let isoTimestamp := JS.toISOString timestamp in
  (* 1. HEAD, or the sentinel for an unborn HEAD *)
  headSha <- try_catch (stdout <- execAsync RevParseHEAD ;;
                        ret (JS.trim stdout))
                       (fun _ => ret ZEROS) ;;
  (* 2. the index *)
  indexStdout <- execAsync (WriteTree None) ;;
  let indexTreeSha := JS.trim indexStdout in
  (* 3. the working tree, through a temporary index *)
  tmpDir <- mkdtemp "/tmp/pi-checkpoint-" ;;
  let tmpIndex := tmpDir +:+ "/index" in
  try_finally
    (execAsync (AddAll (Some tmpIndex)) ;;;
     wtStdout <- execAsync (WriteTree (Some tmpIndex)) ;;
     let worktreeTreeSha := JS.trim wtStdout in
     (* 4. the checkpoint commit *)
     let message :=
       checkpoint_message id sessionId turnIndex headSha indexTreeSha
                          worktreeTreeSha isoTimestamp in
     commitStdout <- execAsync
       (CommitTree worktreeTreeSha message (pi_checkpoint isoTimestamp)
                   (pi_checkpoint isoTimestamp)) ;;
     let commitSha := JS.trim commitStdout in
     (* 5. the ref *)
     let ref := REF_BASE +:+ "/" +:+ id in
     execAsync (UpdateRef ref commitSha) ;;;
     ret (mkCheckpointData id turnIndex sessionId headSha indexTreeSha
                           worktreeTreeSha (JS.Num timestamp)))
    (rm tmpDir).

Definition unborn_head_error : string :=
  "Cannot restore: checkpoint was saved with no commits".

Definition restoreCheckpoint (cwd : string) (checkpoint : CheckpointData)
    : M machine unit :=
  root <- getRepoRoot cwd ;;
  if (headSha checkpoint =? ZEROS)%string then throw unborn_head_error
  else
    (* 1. HEAD to the saved commit *)
    execAsync (ResetHard (headSha checkpoint)) ;;;
    (* 2. the index to the working tree snapshot *)
    execAsync (ReadTreeReset (worktreeTreeSha checkpoint)) ;;;
    (* 3. the files of the index *)
    execAsync CheckoutIndexAllForce ;;;
    (* 4. the index to the staged state *)
    execAsync (ReadTreeReset (indexTreeSha checkpoint)) ;;;
    ret tt.

Definition loadCheckpointFromRef (cwd refName : string)
    : M machine (option CheckpointData) :=
  try_catch
    (root <- getRepoRoot cwd ;;
     let ref := REF_BASE +:+ "/" +:+ refName in
     commitSha <- execAsync (RevParseVerify ref) ;;
     commitMsg <- execAsync (CatFileCommit (JS.trim commitSha)) ;;
     let sessionMatch := JS.match_key "sessionId" commitMsg in
     let turnMatch := JS.match_int "turn" commitMsg in
     let headMatch := JS.match_key "head" commitMsg in
     let indexMatch := JS.match_key "index-tree" commitMsg in
     let worktreeMatch := JS.match_key "worktree-tree" commitMsg in
     let createdMatch := JS.match_key "created" commitMsg in
     match sessionMatch, turnMatch, headMatch, indexMatch, worktreeMatch with
     | Some session, Some turn, Some head, Some index, Some worktree =>
         ret (Some (mkCheckpointData
                      refName
                      (JS.parseInt turn)
                      (JS.trim session)
                      (JS.trim head)
                      (JS.trim index)
                      (JS.trim worktree)
                      (match createdMatch with
                       | Some created => JS.Date_parse (JS.trim created)
                       | None => JS.Num 0
                       end)))
     | _, _, _, _, _ => ret None
     end)
    (fun _ => ret None).

Definition nonempty (s : string) : bool :=
  match s with EmptyString => false | String _ _ => true end.

Definition listCheckpointRefs (cwd : string) : M machine (list string) :=
  try_catch
    (root <- getRepoRoot cwd ;;
     let prefix := REF_BASE +:+ "/" in
     stdout <- execAsync (ForEachRef false prefix) ;;
     ret (map (fun ref => match JS.strip_prefix prefix ref with
                          | Some rest => rest
                          | None => ref
                          end)
              (filter (fun l => nonempty l = true) (JS.split "010" stdout))))
    (fun _ => ret []).

(** [for (const ref of toDelete) await ... .catch(() => {})] *)
Fixpoint delete_refs (toDelete : list string) : M machine unit :=
  match toDelete with
  | [] => ret tt
  | ref :: rest =>
      try_catch (execAsync (UpdateRefDelete ref) ;;; ret tt)
                (fun _ => ret tt) ;;;
      delete_refs rest
  end.

Definition pruneCheckpoints (cwd : string) : M machine unit :=
  try_catch
    (root <- getRepoRoot cwd ;;
     let prefix := REF_BASE +:+ "/" in
     stdout <- execAsync (ForEachRef true prefix) ;;
     let refs := filter (fun l => nonempty l = true)
                        (JS.split "010" stdout) in
     if (length refs <=? MAX_CHECKPOINTS)%nat then ret tt
     else
       let toDelete := take (length refs - MAX_CHECKPOINTS) refs in
       delete_refs toDelete)
    (fun _ => ret tt).

End Functions.

(** *** The selection of the branch handler *)

Inductive selection : Type :=
  | NoCheckpoints                       (* "No checkpoints available" *)
  | NotFound                            (* "No checkpoint found for this message" *)
  | Selected (checkpoint latestCheckpoint : CheckpointData)
             (hasOlderCheckpoints : bool).

Definition allCheckpoints (completedCheckpoints : list CheckpointData)
    : list CheckpointData :=
  JS.sort (fun a b => JS.sub (timestamp b) (timestamp a)) completedCheckpoints.

Definition checkpointsAtOrAfterTarget
    (completedCheckpoints : list CheckpointData) (targetTimestamp : JS.number)
    : list CheckpointData :=
  JS.sort (fun a b => JS.sub (timestamp a) (timestamp b))
    (filter (fun cp => JS.ge (timestamp cp) targetTimestamp = true)
            (allCheckpoints completedCheckpoints)).

Definition selectCheckpoint (completedCheckpoints : list CheckpointData)
    (targetTimestamp : JS.number) : selection :=
  match allCheckpoints completedCheckpoints with
  | [] => NoCheckpoints
  | latestCheckpoint :: others =>
      match checkpointsAtOrAfterTarget completedCheckpoints targetTimestamp with
      | [] => NotFound
      | checkpoint :: _ =>
          Selected checkpoint latestCheckpoint
                   (match others with [] => false | _ :: _ => true end)
      end
  end.

End Checkpoint.

(** ** The hook: closure state and event handlers

    Each handler runs to completion before the next event is
    delivered.  A capture that [turn_start] fires and forgets is a
    promise in [pendingCheckpoints]; it runs, in one piece, at a later
    point that the scheduler chooses ([settle]), at the latest when
    the branch handler awaits it.  The values of [Date.now()], of
    [Math.random() < 0.1] and of the user's choice are inputs. *)

Module Hook.

Import Git Checkpoint.

(** A promise for the capture of a turn: the arguments of the call of
    [createCheckpoint] it is running, or its settled state. *)
Inductive promise : Type :=
  | Pending (cwd id : string) (turnIndex : Z) (sessionId : string)
  | Fulfilled (value : option CheckpointData)
  | Rejected (reason : string).

(** What the hook does that an observer can see: the calls of the
    capture and restore functions and the notifications of the UI. *)
Inductive action : Type :=
  | CallCreate (id : string)
  | CallRestore (id : string)
  | CallPrune
  | Notify (message level : string).

(** The variables of the closure of the default export. *)
Record state : Type := mkState {
  completedCheckpoints : list CheckpointData;
  pendingCheckpoints : list promise;
  gitAvailable : bool;
  checkpointingFailed : bool;
  currentSessionId : string;
  currentSessionFile : string
}.

Definition initial_state : state := mkState [] [] false false "" "".

Record world : Type := mkWorld {
  machine_of : machine;
  session_files : gmap string string;   (* file name to the id of its header *)
  hook : state;
  background_prunes : nat;               (* prunes started and not yet run *)
  log : list action
}.

Definition set_machine (m : machine) (w : world) : world :=
  mkWorld m (session_files w) (hook w) (background_prunes w) (log w).
Definition set_hook (h : state) (w : world) : world :=
  mkWorld (machine_of w) (session_files w) h (background_prunes w) (log w).
Definition set_background (n : nat) (w : world) : world :=
  mkWorld (machine_of w) (session_files w) (hook w) n (log w).
Definition emit (a : action) (w : world) : world :=
  mkWorld (machine_of w) (session_files w) (hook w) (background_prunes w)
          (log w ++ [a]).

Definition set_completed (l : list CheckpointData) (h : state) : state :=
  mkState l (pendingCheckpoints h) (gitAvailable h) (checkpointingFailed h)
          (currentSessionId h) (currentSessionFile h).
Definition set_pending (l : list promise) (h : state) : state :=
  mkState (completedCheckpoints h) l (gitAvailable h) (checkpointingFailed h)
          (currentSessionId h) (currentSessionFile h).
Definition set_gitAvailable (b : bool) (h : state) : state :=
  mkState (completedCheckpoints h) (pendingCheckpoints h) b
          (checkpointingFailed h) (currentSessionId h) (currentSessionFile h).
Definition set_checkpointingFailed (b : bool) (h : state) : state :=
  mkState (completedCheckpoints h) (pendingCheckpoints h) (gitAvailable h) b
          (currentSessionId h) (currentSessionFile h).
Definition set_currentSessionId (s : string) (h : state) : state :=
  mkState (completedCheckpoints h) (pendingCheckpoints h) (gitAvailable h)
          (checkpointingFailed h) s (currentSessionFile h).
Definition set_currentSessionFile (s : string) (h : state) : state :=
  mkState (completedCheckpoints h) (pendingCheckpoints h) (gitAvailable h)
          (checkpointingFailed h) (currentSessionId h) s.

(** Runs a computation on the machine of the world. *)
Definition on_machine {A : Type} (c : M machine A) : M world A := fun w =>
  let '(m, o) := c (machine_of w) in (set_machine m w, o).

Definition push_completed (data : CheckpointData) (w : world) : world :=
  set_hook (set_completed (completedCheckpoints (hook w) ++ [data]) (hook w)) w.

(** [getSessionIdFromFile]: the id of the header line of the session
    file, the empty string when the file cannot be read or parsed or
    has no id. *)
Definition getSessionIdFromFile (sessionFile : string) (w : world) : string :=
  default EmptyString (session_files w !! sessionFile).

Section Handlers.

Context `{ObjectNames} `{JS.Engine}.

(** The loop of [loadCheckpointsForSession]. *)
Fixpoint load_refs (cwd sessionId : string) (refs : list string)
    : M world unit :=
  match refs with
  | [] => ret tt
  | refName :: rest =>
      data <- on_machine (loadCheckpointFromRef cwd refName) ;;
      modify (fun w =>
        match data with
        | Some d =>
            if (Checkpoint.sessionId d =? sessionId)%string
               && negb (existsb (fun c => (id c =? id d)%string)
                                (completedCheckpoints (hook w)))
            then push_completed d w
            else w
        | None => w
        end) ;;;
      load_refs cwd sessionId rest
  end.

Definition loadCheckpointsForSession (cwd sessionId : string)
    (clearExisting : bool) : M world unit :=
  modify (fun w => if clearExisting
                   then set_hook (set_completed [] (hook w)) w
                   else w) ;;;
  refs <- on_machine (listCheckpointRefs cwd) ;;
  load_refs cwd sessionId refs.

(** *** session_start *)

Record context : Type := mkContext {
  ctx_cwd : string;
  ctx_sessionFile : option string
}.

Definition session_start (ctx : context) : M world unit :=
  available <- on_machine (isGitRepo (ctx_cwd ctx)) ;;
  modify (fun w => set_hook (set_gitAvailable available (hook w)) w) ;;;
  if negb available then ret tt
  else
    match ctx_sessionFile ctx with
    | Some (String c f) =>
        let sessionFile := String c f in
        modify (fun w =>
          set_hook (set_currentSessionFile sessionFile (hook w)) w) ;;;
        sid <- gets (getSessionIdFromFile sessionFile) ;;
        modify (fun w => set_hook (set_currentSessionId sid (hook w)) w) ;;;
        if nonempty sid
        then loadCheckpointsForSession (ctx_cwd ctx) sid true
        else ret tt
    | _ => ret tt
    end.

(** *** turn_start *)

Record turn_start_event : Type := mkTurnStart {
  ts_turnIndex : Z;
  ts_timestamp : Z
}.

Definition turn_checkpoint_id (sessionId : string) (event : turn_start_event)
    : string :=
  sessionId +:+ "-turn-" +:+ JS.Number_toString (ts_turnIndex event)
  +:+ "-" +:+ JS.Number_toString (ts_timestamp event).

Definition turn_start (event : turn_start_event) (ctx : context)
    : M world unit := fun w =>
  if negb (gitAvailable (hook w)) || checkpointingFailed (hook w)
  then (w, Return tt)
  else
    let w :=
      if negb (nonempty (currentSessionId (hook w)))
         && nonempty (currentSessionFile (hook w))
      then set_hook (set_currentSessionId
                       (getSessionIdFromFile (currentSessionFile (hook w)) w)
                       (hook w)) w
      else w in
    if negb (nonempty (currentSessionId (hook w))) then (w, Return tt)
    else
      (* fire and forget *)
      let checkpointPromise :=
        Pending (ctx_cwd ctx)
                (turn_checkpoint_id (currentSessionId (hook w)) event)
                (ts_turnIndex event) (currentSessionId (hook w)) in
      (emit (CallCreate (turn_checkpoint_id (currentSessionId (hook w)) event))
         (set_hook (set_pending (pendingCheckpoints (hook w)
                                   ++ [checkpointPromise]) (hook w)) w),
       Return tt).

(** The body of the promise of [turn_start], run to its end: [now] is
    the value of [Date.now()] in the capture and [lucky] the value of
    [Math.random() < 0.1]. *)
Definition run_capture (cwd id : string) (turnIndex : Z) (sessionId : string)
    (now : Z) (lucky : bool) : M world (option CheckpointData) :=
  try_catch
    (data <- on_machine (createCheckpoint cwd id turnIndex sessionId now) ;;
     modify (push_completed data) ;;;
     modify (fun w =>
       if lucky
       then emit CallPrune (set_background (S (background_prunes w)) w)
       else w) ;;;
     ret (Some data))
    (fun err =>
       modify (fun w => set_hook (set_checkpointingFailed true (hook w)) w) ;;;
       ret None).

(** The scheduler lets the [i]-th promise run. *)
Definition settle (i : nat) (now : Z) (lucky : bool) (w : world) : world :=
  match pendingCheckpoints (hook w) !! i with
  | Some (Pending cwd id turnIndex sessionId) =>
      let '(w', o) := run_capture cwd id turnIndex sessionId now lucky w in
      let p := match o with
               | Return v => Fulfilled v
               | Throw e => Rejected e
               end in
      set_hook (set_pending (<[i := p]> (pendingCheckpoints (hook w')))
                            (hook w')) w'
  | _ => w
  end.

(** The scheduler lets a prune that was started in the background
    run. *)
Definition run_prune (cwd : string) (w : world) : world :=
  match background_prunes w with
  | O => w
  | S n =>
      let '(w', _) := on_machine (pruneCheckpoints cwd) w in
      set_background n w'
  end.

(** *** branch *)

Record entry : Type := mkEntry {
  e_type : string;
  e_id : option string;
  (* the time value of [new Date(entry.timestamp)], [None] for an
     entry whose timestamp is missing or falsy *)
  e_time : option JS.number
}.

Record branch_event : Type := mkBranch {
  entries : list entry;
  targetTurnIndex : Z
}.

(** What the handler reads from its environment while it runs. *)
Record branch_inputs : Type := mkInputs {
  capture_now : nat -> Z;        (* [Date.now()] in the i-th pending capture *)
  capture_lucky : nat -> bool;   (* [Math.random() < 0.1] in that capture *)
  now_target : Z;                (* [Date.now()] for a target without time *)
  choice : option string;        (* what [ctx.ui.select] resolves to *)
  now_before : Z;                (* [Date.now()] in the before-restore id *)
  now_capture : Z                (* [Date.now()] in the before-restore capture *)
}.

Inductive branch_result : Type :=
  | Undefined
  | SkipConversationRestore.

Fixpoint settle_from (i n : nat) (inp : branch_inputs) (w : world) : world :=
  match n with
  | O => w
  | S n' =>
      settle_from (S i) n' inp (settle i (capture_now inp i)
                                         (capture_lucky inp i) w)
  end.

Definition rejection (p : promise) : option string :=
  match p with Rejected e => Some e | _ => None end.

(** [await Promise.all(pendingCheckpoints)]: every promise of the
    array settles; the await throws if one of them is rejected. *)
Definition await_all (inp : branch_inputs) : M world unit := fun w =>
  let w' := settle_from 0 (length (pendingCheckpoints (hook w))) inp w in
  match JS.find_map rejection (pendingCheckpoints (hook w')) with
  | Some e => (w', Throw e)
  | None => (w', Return tt)
  end.

Definition notify (message level : string) : M world unit :=
  modify (emit (Notify message level)).

(** [entries[i]] for a number [i]. *)
Definition entry_at (l : list entry) (i : Z) : option entry :=
  if i <? 0 then None else l !! Z.to_nat i.

(** The state in which the handler selects: after the await and after
    the checkpoints of the session of the entries are loaded. *)
Definition branch_prepare (event : branch_event) (ctx : context)
    (inp : branch_inputs) : M world unit :=
  await_all inp ;;;
  let header := List.find (fun e => (e_type e =? "session")%string)
                          (entries event) in
  let entriesSessionId := header ≫= e_id in
  current <- gets (fun w => currentSessionId (hook w)) ;;
  match entriesSessionId with
  | Some sid =>
      if nonempty sid && negb (sid =? current)%string
      then loadCheckpointsForSession (ctx_cwd ctx) sid false
      else ret tt
  | None => ret tt
  end.

Definition targetTimestamp (event : branch_event) (inp : branch_inputs)
    : JS.number :=
  match entry_at (entries event) (targetTurnIndex event) ≫= e_time with
  | Some t => t
  | None => JS.Num (now_target inp)
  end.

(** The restore of the choices "Code only" and "Restore all": the
    current state is saved first. *)
Definition save_and_restore (event : branch_event) (ctx : context)
    (inp : branch_inputs) (checkpoint : CheckpointData) : M world unit :=
  current <- gets (fun w => currentSessionId (hook w)) ;;
  let beforeId := current +:+ "-before-restore-"
                  +:+ JS.Number_toString (now_before inp) in
  modify (emit (CallCreate beforeId)) ;;;
  beforeCheckpoint <- on_machine
    (createCheckpoint (ctx_cwd ctx) beforeId (targetTurnIndex event) current
                      (now_capture inp)) ;;
  modify (push_completed beforeCheckpoint) ;;;
  modify (emit (CallRestore (id checkpoint))) ;;;
  on_machine (restoreCheckpoint (ctx_cwd ctx) checkpoint).

(** The handler from the selection on: it runs in the state that
    [branch_prepare] leaves. *)
Definition branch_decide (event : branch_event) (ctx : context)
    (inp : branch_inputs) : M world branch_result :=
  completed <- gets (fun w => completedCheckpoints (hook w)) ;;
  match selectCheckpoint completed (targetTimestamp event inp) with
  | NoCheckpoints =>
      notify "No checkpoints available" "warning" ;;; ret Undefined
  | NotFound =>
      notify "No checkpoint found for this message" "warning" ;;;
      ret Undefined
  | Selected checkpoint latestCheckpoint hasOlderCheckpoints =>
      match choice inp with
      | None | Some EmptyString => ret SkipConversationRestore
      | Some choice =>
          if (choice =? "Cancel")%string then ret SkipConversationRestore
          else if JS.startsWith choice "Restore oldest" then
            try_catch
              (match last (allCheckpoints completed) with
               | Some oldestCheckpoint =>
                   modify (emit (CallRestore (id oldestCheckpoint))) ;;;
                   on_machine (restoreCheckpoint (ctx_cwd ctx)
                                                 oldestCheckpoint) ;;;
                   notify "Restored to oldest checkpoint" "info"
               | None => throw "TypeError"
               end)
              (fun error => notify ("Restore failed: " +:+ error) "error") ;;;
            ret SkipConversationRestore
          else if JS.startsWith choice "Code only" then
            try_catch
              (save_and_restore event ctx inp checkpoint ;;;
               notify "Files restored to checkpoint" "info")
              (fun error => notify ("Restore failed: " +:+ error) "error") ;;;
            ret SkipConversationRestore
          else if JS.startsWith choice "Restore all" then
            try_catch
              (save_and_restore event ctx inp checkpoint ;;;
               notify "Files and conversation restored" "info")
              (fun error =>
                 notify ("File restore failed: " +:+ error) "error") ;;;
            ret Undefined
          else ret Undefined
      end
  end.

Definition branch (event : branch_event) (ctx : context)
    (inp : branch_inputs) : M world branch_result :=
  available <- gets (fun w => gitAvailable (hook w)) ;;
  if negb available then ret Undefined
  else
    branch_prepare event ctx inp ;;;
    branch_decide event ctx inp.

(** *** session_switch *)

Record session_switch_event : Type := mkSwitch {
  reason : string;
  newSessionFile : string
}.

Definition session_switch (event : session_switch_event) : M world unit :=
  available <- gets (fun w => gitAvailable (hook w)) ;;
  if negb available then ret tt
  else if (reason event =? "branch")%string then
    sid <- gets (getSessionIdFromFile (newSessionFile event)) ;;
    modify (fun w => set_hook (set_currentSessionId sid (hook w)) w)
  else ret tt.

(** *** A session

    What can happen to the world of a hook: the host delivers an
    event, the scheduler lets a pending capture or a background prune
    run, or something outside the hook changes the machine and the
    session files. *)
Inductive event : Type :=
  | SessionStart (ctx : context)
  | TurnStart (e : turn_start_event) (ctx : context)
  | Branch (e : branch_event) (ctx : context) (inp : branch_inputs)
  | SessionSwitch (e : session_switch_event)
  | Settle (i : nat) (now : Z) (lucky : bool)
  | RunPrune (cwd : string)
  | Outside (m : machine) (files : gmap string string).

Definition step (e : event) (w : world) : world :=
  match e with
  | SessionStart ctx => (session_start ctx w).1
  | TurnStart e ctx => (turn_start e ctx w).1
  | Branch e ctx inp => (branch e ctx inp w).1
  | SessionSwitch e => (session_switch e w).1
  | Settle i now lucky => settle i now lucky w
  | RunPrune cwd => run_prune cwd w
  | Outside m files =>
      mkWorld m files (hook w) (background_prunes w) (log w)
  end.

Definition run_events (es : list event) (w : world) : world :=
  foldl (fun w e => step e w) w es.

End Handlers.

End Hook.

(** ** A sample repository *)

Module Sample.

Import JS Git Checkpoint.

(** Object names for the examples: forty digits read off the encoding
    of the object. *)
Definition digest (p : positive) : string := JS.pad 40 (Z.pos p mod 10 ^ 40).

Definition names : ObjectNames :=
  {| tree_name := fun t => digest (encode (map_to_list t));
     commit_name := fun c => digest (encode (c_tree c, c_message c)) |}.

Definition engine : Engine := {| Date_parse_fallback := fun _ => NaN |}.

Definition first_tree : tree :=
  <[ ["a.txt"] := "one" ]> (<[ ["docs"] := "read me" ]> ∅).

Definition first_commit : commit :=
  mkCommit (@tree_name names first_tree) []
           "dev <dev@example.org> 1700000000 +0000"
           "dev <dev@example.org> 1700000000 +0000" 1700000000 "initial".

Definition first_repo : repo :=
  mkRepo "/work" (Some (@commit_name names first_commit)) first_tree first_tree
         (fun _ => false)
         {[ @tree_name names first_tree := first_tree ]}
         {[ @commit_name names first_commit := first_commit ]}
         ∅ ∅.

Definition first_machine : machine := mkMachine (Some first_repo) ∅ 0.

Definition checkpointed : machine * outcome CheckpointData :=
  @createCheckpoint names "/work" "s1-turn-0-1" 0 "s1" 1793615445123 first_machine.

Definition snapshot : CheckpointData :=
  mkCheckpointData "s1-turn-0-1" 0 "s1" (@commit_name names first_commit)
    (@tree_name names first_tree) (@tree_name names first_tree)
    (Num 1793615445123).

Definition after_checkpoint : repo :=
  default first_repo (repository checkpointed.1).

(** After the checkpoint the user stages a new file, removes the file
    [docs], makes a directory of that name with a file in it, and
    leaves one more file untracked. *)
Definition later_repo : repo :=
  set_index (<[ ["new.txt"] := "made after the checkpoint" ]>
               (index after_checkpoint))
    (set_worktree
       (<[ ["untracked.txt"] := "kept" ]> $
        <[ ["docs"; "notes.txt"] := "notes" ]>
          (<[ ["new.txt"] := "made after the checkpoint" ]>
             (delete ["docs"] (worktree after_checkpoint))))
       after_checkpoint).

Definition later_machine : machine := set_repository later_repo checkpointed.1.

Definition restored : machine * outcome unit :=
  @restoreCheckpoint names "/work" snapshot later_machine.





(** A repository before its first commit, with one file. *)
Definition unborn_repo : repo :=
  mkRepo "/work" None ∅ (<[ ["a.txt"] := "one" ]> ∅) (fun _ => false) ∅ ∅ ∅ ∅.

Definition unborn_machine : machine := mkMachine (Some unborn_repo) ∅ 0.

Definition unborn_checkpointed : machine * outcome CheckpointData :=
  @createCheckpoint names "/work" "s1-turn-0-1" 0 "s1" 1793615445123
    unborn_machine.

Definition unborn_snapshot : CheckpointData :=
  mkCheckpointData "s1-turn-0-1" 0 "s1" ZEROS
    (@tree_name names ∅) (@tree_name names (<[ ["a.txt"] := "one" ]> ∅))
    (Num 1793615445123).





(** Captures with a session id that is empty and with one that starts
    with a space. *)
Definition blank_checkpointed : machine * outcome CheckpointData :=
  @createCheckpoint names "/work" "-before-restore-5" 0 "" 1793615445123
    first_machine.

Definition spaced_checkpointed : machine * outcome CheckpointData :=
  @createCheckpoint names "/work" "x-before-restore-5" 0 " s1" 1793615445123
    first_machine.

(** A second record of the session, taken four seconds after the
    first. *)
Definition second_snapshot : CheckpointData :=
  mkCheckpointData "s1-turn-1-2" 1 "s1" (@commit_name names first_commit)
    (@tree_name names first_tree) (@tree_name names first_tree)
    (Num 1793615449123).

(** The hook in a session with two known records and no capture
    pending, over the repository as the user left it. *)
Definition session_world : Hook.world :=
  Hook.mkWorld later_machine {[ "/sessions/s1.jsonl" := "s1" ]}
    (Hook.mkState [snapshot; second_snapshot] [] true false "s1"
                  "/sessions/s1.jsonl")
    0 [].

Definition session_context : Hook.context :=
  Hook.mkContext "/work" (Some "/sessions/s1.jsonl").

(** A branch to the first message of the session. *)
Definition branch_to_first : Hook.branch_event :=
  Hook.mkBranch [Hook.mkEntry "session" (Some "s1") None;
                 Hook.mkEntry "message" None (Some (Num 1793615445000))] 1.

Definition choosing (c : string) : Hook.branch_inputs :=
  Hook.mkInputs (fun _ => 0) (fun _ => false) 5 (Some c)
                1793615450000 1793615450001.

(** A session whose id has a space: the ref of a capture has a name
    that git refuses. *)
Definition spaced_world : Hook.world :=
  Hook.mkWorld first_machine {[ "/sessions/s1.jsonl" := "s 1" ]}
    Hook.initial_state 0 [].

Definition spaced_session : list Hook.event :=
  [ Hook.SessionStart session_context;
    Hook.TurnStart (Hook.mkTurnStart 0 1000) session_context ].

(** A repository with 102 checkpoint refs; the commit of the [i]-th
    is made at second [1000 + (37 i mod 102)]. *)
Definition crowded_commit (i : nat) : commit :=
  mkCommit (@tree_name names first_tree) []
           "pi-checkpoint <checkpoint@pi>" "pi-checkpoint <checkpoint@pi>"
           (1000 + (37 * Z.of_nat i) mod 102) ("checkpoint:c" +:+ Number_toString (Z.of_nat i)).

Definition crowded_ref (i : nat) : string :=
  REF_BASE +:+ "/c" +:+ Number_toString (Z.of_nat i).

Definition crowded_repo : repo :=
  foldr (fun i r =>
           set_refs (<[ crowded_ref i := @commit_name names (crowded_commit i) ]> (refs r))
             (set_commits (<[ @commit_name names (crowded_commit i) := crowded_commit i ]>
                             (commits r)) r))
        first_repo (seq 0 102).

Definition crowded_machine : machine := mkMachine (Some crowded_repo) ∅ 0.

(** A new instance of the hook over the repository as the sample
    capture left it. *)
Definition resumed_world : Hook.world :=
  Hook.mkWorld checkpointed.1 {[ "/sessions/s1.jsonl" := "s1" ]}
    Hook.initial_state 0 [].

(** The hook with the capture of the first turn pending. *)
Definition pending_world : Hook.world :=
  Hook.mkWorld first_machine {[ "/sessions/s1.jsonl" := "s1" ]}
    (Hook.mkState [] [Hook.Pending "/work" "s1-turn-0-1" 0 "s1"] true false
                  "s1" "/sessions/s1.jsonl")
    0 [].

(** A machine without a repository around the working directory. *)
Definition bare_machine : machine := mkMachine None ∅ 0.

End Sample.


(** * Properties *)

Import JS Git Checkpoint.

(** ** Vocabulary of the statements *)

Definition not_later (a b : CheckpointData) : Prop :=
  ge (timestamp b) (timestamp a) = true.

Definition ascending (a b : CheckpointData) : number :=
  sub (timestamp a) (timestamp b).

Definition timed (r : CheckpointData) : Prop := ∃ z, timestamp r = Num z.

Definition at_time (r : CheckpointData) (t : Z) : CheckpointData :=
  mkCheckpointData (id r) (turnIndex r) (sessionId r) (headSha r)
                   (indexTreeSha r) (worktreeTreeSha r) (Num t).

(** The text of the commit that a checkpoint ref names, as
    [loadCheckpointFromRef] reads it; [None] when the repository, the
    ref or the commit cannot be read. *)
Definition commit_text_of (m : machine) (refName : string) : option string :=
  r ← repository m;
  sha ← refs r !! (REF_BASE +:+ "/" +:+ refName);
  c ← commits r !! trim (sha +:+ LF);
  Some (commit_text c).

(** The text has a line [key rest] with a rest that is not empty. *)
Definition has_line (key text : string) : Prop :=
  ∃ rest, rest ≠ EmptyString ∧ (key +:+ " " +:+ rest) ∈ lines text.

(** The text has a line [key n] for an integer literal [n]. *)
Definition has_int_line (key text : string) : Prop :=
  ∃ rest, is_integer_literal rest = true ∧ (key +:+ " " +:+ rest) ∈ lines text.

(** The record that the fields of a commit text make up. *)
Definition record_of_text `{Engine} (refName text : string) : option CheckpointData :=
  session ← match_key "sessionId" text;
  turn ← match_int "turn" text;
  head ← match_key "head" text;
  index ← match_key "index-tree" text;
  worktree ← match_key "worktree-tree" text;
  Some (mkCheckpointData refName (parseInt turn) (trim session) (trim head)
          (trim index) (trim worktree)
          (match match_key "created" text with
           | Some created => Date_parse (trim created)
           | None => Num 0
           end)).

(** No character of [s] satisfies [p]. *)
Fixpoint free_of (p : ascii → bool) (s : string) : bool :=
  match s with
  | EmptyString => true
  | String c s' => negb (p c) && free_of p s'
  end.

Definition is_LF (c : ascii) : bool := (c =? "010")%char.

Definition checkpoint_prefix : string := REF_BASE +:+ "/".

(** The names of the refs of the checkpoint namespace. *)
Definition checkpoint_refs (r : repo) : list string :=
  (listed_refs r checkpoint_prefix).*1.

(** The committer date behind a ref. *)
Definition ref_date (r : repo) (name : string) : option Z :=
  refs r !! name ≫= committerdate r.

(** Every ref has a name git accepts and points at an object of the
    store. *)
Definition valid_refs (r : repo) : Prop :=
  ∀ name sha, refs r !! name = Some sha →
    check_ref_format name = true ∧
    (is_Some (commits r !! sha) ∨ is_Some (trees r !! sha)).

(** The refs that remain when the unlocked names of [toDelete] are
    deleted. *)
Definition without (locked : gset string) (toDelete : list string)
    (refs : gmap string string) : gmap string string :=
  foldl (fun f name => if decide (name ∉ locked) then delete name f else f)
        refs toDelete.

(** The files of the tree that a name denotes in the store (none when
    the name denotes no tree). *)
Definition tree_at (r : repo) (sha : string) : tree :=
  default ∅ (trees r !! sha).

(** The files of the commit that a name denotes. *)
Definition commit_tree_at (r : repo) (sha : string) : tree :=
  default ∅ (c ← commits r !! sha; trees r !! c_tree c).

(** A string that is not empty and holds no white space: an object
    name, for one. *)
Definition plain (s : string) : Prop :=
  nonempty s = true ∧ free_of isWhiteSpace s = true.

Class PlainNames `{ObjectNames} : Prop := {
  tree_name_plain : ∀ t, plain (tree_name t);
  commit_name_plain : ∀ c, plain (commit_name c)
}.

(** The head that a capture records. *)
Definition captured_head (r : repo) : string :=
  match head r with
  | Some h => trim (h +:+ LF)
  | None => ZEROS
  end.

(** The files that a capture takes: those of the working tree that the
    ignore-file rules do not exclude. *)
Definition captured_files (r : repo) : tree :=
  filter (fun kv => ignored r kv.1 = false) (worktree r).

Section Vocabulary.

Context `{ObjectNames}.

(** The commit of a checkpoint. *)
Definition checkpoint_commit (r : repo) (id sid : string) (turn now secs : Z)
    : commit :=
  mkCommit (tree_name (captured_files r)) []
    (ident_line (pi_checkpoint (toISOString now)) secs)
    (ident_line (pi_checkpoint (toISOString now)) secs) secs
    (checkpoint_message id sid turn (captured_head r) (tree_name (index r))
       (tree_name (captured_files r)) (toISOString now)).

(** What a capture needs to succeed: a time that git can read, a ref
    name that git accepts, and a ref that is not locked. *)
Definition capture_accepted (r : repo) (id : string) (now : Z) : bool :=
  bool_decide (is_Some (parse_iso (toISOString now)))
  && check_ref_format (REF_BASE +:+ "/" +:+ id)
  && bool_decide ((REF_BASE +:+ "/" +:+ id) ∉ locked r).

(** The record that a capture returns. *)
Definition captured_record (r : repo) (id sid : string) (turn now : Z)
    : CheckpointData :=
  mkCheckpointData id turn sid (captured_head r) (tree_name (index r))
    (tree_name (captured_files r)) (Num now).

(** The repository after a capture at a time of [ms] milliseconds. *)
Definition captured_repo (r : repo) (id sid : string) (turn now ms : Z)
    : repo :=
  let c := checkpoint_commit r id sid turn now (ms / 1000) in
  set_refs (<[REF_BASE +:+ "/" +:+ id := commit_name c]> (refs r))
    (set_commits (<[commit_name c := c]> (commits r))
       (set_trees (<[tree_name (captured_files r) := captured_files r]>
                     (<[tree_name (index r) := index r]> (trees r))) r)).

End Vocabulary.

(** The date of a day of a 400-year era, counted from the first of
    March: year of the era, month and day. *)
Definition civil_of_era_day (doe : Z) : Z * Z * Z :=
  let yoe := (doe - doe / 1460 + doe / 36524 - doe / 146096) / 365 in
  let doy := doe - (365 * yoe + yoe / 4 - yoe / 100) in
  let mp := (5 * doy + 2) / 153 in
  (yoe, if mp <? 10 then mp + 3 else mp - 9, doy - (153 * mp + 2) / 5 + 1).

Definition era_day_of_civil (yoe m d : Z) : Z :=
  let mp := if 2 <? m then m - 3 else m + 9 in
  yoe * 365 + yoe / 4 - yoe / 100 + ((153 * mp + 2) / 5 + d - 1).

Definition era_day_ok (doe : Z) : bool :=
  let '(yoe, m, d) := civil_of_era_day doe in
  (0 <=? yoe) && (yoe <? 400) && (1 <=? m) && (m <=? 12) && (1 <=? d)
  && (d <=? days_in_month (yoe + (if m <=? 2 then 1 else 0)) m)
  && (era_day_of_civil yoe m d =? doe).

Fixpoint all_from (n : nat) (i : Z) (f : Z → bool) : bool :=
  match n with
  | O => true
  | S k => f i && all_from k (i + 1) f
  end.

(** The year of a time value. *)
Definition year_of (t : Z) : Z := (civil_from_days (t / msPerDay)).1.1.

(** The text of a commit made of three header lines and seven message
    lines, and what the matches of [loadCheckpointFromRef] find in
    it. *)
Definition checkpoint_text (T A C id sid N H I W iso : string) : string :=
  ("tree " +:+ T) +:+ LF +:+ ("author " +:+ A) +:+ LF +:+
  ("committer " +:+ C) +:+ LF +:+ EmptyString +:+ LF +:+
  ("checkpoint:" +:+ id) +:+ LF +:+ ("sessionId " +:+ sid) +:+ LF +:+
  ("turn " +:+ N) +:+ LF +:+ ("head " +:+ H) +:+ LF +:+
  ("index-tree " +:+ I) +:+ LF +:+ ("worktree-tree " +:+ W) +:+ LF +:+
  ("created " +:+ iso).

Definition one_line (s : string) : Prop := free_of isLineTerminator s = true.

(** A session id that survives the commit message: not empty, on one
    line, with no white space around it. *)
Definition tidy (s : string) : Prop :=
  nonempty s = true ∧ one_line s ∧ trim s = s.

(** *** The hook *)

(** A computation on worlds relates every world to the world it leaves
    by [R]. *)
Definition respects {A : Type} (R : relation Hook.world) (c : M Hook.world A)
    : Prop :=
  ∀ w, R w (c w).1.

(** Once set, the failure flag stays set. *)
Definition keeps_failed (w w' : Hook.world) : Prop :=
  Hook.checkpointingFailed (Hook.hook w) = true →
  Hook.checkpointingFailed (Hook.hook w') = true.

(** The promises are the same and no known record is dropped. *)
Definition keeps_records (w w' : Hook.world) : Prop :=
  Hook.pendingCheckpoints (Hook.hook w') = Hook.pendingCheckpoints (Hook.hook w) ∧
  ∀ d, d ∈ Hook.completedCheckpoints (Hook.hook w) →
       d ∈ Hook.completedCheckpoints (Hook.hook w').

Definition is_pending (p : Hook.promise) : bool :=
  match p with Hook.Pending _ _ _ _ => true | _ => false end.

(** The id of the checkpoint that saves the state before a restore. *)
Definition before_restore_id (w : Hook.world) (inp : Hook.branch_inputs)
    : string :=
  Hook.currentSessionId (Hook.hook w) +:+ "-before-restore-"
  +:+ Number_toString (Hook.now_before inp).

(** *** Frames *)

(** A computation relates every state to the state it leaves by
    [R], whether it returns or throws. *)
Definition keeps {S A : Type} (R : relation S) (c : M S A) : Prop :=
  ∀ s, R s (c s).1.

(** What the user works on: HEAD, the staging area and the files. *)
Definition working_state (m : machine)
    : option (option string * tree * tree) :=
  (fun r => (head r, index r, worktree r)) <$> repository m.

Definition refs_of (m : machine) : gmap string string :=
  default ∅ (refs <$> repository m).

Definition trees_of (m : machine) : gmap string tree :=
  default ∅ (trees <$> repository m).

Definition commits_of (m : machine) : gmap string commit :=
  default ∅ (commits <$> repository m).

(** The commands of a capture. *)
Definition capture_command (ref : string) (c : command) : Prop :=
  match c with
  | RevParseIsInsideWorkTree | RevParseShowToplevel | RevParseHEAD
  | WriteTree _ | AddAll (Some _) | CommitTree _ _ _ _ => True
  | UpdateRef r _ => r = ref
  | _ => False
  end.

(** The machines differ at most in the objects of the store, in the
    ref [ref] and in the temporary index files. *)
Definition same_but_ref (ref : string) (m m' : machine) : Prop :=
  working_state m' = working_state m ∧
  delete ref (refs_of m') = delete ref (refs_of m).

(** The machines differ at most in refs that the second one lacks. *)
Definition only_refs_deleted (m m' : machine) : Prop :=
  working_state m' = working_state m ∧
  trees_of m' = trees_of m ∧ commits_of m' = commits_of m ∧
  tmp_index m' = tmp_index m ∧
  refs_of m' ⊆ refs_of m.

(** The machines have the same refs, objects and temporary files. *)
Definition same_store (m m' : machine) : Prop :=
  refs_of m' = refs_of m ∧ trees_of m' = trees_of m ∧
  commits_of m' = commits_of m ∧ tmp_index m' = tmp_index m.

(** One round of the loop of [loadCheckpointsForSession]: the record
    that the ref [refName] loads as on the machine [m] joins the known
    records when it is of the session and its id is new. *)
Definition load_one `{Engine} (sid : string) (m : machine)
    (known : list CheckpointData) (refName : string) : list CheckpointData :=
  match commit_text_of m refName ≫= record_of_text refName with
  | Some d =>
      if (sessionId d =? sid)%string
         && negb (existsb (fun c => (id c =? id d)%string) known)
      then known ++ [d]
      else known
  | None => known
  end.

(** What a restore of the record [rec] needs of the repository: a
    head that is not the sentinel and names a commit of the store with
    its tree, and the two trees of the record. *)
Definition restorable (r : repo) (rec : CheckpointData) : Prop :=
  headSha rec ≠ ZEROS ∧
  (∃ co, commits r !! headSha rec = Some co ∧ is_Some (trees r !! c_tree co)) ∧
  is_Some (trees r !! worktreeTreeSha rec) ∧
  is_Some (trees r !! indexTreeSha rec).



(** The machines have the same temporary files outside the directory
    [dir]. *)
Definition same_outside (dir : string) (m m' : machine) : Prop :=
  tmp_count m' = tmp_count m ∧
  ∀ file, startsWith file (dir +:+ "/") = false →
          tmp_index m' !! file = tmp_index m !! file.

(** The comparison function of [allCheckpoints]. *)
Definition descending (a b : CheckpointData) : number :=
  sub (timestamp b) (timestamp a).

(** No promise of the hook is rejected. *)
Definition no_rejection (w : Hook.world) : Prop :=
  Forall (fun p => Hook.rejection p = None)
         (Hook.pendingCheckpoints (Hook.hook w)).

(** The hook has the same promises in both worlds. *)
Definition same_pending (w w' : Hook.world) : Prop :=
  Hook.pendingCheckpoints (Hook.hook w') = Hook.pendingCheckpoints (Hook.hook w).

(** A computation that returns, whatever the state. *)
Definition returns {S A : Type} (c : M S A) : Prop :=
  ∀ s, ∃ s' a, c s = (s', Return a).

(** A computation relates a state to the state it leaves by [R]
    whenever it throws. *)
Definition keeps_on_throw {S A : Type} (R : relation S) (c : M S A) : Prop :=
  ∀ s, match c s with
       | (s', Throw _) => R s s'
       | (_, Return _) => True
       end.

(** The machines have the same refs and the same work. *)
Definition same_refs (m m' : machine) : Prop :=
  working_state m' = working_state m ∧ refs_of m' = refs_of m.




(** ** Strings and matches *)

Lemma strip_prefix_Some p s r : strip_prefix p s = Some r ↔ s = p +:+ r.
Proof.
  revert s. induction p as [|a p IH]; intros s; simpl.
  - split; [by intros [= ->]|by intros ->].
  - destruct s as [|b s]; [done|].
    destruct (Ascii.eqb_spec a b) as [->|Hne].
    + rewrite IH. split; [by intros ->|by intros [= ->]].
    + split; [done|]. intros [= -> _]. done.
Qed.

Lemma find_map_None {A B} (f : A → option B) l :
  find_map f l = None ↔ ∀ x, x ∈ l → f x = None.
Proof.
  induction l as [|x l IH]; simpl.
  - split; [by intros _ x ?%not_elem_of_nil|done].
  - destruct (f x) eqn:E.
    + split; [done|]. intros Hl. rewrite <- E. apply Hl. by left.
    + rewrite IH. split.
      * intros Hl y [->|Hy]%elem_of_cons; auto.
      * intros Hl y Hy. apply Hl. by right.
Qed.

Lemma find_map_Some {A B} (f : A → option B) l y :
  find_map f l = Some y → ∃ x, x ∈ l ∧ f x = Some y.
Proof.
  induction l as [|x l IH]; simpl; [done|].
  destruct (f x) eqn:E.
  - intros [= ->]. exists x. split; [by left|done].
  - intros [x' [? ?]]%IH. exists x'. split; [by right|done].
Qed.

Lemma string_app_cons a s t : String a s +:+ t = String a (s +:+ t).
Proof. reflexivity. Qed.

Lemma string_app_nil_l (s : string) : EmptyString +:+ s = s.
Proof. reflexivity. Qed.

Lemma string_app_nil_r (s : string) : s +:+ EmptyString = s.
Proof. induction s as [|a s IH]; [done|]. by rewrite string_app_cons, IH. Qed.

Lemma string_app_assoc (s t u : string) : s +:+ t +:+ u = (s +:+ t) +:+ u.
Proof. induction s as [|a s IH]; [done|]. by rewrite !string_app_cons, IH. Qed.

Lemma match_key_line_Some key line rest :
  match_key_line key line = Some rest ↔
  rest ≠ EmptyString ∧ line = key +:+ " " +:+ rest.
Proof.
  unfold match_key_line.
  destruct (strip_prefix (key +:+ " ") line) as [r|] eqn:E.
  - apply strip_prefix_Some in E. subst line. rewrite <- string_app_assoc.
    destruct r as [|c r].
    + split; [done|]. intros [Hne Heq]. by simplify_eq.
    + split; [by intros [= <-]|]. intros [_ Heq]. by simplify_eq.
  - split; [done|]. intros [_ ->].
    rewrite string_app_assoc in E.
    by pose proof (proj2 (strip_prefix_Some (key +:+ " ") _ rest) eq_refl) as E'; rewrite E in E'.
Qed.

Lemma match_int_line_Some key line rest :
  match_int_line key line = Some rest ↔
  is_integer_literal rest = true ∧ line = key +:+ " " +:+ rest.
Proof.
  unfold match_int_line.
  destruct (strip_prefix (key +:+ " ") line) as [r|] eqn:E.
  - apply strip_prefix_Some in E. subst line. rewrite <- string_app_assoc.
    destruct (is_integer_literal r) eqn:Hr.
    + split; [by intros [= <-]|]. intros [_ Heq]. by simplify_eq.
    + split; [done|]. intros [Hr' Heq]. simplify_eq. congruence.
  - split; [done|]. intros [_ ->].
    rewrite string_app_assoc in E.
    by pose proof (proj2 (strip_prefix_Some (key +:+ " ") _ rest) eq_refl) as E'; rewrite E in E'.
Qed.

Lemma match_key_None key text : match_key key text = None ↔ ¬ has_line key text.
Proof.
  unfold match_key, has_line. rewrite find_map_None. split.
  - intros Hl (rest & Hne & Hin). specialize (Hl _ Hin).
    by pose proof (proj2 (match_key_line_Some key _ rest) (conj Hne eq_refl)) as E; rewrite Hl in E.
  - intros Hno l Hin. destruct (match_key_line key l) as [rest|] eqn:E; [|done].
    apply match_key_line_Some in E as [Hne ->]. destruct Hno. eauto.
Qed.

Lemma match_int_None key text : match_int key text = None ↔ ¬ has_int_line key text.
Proof.
  unfold match_int, has_int_line. rewrite find_map_None. split.
  - intros Hl (rest & Hne & Hin). specialize (Hl _ Hin).
    by pose proof (proj2 (match_int_line_Some key _ rest) (conj Hne eq_refl)) as E; rewrite Hl in E.
  - intros Hno l Hin. destruct (match_int_line key l) as [rest|] eqn:E; [|done].
    apply match_int_line_Some in E as [Hne ->]. destruct Hno. eauto.
Qed.

Lemma free_of_app p s t : free_of p (s +:+ t) = free_of p s && free_of p t.
Proof.
  induction s as [|c s IH]; [done|].
  rewrite string_app_cons. simpl. by rewrite IH, andb_assoc.
Qed.

Lemma rev_append_app s acc : rev_append s acc = rev s +:+ acc.
Proof.
  unfold rev. revert acc. induction s as [|c s IH]; intros acc; [done|].
  simpl. rewrite IH, (IH (String c EmptyString)).
  by rewrite <- string_app_assoc.
Qed.

Lemma rev_cons c s : rev (String c s) = rev s +:+ String c EmptyString.
Proof. unfold rev at 1. simpl. apply rev_append_app. Qed.

Lemma rev_app s t : rev (s +:+ t) = rev t +:+ rev s.
Proof.
  induction s as [|c s IH].
  - by rewrite string_app_nil_r.
  - rewrite string_app_cons, !rev_cons, IH. by rewrite string_app_assoc.
Qed.

Lemma rev_involutive s : rev (rev s) = s.
Proof.
  induction s as [|c s IH]; [done|].
  by rewrite rev_cons, rev_app, IH.
Qed.

Lemma free_of_rev p s : free_of p (rev s) = free_of p s.
Proof.
  induction s as [|c s IH]; [done|].
  rewrite rev_cons, free_of_app, IH. simpl.
  by rewrite andb_true_r, andb_comm.
Qed.

Lemma trimStart_free s : free_of isWhiteSpace s = true → trimStart s = s.
Proof.
  destruct s as [|c s]; [done|]. simpl.
  intros [Hc _]%andb_prop. apply negb_true_iff in Hc. by rewrite Hc.
Qed.

Lemma trim_free s : free_of isWhiteSpace s = true → trim s = s.
Proof.
  intros Hs. unfold trim, trimEnd. rewrite (trimStart_free s) by done.
  rewrite trimStart_free by (by rewrite free_of_rev). apply rev_involutive.
Qed.

Lemma trim_line s : plain s → trim (s +:+ LF) = s.
Proof.
  intros [Hne Hs]. unfold trim, trimEnd.
  assert (trimStart (s +:+ LF) = s +:+ LF) as ->.
  { destruct s as [|c s]; [done|]. rewrite string_app_cons. simpl in *.
    apply andb_prop in Hs as [Hc _]. apply negb_true_iff in Hc. by rewrite Hc. }
  rewrite rev_app.
  change (rev LF +:+ rev s) with (String "010"%char (rev s)).
  change (trimStart (String "010"%char (rev s))) with (trimStart (rev s)).
  rewrite trimStart_free by (by rewrite free_of_rev). apply rev_involutive.
Qed.

Lemma startsWith_app p s : startsWith (p +:+ s) p = true.
Proof.
  unfold startsWith.
  by rewrite (proj2 (strip_prefix_Some p (p +:+ s) s) eq_refl).
Qed.

Lemma startsWith_index dir : startsWith (dir +:+ "/index") (dir +:+ "/") = true.
Proof.
  change "/index" with ("/" +:+ "index").
  rewrite string_app_assoc. apply startsWith_app.
Qed.

Lemma free_of_weaken (p q : ascii → bool) s :
  (∀ c, q c = true → p c = true) → free_of p s = true → free_of q s = true.
Proof.
  intros Hpq. induction s as [|c s IH]; [done|]. simpl.
  intros [Hc Hs]%andb_prop. rewrite IH by done.
  destruct (q c) eqn:E; [|done]. by rewrite (Hpq c E) in Hc.
Qed.

Lemma free_of_space_line s :
  free_of isWhiteSpace s = true → free_of isLineTerminator s = true.
Proof.
  apply free_of_weaken. intros c. unfold isLineTerminator, isWhiteSpace.
  intros [E|E]%orb_prop; rewrite E; by rewrite ?orb_true_r.
Qed.

Lemma plain_one_line s : plain s → one_line s.
Proof. intros [_ Hs]. by apply free_of_space_line. Qed.

Lemma plain_trim s : plain s → trim s = s.
Proof. intros [_ Hs]. by apply trim_free. Qed.

Lemma one_line_app a b : one_line a → one_line b → one_line (a +:+ b).
Proof. unfold one_line. rewrite free_of_app. by intros -> ->. Qed.

(** ** Retention *)

Lemma split_where_app sep s c rest :
  free_of sep s = true → sep c = true →
  split_where sep (s +:+ String c rest) = s :: split_where sep rest.
Proof.
  intros Hs Hc. induction s as [|a s IH]; simpl.
  - by rewrite Hc.
  - simpl in Hs. apply andb_prop in Hs as [Ha Hs].
    apply negb_true_iff in Ha. by rewrite Ha, (IH Hs).
Qed.

Lemma split_listing names :
  Forall (fun n => nonempty n = true ∧ free_of is_LF n = true) names →
  filter (fun l => nonempty l = true) (split "010" (listing_text names)) = names.
Proof.
  induction 1 as [|n names [Hne Hfree] _ IH]; [done|].
  unfold split in *.
  change (listing_text (n :: names))
    with (n +:+ String "010"%char (listing_text names)).
  rewrite split_where_app; [|done|done].
  rewrite filter_cons, decide_True by done. by rewrite IH.
Qed.

Lemma split_where_free sep s :
  free_of sep s = true → split_where sep s = [s].
Proof.
  induction s as [|c s IH]; [done|]. simpl.
  intros [Hc Hs]%andb_prop. apply negb_true_iff in Hc. by rewrite Hc, IH.
Qed.

Lemma lines_cons a b :
  free_of isLineTerminator a = true → lines (a +:+ LF +:+ b) = a :: lines b.
Proof. intros Ha. by apply split_where_app. Qed.

Lemma lines_one a : free_of isLineTerminator a = true → lines a = [a].
Proof. apply split_where_free. Qed.

Lemma match_key_line_hit key v :
  nonempty v = true → match_key_line key (key +:+ " " +:+ v) = Some v.
Proof.
  intros Hv. apply match_key_line_Some. split; [by destruct v|done].
Qed.

Lemma match_int_line_hit key v :
  is_integer_literal v = true → match_int_line key (key +:+ " " +:+ v) = Some v.
Proof. intros Hv. by apply match_int_line_Some. Qed.

(** ** Decimal numerals *)

Lemma isDigit_not_space c :
  isDigit c = true → isWhiteSpace c = false ∧ isLineTerminator c = false.
Proof. destruct c as [[] [] [] [] [] [] [] []]; by vm_compute. Qed.

Lemma digit_char_spec d :
  0 ≤ d < 10 → isDigit (digit_char d) = true ∧ digit_val (digit_char d) = d.
Proof.
  intros Hd.
  assert (d = 0 ∨ d = 1 ∨ d = 2 ∨ d = 3 ∨ d = 4 ∨ d = 5 ∨ d = 6 ∨ d = 7
          ∨ d = 8 ∨ d = 9) as Hcases by lia.
  repeat (destruct Hcases as [->|Hcases]; [by vm_compute|]). subst. by vm_compute.
Qed.

Lemma all_digits_app s t : all_digits (s +:+ t) = all_digits s && all_digits t.
Proof.
  induction s as [|c s IH]; [done|].
  rewrite string_app_cons. simpl. by rewrite IH, andb_assoc.
Qed.

Lemma digits_value_app s t a :
  digits_value (s +:+ t) a = digits_value t (digits_value s a).
Proof.
  revert a. induction s as [|c s IH]; intros a; [done|].
  rewrite string_app_cons. simpl. by rewrite IH.
Qed.

Lemma all_digits_free s :
  all_digits s = true →
  free_of isWhiteSpace s = true ∧ free_of isLineTerminator s = true.
Proof.
  induction s as [|c s IH]; [done|]. simpl.
  intros [Hc Hs]%andb_prop. destruct (isDigit_not_space c Hc) as [-> ->].
  destruct (IH Hs) as [-> ->]. done.
Qed.

(** The digits that [digits_from] puts before its accumulator. *)
Lemma digits_from_spec fuel n acc :
  0 ≤ n < 2 ^ Z.of_nat (S fuel) →
  ∃ s, digits_from (S fuel) n acc = s +:+ acc ∧ nonempty s = true ∧
       all_digits s = true ∧ digits_value s 0 = n.
Proof.
  revert n acc. induction fuel as [|fuel IH]; intros n acc Hn;
    change (digits_from (S ?f) n acc)
      with (let acc' := String (digit_char (n mod 10)) acc in
            if n <? 10 then acc' else digits_from f (n / 10) acc');
    cbv zeta;
    (destruct (digit_char_spec (n mod 10)) as [Hd Hv];
      [apply Z.mod_pos_bound; lia|]);
    destruct (Z.ltb_spec n 10) as [Hlt|Hge].
  - exists (String (digit_char (n mod 10)) EmptyString).
    split; [done|]. split; [done|].
    cbn [all_digits digits_value]. rewrite Hd, Hv.
    split; [done|]. rewrite Z.mod_small; lia.
  - change (2 ^ Z.of_nat 1) with 2 in Hn. lia.
  - exists (String (digit_char (n mod 10)) EmptyString).
    split; [done|]. split; [done|].
    cbn [all_digits digits_value]. rewrite Hd, Hv.
    split; [done|]. rewrite Z.mod_small; lia.
  - destruct (IH (n / 10) (String (digit_char (n mod 10)) acc))
      as (s & Hs & Hne & Hall & Hval).
    { split; [apply Z.div_pos; lia|].
      apply Z.div_lt_upper_bound; [lia|].
      rewrite (Nat2Z.inj_succ (S fuel)), Z.pow_succ_r in Hn by lia.
      pose proof (Z.pow_pos_nonneg 2 (Z.of_nat (S fuel))). lia. }
    exists (s +:+ String (digit_char (n mod 10)) EmptyString).
    rewrite Hs. rewrite <- string_app_assoc. split; [done|].
    split; [by destruct s|].
    rewrite all_digits_app, Hall, digits_value_app, Hval.
    cbn [all_digits digits_value]. rewrite Hd, Hv.
    split; [done|]. pose proof (Z.div_mod n 10). lia.
Qed.

Lemma decimal_spec n :
  0 ≤ n →
  nonempty (decimal n) = true ∧ all_digits (decimal n) = true ∧
  digits_value (decimal n) 0 = n.
Proof.
  intros Hn. unfold decimal.
  destruct (digits_from_spec (Z.to_nat (Z.log2 n)) n EmptyString)
    as (s & -> & ? & ? & ?).
  - rewrite Nat2Z.inj_succ, Z2Nat.id by apply Z.log2_nonneg.
    destruct (decide (n = 0)) as [->|]; [done|].
    pose proof (Z.log2_spec n). lia.
  - by rewrite string_app_nil_r.
Qed.

Lemma leading_not_minus c s :
  c ≠ "-"%char →
  is_integer_literal (String c s) = all_digits (String c s) ∧
  parseInt (String c s) = digits_value (String c s) 0.
Proof.
  destruct c as [[] [] [] [] [] [] [] []]; intros Hne;
    first [split; reflexivity | by destruct Hne].
Qed.

Lemma leading_digit c s :
  isDigit c = true →
  is_integer_literal (String c s) = all_digits (String c s) ∧
  parseInt (String c s) = digits_value (String c s) 0.
Proof. intros Hc. apply leading_not_minus. by intros ->. Qed.

Lemma Number_toString_spec z :
  is_integer_literal (Number_toString z) = true ∧
  parseInt (Number_toString z) = z ∧
  free_of isWhiteSpace (Number_toString z) = true.
Proof.
  unfold Number_toString. destruct (Z.ltb_spec z 0) as [Hneg|Hpos].
  - destruct (decimal_spec (- z)) as (Hne & Hall & Hval); [lia|].
    destruct (decimal (- z)) as [|c s]; [done|].
    split; [done|]. split.
    + change (parseInt (String "-" (String c s)))
        with (- digits_value (String c s) 0). lia.
    + destruct (all_digits_free _ Hall) as [Hf _].
      change (negb (isWhiteSpace "-") && free_of isWhiteSpace (String c s) = true).
      by rewrite Hf.
  - destruct (decimal_spec z) as (Hne & Hall & Hval); [lia|].
    destruct (decimal z) as [|c s]; [done|].
    pose proof Hall as [Hc _]%andb_prop.
    destruct (leading_digit c s Hc) as [-> ->].
    split; [done|]. split; [done|]. by destruct (all_digits_free _ Hall).
Qed.

Lemma pad_onto_spec k n acc :
  ∃ s, pad_onto k n acc = s +:+ acc ∧ String.length s = k ∧
       all_digits s = true ∧
       ∀ a, digits_value s a = a * 10 ^ Z.of_nat k + n mod 10 ^ Z.of_nat k.
Proof.
  revert n acc. induction k as [|k IH]; intros n acc.
  - exists EmptyString. split; [done|]. split; [done|]. split; [done|].
    intros a. simpl. rewrite Z.mod_1_r. lia.
  - simpl pad_onto.
    destruct (IH (n / 10) (String (digit_char (n mod 10)) acc)) as (s & -> & Hlen & Hall & Hval).
    destruct (digit_char_spec (n mod 10)) as [Hd Hv].
    { apply Z.mod_pos_bound. lia. }
    exists (s +:+ String (digit_char (n mod 10)) EmptyString).
    rewrite <- string_app_assoc. split; [done|]. split.
    { rewrite <- Hlen. clear. induction s as [|c s IH]; [done|].
      rewrite string_app_cons. simpl. by rewrite IH. }
    rewrite all_digits_app, Hall. cbn [all_digits]. rewrite Hd. split; [done|].
    intros a. rewrite digits_value_app, Hval. cbn [digits_value]. rewrite Hv.
    rewrite Nat2Z.inj_succ, Z.pow_succ_r by lia.
    pose proof (Z.pow_pos_nonneg 10 (Z.of_nat k) ltac:(lia) ltac:(lia)) as Hpos.
    rewrite (Z.rem_mul_r n 10 (10 ^ Z.of_nat k)) by lia. lia.
Qed.

Lemma take_digits_app s rest a :
  all_digits s = true →
  take_digits (String.length s) (s +:+ rest) a = Some (digits_value s a, rest).
Proof.
  revert a. induction s as [|c s IH]; intros a Hs; [done|].
  simpl in Hs. apply andb_prop in Hs as [Hc Hs].
  rewrite string_app_cons. cbn [String.length take_digits digits_value].
  rewrite Hc. by apply IH.
Qed.

Lemma take_digits_pad k n rest :
  take_digits k (pad k n +:+ rest) 0 = Some (n mod 10 ^ Z.of_nat k, rest).
Proof.
  unfold pad. destruct (pad_onto_spec k n EmptyString) as (s & -> & Hlen & Hall & Hval).
  rewrite string_app_nil_r. rewrite <- Hlen at 1.
  rewrite take_digits_app by done. by rewrite Hval.
Qed.

Lemma pad_free k n :
  free_of isWhiteSpace (pad k n) = true.
Proof.
  unfold pad. destruct (pad_onto_spec k n EmptyString) as (s & -> & _ & Hall & _).
  rewrite string_app_nil_r. by apply all_digits_free.
Qed.

(** ** Dates *)

Lemma all_from_spec n i f :
  all_from n i f = true → ∀ j, i ≤ j < i + Z.of_nat n → f j = true.
Proof.
  revert i. induction n as [|k IH]; intros i; simpl; [lia|].
  intros [Hi Hall]%andb_prop j Hj.
  destruct (decide (j = i)) as [->|]; [done|]. apply (IH (i + 1)); [done|lia].
Qed.

Lemma era_days_ok doe : 0 ≤ doe < 146097 → era_day_ok doe = true.
Proof.
  intros Hd. apply (all_from_spec (Z.to_nat 146097) 0); [by vm_compute|lia].
Qed.

Lemma civil_from_days_era day :
  civil_from_days day =
  let era := (day + 719468) / 146097 in
  let '(yoe, m, d) := civil_of_era_day ((day + 719468) mod 146097) in
  (yoe + era * 400 + (if m <=? 2 then 1 else 0), m, d).
Proof. reflexivity. Qed.

Lemma days_in_month_shift y era m :
  days_in_month (y + era * 400) m = days_in_month y m.
Proof.
  unfold days_in_month, is_leap_year.
  replace ((y + era * 400) mod 4) with (y mod 4)
    by (rewrite <- (Z.mod_add y (era * 100) 4) by lia; f_equal; lia).
  replace ((y + era * 400) mod 100) with (y mod 100)
    by (rewrite <- (Z.mod_add y (era * 4) 100) by lia; f_equal; lia).
  replace ((y + era * 400) mod 400) with (y mod 400)
    by (rewrite <- (Z.mod_add y era 400) by lia; f_equal; lia).
  done.
Qed.

(** Every day number is the day of a valid date, and [MakeDay] takes
    that date back to the day number. *)
Lemma civil_from_days_spec day :
  let '(y, m, d) := civil_from_days day in
  1 ≤ m ≤ 12 ∧ 1 ≤ d ≤ days_in_month y m ∧ days_from_civil y m d = day.
Proof.
  rewrite civil_from_days_era. cbv zeta.
  pose proof (Z.mod_pos_bound (day + 719468) 146097 ltac:(lia)) as Hdoe.
  pose proof (era_days_ok _ Hdoe) as Hok. unfold era_day_ok in Hok.
  destruct (civil_of_era_day _) as [[yoe m] d].
  repeat (apply andb_prop in Hok as [Hok ?]).
  set (era := (day + 719468) / 146097).
  split; [lia|]. split.
  - replace (yoe + era * 400 + (if m <=? 2 then 1 else 0))
      with (yoe + (if m <=? 2 then 1 else 0) + era * 400) by lia.
    rewrite days_in_month_shift. lia.
  - unfold days_from_civil.
    replace (if m <=? 2 then yoe + era * 400 + (if m <=? 2 then 1 else 0) - 1
             else yoe + era * 400 + (if m <=? 2 then 1 else 0))
      with (yoe + era * 400) by (destruct (m <=? 2); lia).
    rewrite Z.div_add, Z.mod_add by lia.
    rewrite Z.div_small, Z.mod_small by lia.
    unfold era_day_of_civil in *.
    pose proof (Z.div_mod (day + 719468) 146097 ltac:(lia)). unfold era. lia.
Qed.

Lemma toISOString_free t : free_of isWhiteSpace (toISOString t) = true.
Proof.
  unfold toISOString. destruct (civil_from_days _) as [[y m] d].
  destruct ((0 <=? y) && (y <=? 9999)).
  - by rewrite !free_of_app, !pad_free.
  - rewrite !free_of_app. cbn [free_of]. rewrite !pad_free.
    by destruct (y <? 0).
Qed.

Lemma toISOString_nonempty t : nonempty (toISOString t) = true.
Proof.
  unfold toISOString. destruct (civil_from_days _) as [[y m] d].
  destruct ((0 <=? y) && (y <=? 9999)); [|done].
  unfold pad. by destruct (pad_onto_spec 4 y EmptyString) as ([|c s] & -> & ? & _).
Qed.

Lemma expect_app c x : expect c (String c EmptyString +:+ x) = Some x.
Proof. rewrite string_app_cons. simpl. by rewrite Ascii.eqb_refl. Qed.

(** Reading back what [toISOString] writes gives the time value, for
    the years that are written with four digits. *)
Lemma parse_iso_toISOString t :
  parse_iso (toISOString t) =
  if (0 <=? year_of t) && (year_of t <=? 9999) then Some t else None.
Proof.
  unfold toISOString, year_of.
  pose proof (civil_from_days_spec (t / msPerDay)) as Hc.
  destruct (civil_from_days (t / msPerDay)) as [[y m] d]. simpl.
  destruct Hc as (Hm & Hd & Hday).
  destruct ((0 <=? y) && (y <=? 9999)) eqn:Hy.
  - apply andb_prop in Hy as [Hy1%Z.leb_le Hy2%Z.leb_le].
    pose proof (Z.mod_pos_bound t msPerDay ltac:(done)) as Hr.
    set (r := t mod msPerDay) in *.
    unfold parse_iso.
    assert (days_in_month y m ≤ 31) as Hdim.
    { unfold days_in_month. repeat case_match; lia. }
    repeat (rewrite take_digits_pad; cbn [mbind option_bind];
            first [rewrite expect_app; cbn [mbind option_bind]|idtac]).
    change (expect "Z" "Z") with (Some EmptyString). cbn [mbind option_bind].
    change (10 ^ Z.of_nat 4) with 10000. change (10 ^ Z.of_nat 2) with 100.
    change (10 ^ Z.of_nat 3) with 1000.
    unfold msPerDay in *.
    rewrite (Z.mod_small y), (Z.mod_small m), (Z.mod_small d) by lia.
    rewrite (Z.mod_small (r / 3600000)) by (split; [apply Z.div_pos; lia|apply Z.div_lt_upper_bound; lia]).
    rewrite (Z.mod_small (r / 60000 mod 60)) by (pose proof (Z.mod_pos_bound (r / 60000) 60); lia).
    rewrite (Z.mod_small (r / 1000 mod 60)) by (pose proof (Z.mod_pos_bound (r / 1000) 60); lia).
    rewrite (Z.mod_small (r mod 1000)) by (pose proof (Z.mod_pos_bound r 1000); lia).
    rewrite Hday.
    assert (r / 3600000 ≤ 23) by (apply Z.lt_succ_r, Z.div_lt_upper_bound; lia).
    pose proof (Z.mod_pos_bound (r / 60000) 60 ltac:(lia)).
    pose proof (Z.mod_pos_bound (r / 1000) 60 ltac:(lia)).
    repeat match goal with
    | |- context [?a <=? ?b] => rewrite (proj2 (Z.leb_le a b)) by lia
    end.
    cbn [andb]. f_equal. unfold r.
    Z.to_euclidean_division_equations. lia.
  - unfold parse_iso.
    assert (∀ c rest, isDigit c = false →
            take_digits 4 (String c rest) 0 = None) as Hno.
    { intros c rest Hc. simpl. by rewrite Hc. }
    rewrite string_app_cons.
    rewrite Hno by (by destruct (y <? 0)). done.
Qed.

Lemma parse_iso_toISOString_Some t t' :
  parse_iso (toISOString t) = Some t' → t' = t.
Proof.
  rewrite parse_iso_toISOString. destruct (_ && _); [|done]. by intros [= ->].
Qed.

(** ** Selection of a checkpoint *)

Lemma sort_insert_perm {A} (cmp : A -> A -> number) x l :
  sort_insert cmp x l ≡ₚ x :: l.
Proof.
  induction l as [|y l IH]; simpl; [done|].
  destruct (positive_result (cmp x y)); [|done].
  rewrite IH. apply Permutation_swap.
Qed.

Lemma sort_perm {A} (cmp : A -> A -> number) l : sort cmp l ≡ₚ l.
Proof.
  induction l as [|x l IH]; simpl; [done|].
  by rewrite sort_insert_perm, IH.
Qed.

Lemma not_later_trans a b c : not_later a b → not_later b c → not_later a c.
Proof.
  unfold not_later, ge. destruct (timestamp a), (timestamp b), (timestamp c); try done.
  intros ?%Z.leb_le ?%Z.leb_le. apply Z.leb_le. lia.
Qed.

Lemma sort_insert_ascending x l :
  timed x → Forall timed l → StronglySorted not_later l →
  StronglySorted not_later (sort_insert ascending x l).
Proof.
  intros [zx Hx] Hl Hs. induction Hs as [|y l Hs IH Hy]; simpl.
  - repeat constructor.
  - apply Forall_cons in Hl as [[zy Hy'] Hl].
    unfold ascending at 1. rewrite Hx, Hy'. simpl.
    destruct (0 <? zx - zy) eqn:E.
    + constructor; [by apply IH|].
      rewrite sort_insert_perm. constructor; [|done].
      unfold not_later, ge. rewrite Hx, Hy'. apply Z.leb_le. apply Z.ltb_lt in E. lia.
    + apply Z.ltb_ge in E.
      assert (not_later x y) as Hxy.
      { unfold not_later, ge. rewrite Hx, Hy'. apply Z.leb_le. lia. }
      constructor; [by constructor|].
      constructor; [done|].
      eapply Forall_impl; [exact Hy|]. intros c Hc. by eapply not_later_trans.
Qed.

Lemma sort_ascending l :
  Forall timed l → StronglySorted not_later (sort ascending l).
Proof.
  induction l as [|x l IH]; simpl; intros Hl; [constructor|].
  apply Forall_cons in Hl as [Hx Hl].
  apply sort_insert_ascending; [done| |by apply IH].
  by rewrite sort_perm.
Qed.

Lemma ge_timed a t : ge (timestamp a) t = true → timed a.
Proof. unfold ge, timed. destruct (timestamp a); [eauto|done]. Qed.

Lemma elem_of_atOrAfter records t r :
  r ∈ checkpointsAtOrAfterTarget records t ↔
  r ∈ records ∧ ge (timestamp r) t = true.
Proof.
  unfold checkpointsAtOrAfterTarget, allCheckpoints.
  rewrite sort_perm, list_elem_of_filter, sort_perm. tauto.
Qed.

Lemma atOrAfter_sorted records t :
  StronglySorted not_later (checkpointsAtOrAfterTarget records t).
Proof.
  apply sort_ascending. apply Forall_forall. intros r Hr.
  apply list_elem_of_filter in Hr as [Hr _]. by eapply ge_timed.
Qed.

(** C3 (checkpoint selection).  The list the branch handler filters
    holds exactly the known records whose time is at or after the
    target.  The handler selects a known record at or after the target
    that no other such record precedes; when no record is at or after
    the target it selects nothing (it notifies, and does not fall back
    to the latest record).  For records captured at 100, 200 and 300,
    the target 150 selects the record of 200, the target 300 the
    record of 300, and the target 350 is not found. *)
Theorem C3_checkpoint_selection :
  (∀ records t r,
     r ∈ checkpointsAtOrAfterTarget records t ↔
     r ∈ records ∧ ge (timestamp r) t = true) ∧
  (∀ records t,
     match selectCheckpoint records t with
     | Selected r _ _ =>
         r ∈ records ∧ ge (timestamp r) t = true ∧
         ∀ r', r' ∈ records → ge (timestamp r') t = true →
               ge (timestamp r') (timestamp r) = true
     | NotFound =>
         records ≠ [] ∧ ∀ r, r ∈ records → ge (timestamp r) t = false
     | NoCheckpoints => records = []
     end) ∧
  (∀ a b c,
     let records := [at_time a 100; at_time b 200; at_time c 300] in
     selectCheckpoint records (Num 150)
       = Selected (at_time b 200) (at_time c 300) true ∧
     selectCheckpoint records (Num 300)
       = Selected (at_time c 300) (at_time c 300) true ∧
     selectCheckpoint records (Num 350) = NotFound).
Proof.
  split; [exact elem_of_atOrAfter|]. split; [|by intros a b c; vm_compute].
  intros records t. unfold selectCheckpoint.
  destruct (allCheckpoints records) as [|latest others] eqn:Hall.
  { apply Permutation_nil. by rewrite <- Hall; unfold allCheckpoints; rewrite sort_perm. }
  assert (records ≠ []) as Hne.
  { intros ->. discriminate Hall. }
  pose proof (atOrAfter_sorted records t) as Hs.
  pose proof (elem_of_atOrAfter records t) as Hin.
  destruct (checkpointsAtOrAfterTarget records t) as [|r rest].
  - split; [done|]. intros r Hr. destruct (ge (timestamp r) t) eqn:E; [|done].
    exfalso. eapply not_elem_of_nil. apply Hin. eauto.
  - destruct (Hin r) as [[Hr Hge] _]; [left|].
    split; [done|]. split; [done|]. intros r' Hr' Hge'.
    assert (r' ∈ r :: rest) as Hmem by (apply Hin; auto).
    apply StronglySorted_inv in Hs as [_ Hall'].
    apply elem_of_cons in Hmem as [->|Hmem].
    + unfold ge in *. destruct (timestamp r); [|done]. apply Z.leb_le. lia.
    + rewrite Forall_forall in Hall'. by apply Hall'.
Qed.

(** ** The unborn head and the loading of a ref *)

Section Loading.
Context `{ObjectNames} `{Engine}.

Lemma getRepoRoot_spec cwd m :
  getRepoRoot cwd m =
  match repository m with
  | Some r => (m, Return (trim (toplevel r +:+ LF)))
  | None => (m, Throw "Command failed")
  end.
Proof.
  unfold getRepoRoot, bind, execAsync, run, fatal, ret.
  by destruct (repository m).
Qed.

(** C4 (unborn-head guard).  Restoring a record whose head is the
    sentinel of forty zeros fails and leaves the machine (files,
    index, refs, objects) as it was; inside a repository the failure
    is the unborn-head error, raised before the first of the four
    restore commands. *)
Theorem C4_unborn_head_guard cwd (r : CheckpointData) (m : machine) :
  headSha r = ZEROS →
  (∃ e, restoreCheckpoint cwd r m = (m, Throw e)) ∧
  (is_Some (repository m) →
   restoreCheckpoint cwd r m = (m, Throw unborn_head_error)).
Proof.
  intros Hz. unfold restoreCheckpoint, bind. rewrite getRepoRoot_spec, Hz.
  destruct (repository m) as [repo|]; simpl.
  - split; [eexists|intros _]; reflexivity.
  - split; [eexists; reflexivity|]. by intros [? ?].
Qed.

Lemma loadCheckpointFromRef_spec cwd refName m :
  loadCheckpointFromRef cwd refName m =
  (m, Return (commit_text_of m refName ≫= record_of_text refName)).
Proof.
  unfold loadCheckpointFromRef, try_catch, bind at 1. rewrite getRepoRoot_spec.
  unfold commit_text_of, bind, execAsync, run, fatal, ret.
  destruct (repository m) as [r|] eqn:Hr; simpl; rewrite ?Hr; simpl; [|done].
  destruct (refs r !! _) as [sha|]; simpl; rewrite ?Hr; simpl; [|done].
  destruct (commits r !! _) as [c|]; simpl; [|done].
  unfold record_of_text.
  destruct (match_key "sessionId" _); simpl; [|done].
  destruct (match_int "turn" _); simpl; [|done].
  destruct (match_key "head" _); simpl; [|done].
  destruct (match_key "index-tree" _); simpl; [|done].
  by destruct (match_key "worktree-tree" _).
Qed.

(** C10 (loading degrades gracefully).  [loadCheckpointFromRef] always
    returns and changes nothing.  It returns null when the repository,
    the ref or the commit cannot be read and when the commit text
    lacks the sessionId, turn, head, index-tree or worktree-tree line;
    when these five lines are there and only the created line is
    missing it returns a record whose timestamp is 0. *)
Theorem C10_load_degrades cwd refName m :
  (∃ v, loadCheckpointFromRef cwd refName m = (m, Return v)) ∧
  (commit_text_of m refName = None →
   loadCheckpointFromRef cwd refName m = (m, Return None)) ∧
  (∀ text, commit_text_of m refName = Some text →
     ¬ has_line "sessionId" text ∨ ¬ has_int_line "turn" text ∨
     ¬ has_line "head" text ∨ ¬ has_line "index-tree" text ∨
     ¬ has_line "worktree-tree" text →
     loadCheckpointFromRef cwd refName m = (m, Return None)) ∧
  (∀ text, commit_text_of m refName = Some text →
     has_line "sessionId" text → has_int_line "turn" text →
     has_line "head" text → has_line "index-tree" text →
     has_line "worktree-tree" text → ¬ has_line "created" text →
     ∃ d, loadCheckpointFromRef cwd refName m = (m, Return (Some d)) ∧
          id d = refName ∧ timestamp d = Num 0).
Proof.
  rewrite loadCheckpointFromRef_spec. split; [eauto|]. split; [by intros ->|].
  split.
  - intros text -> Hlack. simpl. unfold record_of_text.
    destruct Hlack as [Hl|[Hl|[Hl|[Hl|Hl]]]];
      [apply match_key_None in Hl|apply match_int_None in Hl
      |apply match_key_None in Hl..]; rewrite Hl; simpl; try done;
      repeat (match goal with |- context [?o ≫= _] => destruct o; simpl; try done end).
  - intros text -> Hs Ht Hh Hi Hw Hc. simpl. unfold record_of_text.
    apply match_key_None in Hc. rewrite Hc.
    destruct (match_key "sessionId" text) eqn:E1;
      [|by apply match_key_None in E1].
    destruct (match_int "turn" text) eqn:E2;
      [|by apply match_int_None in E2].
    destruct (match_key "head" text) eqn:E3;
      [|by apply match_key_None in E3].
    destruct (match_key "index-tree" text) eqn:E4;
      [|by apply match_key_None in E4].
    destruct (match_key "worktree-tree" text) eqn:E5;
      [|by apply match_key_None in E5].
    simpl. eexists. split; [reflexivity|]. done.
Qed.

End Loading.

Lemma bad_ref_char_free s : has_bad_ref_char s = false → free_of is_LF s = true.
Proof.
  induction s as [|c s IH]; simpl; [done|].
  intros [Hc Hs]%orb_false_elim. rewrite IH by done.
  rewrite andb_true_r. apply negb_true_iff. unfold is_LF.
  destruct (Ascii.eqb_spec c "010") as [->|]; [|done].
  by vm_compute in Hc.
Qed.

Lemma check_ref_format_line name :
  check_ref_format name = true →
  nonempty name = true ∧ free_of is_LF name = true.
Proof.
  unfold check_ref_format. rewrite !andb_true_iff, !negb_true_iff.
  intros [[[[Hbad Hcomp] _] _] _]. split; [|by apply bad_ref_char_free].
  destruct name; [by vm_compute in Hcomp|reflexivity].
Qed.

#[local] Instance ref_order_total : Total ref_order.
Proof.
  intros [ka na] [kb nb]. unfold ref_order. simpl.
  destruct (Z.lt_trichotomy ka kb) as [?|[->|?]]; [left; by left| |right; by left].
  destruct (total String.le na nb); [left|right]; by right.
Qed.

#[local] Instance ref_order_trans : Transitive ref_order.
Proof.
  intros [ka na] [kb nb] [kc nc]. unfold ref_order. simpl.
  intros [?|[-> Hab]] [?|[-> Hbc]]; [left; lia|by left|by left|].
  right. split; [done|]. by etrans.
Qed.

Lemma sort_keys_Some r by_date l :
  Forall (fun kv => is_Some (committerdate r kv.2)) l →
  ∃ ks, sort_keys r by_date l = Some ks ∧ ks.*2 = l.*1 ∧
        (by_date = true → ∀ k name, (k, name) ∈ ks →
           ∃ sha, (name, sha) ∈ l ∧ committerdate r sha = Some k).
Proof.
  induction 1 as [|[name sha] l [k Hk] _ (ks & Hks & Hnames & Hdates)]; simpl.
  - exists []. split; [done|]. split; [done|]. by intros _ k name ?%not_elem_of_nil.
  - simpl in Hk. rewrite Hks. simpl.
    destruct by_date; simpl.
    + rewrite Hk. simpl. eexists. split; [done|]. split; [simpl; by f_equal|].
      intros _ k' name' [[= -> ->]|Hin]%elem_of_cons.
      * exists sha. split; [by left|done].
      * destruct (Hdates eq_refl _ _ Hin) as (sha' & ? & ?). exists sha'. split; [by right|done].
    + eexists. split; [done|]. split; [simpl; by f_equal|]. done.
Qed.

Lemma without_lookup L l f name :
  without L l f !! name =
  if decide (name ∈ l ∧ name ∉ L) then None else f !! name.
Proof.
  revert f. induction l as [|x l IH]; intros f.
  - destruct (decide _) as [[?%not_elem_of_nil _]|]; done.
  - change (without L (x :: l) f)
      with (without L l (if decide (x ∉ L) then delete x f else f)).
    rewrite IH.
    destruct (decide (name ∈ l ∧ name ∉ L)) as [[? ?]|Hn];
      destruct (decide (name ∈ x :: l ∧ name ∉ L)) as [[Hin ?]|Hn']; try done.
    + destruct Hn'. split; [by right|done].
    + apply elem_of_cons in Hin as [->|?]; [|by destruct Hn].
      rewrite decide_True by done. apply lookup_delete_eq.
    + destruct (decide (x ∉ L)); [|done].
      apply lookup_delete_ne. intros ->. apply Hn'. split; [by left|done].
Qed.

Lemma set_repository_id m r : repository m = Some r → set_repository r m = m.
Proof. destruct m; simpl; by intros ->. Qed.

Lemma set_refs_id r : set_refs (refs r) r = r.
Proof. by destruct r. Qed.

Section Prune.
Context `{ObjectNames}.

Lemma delete_refs_spec l m r :
  repository m = Some r →
  delete_refs l m =
  (set_repository (set_refs (without (locked r) l (refs r)) r) m, Return tt).
Proof.
  revert m r. induction l as [|x l IH]; intros m r Hr.
  - simpl. unfold ret. by rewrite set_refs_id, set_repository_id.
  - change (without (locked r) (x :: l) (refs r))
      with (without (locked r) l
              (if decide (x ∉ locked r) then delete x (refs r) else refs r)).
    simpl. unfold bind, try_catch, execAsync, run, fatal, ret at 1 2. rewrite Hr.
    destruct (decide (x ∉ locked r)) as [Hx|Hx].
    + rewrite bool_decide_eq_true_2 by done.
      erewrite IH by reflexivity. by destruct m.
    + rewrite bool_decide_eq_false_2 by done.
      by erewrite IH by done.
Qed.

Lemma pruneCheckpoints_total cwd m : ∃ m', pruneCheckpoints cwd m = (m', Return tt).
Proof.
  unfold pruneCheckpoints, try_catch.
  destruct (bind _ _ m) as [m' [[]|e]]; eauto.
Qed.

Lemma for_each_ref_valid r by_date pattern :
  valid_refs r →
  ∃ ks, sort_keys r by_date (listed_refs r pattern) = Some ks ∧
        for_each_ref r by_date pattern = Some (merge_sort ref_order ks).*2 ∧
        ks.*2 = (listed_refs r pattern).*1 ∧
        (by_date = true → ∀ k name, (k, name) ∈ ks → ref_date r name = Some k).
Proof.
  intros Hv.
  destruct (sort_keys_Some r by_date (listed_refs r pattern)) as (ks & Hks & Hn & Hd).
  { apply Forall_forall. intros [name sha] [_ Hin%elem_of_map_to_list]%list_elem_of_filter.
    destruct (Hv _ _ Hin) as [_ [[c Hc]|[t Ht]]]; unfold committerdate; simpl.
    - by rewrite Hc.
    - rewrite Ht. by destruct (commits r !! sha). }
  exists ks. split; [done|]. unfold for_each_ref. rewrite Hks. split; [done|].
  split; [done|]. intros Hb k name Hin.
  destruct (Hd Hb k name Hin) as (sha & [_ Hsha%elem_of_map_to_list]%list_elem_of_filter & Hk).
  unfold ref_date. simpl in Hsha. by rewrite Hsha.
Qed.

Lemma listed_refs_valid r pattern :
  valid_refs r →
  Forall (fun n => nonempty n = true ∧ free_of is_LF n = true)
         (listed_refs r pattern).*1.
Proof.
  intros Hv. apply Forall_fmap, Forall_forall.
  intros [name sha] [_ Hin%elem_of_map_to_list]%list_elem_of_filter.
  apply check_ref_format_line, (Hv _ _ Hin).
Qed.

Lemma pruneCheckpoints_spec cwd m r listing :
  repository m = Some r → valid_refs r →
  for_each_ref r true checkpoint_prefix = Some listing →
  pruneCheckpoints cwd m =
  (set_repository
     (set_refs (without (locked r)
                  (take (length listing - MAX_CHECKPOINTS) listing) (refs r)) r) m,
   Return tt).
Proof.
  intros Hr Hv Hl.
  unfold pruneCheckpoints, try_catch, bind at 1. rewrite getRepoRoot_spec, Hr.
  unfold bind, execAsync, run. rewrite Hr.
  change (REF_BASE +:+ "/") with checkpoint_prefix. rewrite Hl.
  rewrite split_listing.
  2:{ destruct (for_each_ref_valid r true checkpoint_prefix Hv)
        as (ks & _ & Hl' & Hn & _).
      rewrite Hl in Hl'. injection Hl' as ->.
      assert ((merge_sort ref_order ks).*2 ≡ₚ (listed_refs r checkpoint_prefix).*1)
        as -> by (rewrite <- Hn; apply fmap_Permutation, merge_sort_Permutation).
      by apply listed_refs_valid. }
  destruct (length listing <=? MAX_CHECKPOINTS)%nat eqn:E.
  - apply Nat.leb_le in E.
    replace (length listing - MAX_CHECKPOINTS)%nat with 0%nat by lia.
    simpl. unfold ret. by rewrite set_refs_id, set_repository_id.
  - by rewrite (delete_refs_spec _ _ r Hr).
Qed.

End Prune.

Lemma elem_of_checkpoint_refs r name :
  name ∈ checkpoint_refs r ↔
  is_Some (refs r !! name) ∧ startsWith name checkpoint_prefix = true.
Proof.
  unfold checkpoint_refs, listed_refs. rewrite list_elem_of_fmap. split.
  - intros ([n sha] & -> & [Hp Hin%elem_of_map_to_list]%list_elem_of_filter).
    simpl in *. eauto.
  - intros [[sha Hsha] Hp]. exists (name, sha). split; [done|].
    apply list_elem_of_filter. split; [done|]. by apply elem_of_map_to_list.
Qed.

Lemma NoDup_checkpoint_refs r : NoDup (checkpoint_refs r).
Proof.
  unfold checkpoint_refs, listed_refs.
  pose proof (NoDup_fst_map_to_list (refs r)) as Hnd.
  induction (map_to_list (refs r)) as [|[n sha] l IH]; [constructor|].
  simpl in Hnd. apply NoDup_cons in Hnd as [Hn Hnd].
  rewrite filter_cons. destruct (decide _); [|by apply IH].
  simpl. apply NoDup_cons. split; [|by apply IH].
  intros ([n' sha'] & -> & [_ Hin]%list_elem_of_filter)%list_elem_of_fmap.
  apply Hn. apply list_elem_of_fmap. by exists (n', sha').
Qed.

Section Retention.
Context `{ObjectNames}.

(** C5 (retention bound).  [pruneCheckpoints] never throws.  In a
    repository whose refs are well formed, with [listing] the refs of
    the checkpoint namespace by ascending commit time: when there are
    more than [MAX_CHECKPOINTS] of them, prune deletes the first
    [length listing - MAX_CHECKPOINTS] of the listing, which are the
    oldest by commit time, except those whose deletion fails (a
    failed deletion does not stop the others), and touches nothing
    else; when every deletion succeeds exactly the [MAX_CHECKPOINTS]
    latest refs remain; when there are at most [MAX_CHECKPOINTS] refs
    nothing is deleted. *)
Theorem C5_retention_bound :
  (∀ cwd m, ∃ m', pruneCheckpoints cwd m = (m', Return tt)) ∧
  (∀ cwd m r, repository m = Some r → valid_refs r →
     ∃ listing r',
       for_each_ref r true checkpoint_prefix = Some listing ∧
       listing ≡ₚ checkpoint_refs r ∧
       pruneCheckpoints cwd m = (set_repository r' m, Return tt) ∧
       r' = set_refs (refs r') r ∧
       let surplus := take (length listing - MAX_CHECKPOINTS) listing in
       let kept := drop (length listing - MAX_CHECKPOINTS) listing in
       (∀ d k, d ∈ surplus → k ∈ kept →
          ∃ td tk, ref_date r d = Some td ∧ ref_date r k = Some tk ∧ td ≤ tk) ∧
       (∀ name, refs r' !! name =
                if decide (name ∈ surplus ∧ name ∉ locked r) then None
                else refs r !! name) ∧
       ((length listing ≤ MAX_CHECKPOINTS)%nat → r' = r) ∧
       ((MAX_CHECKPOINTS < length listing)%nat →
          length surplus = (length listing - MAX_CHECKPOINTS)%nat ∧
          length kept = MAX_CHECKPOINTS) ∧
       ((∀ d, d ∈ surplus → d ∉ locked r) → checkpoint_refs r' ≡ₚ kept)).
Proof.
  split; [apply pruneCheckpoints_total|].
  intros cwd m r Hr Hv.
  destruct (for_each_ref_valid r true checkpoint_prefix Hv)
    as (ks & _ & Hl & Hn & Hd).
  set (sorted := merge_sort ref_order ks) in *.
  set (listing := sorted.*2) in *.
  set (n := (length listing - MAX_CHECKPOINTS)%nat).
  assert (listing ≡ₚ checkpoint_refs r) as Hperm.
  { unfold listing, sorted, checkpoint_refs. rewrite <- Hn.
    apply fmap_Permutation, merge_sort_Permutation. }
  assert (NoDup listing) as Hnd by (rewrite Hperm; apply NoDup_checkpoint_refs).
  exists listing, (set_refs (without (locked r) (take n listing) (refs r)) r).
  split; [done|]. split; [done|].
  split; [by apply pruneCheckpoints_spec|]. split; [by destruct r|].
  split; [|split; [|split; [|split]]].
  - intros d k Hd' Hk.
    assert (StronglySorted ref_order (take n sorted ++ drop n sorted)) as Hs.
    { rewrite take_drop. apply StronglySorted_merge_sort; apply _. }
    fold n in Hd', Hk. unfold listing in Hd', Hk.
    rewrite <- fmap_take in Hd'. rewrite <- fmap_drop in Hk.
    apply list_elem_of_fmap in Hd' as ([td d'] & -> & Hd').
    apply list_elem_of_fmap in Hk as ([tk k'] & -> & Hk).
    exists td, tk. simpl.
    assert (∀ x, x ∈ sorted → x ∈ ks) as Hmem.
    { intros x. unfold sorted. by rewrite merge_sort_Permutation. }
    split; [by eapply (Hd eq_refl), Hmem, subseteq_take|].
    split; [by eapply (Hd eq_refl), Hmem, subseteq_drop|].
    pose proof (StronglySorted_app_1_elem_of _ _ _ _ _ Hs Hd' Hk) as [?|[? _]];
      simpl in *; lia.
  - intros name. apply without_lookup.
  - intros Hle. replace n with 0%nat by (unfold n; lia). simpl.
    apply set_refs_id.
  - intros Hlt. fold n. rewrite length_take, length_drop. unfold n. lia.
  - intros Hunlocked. fold n. apply NoDup_Permutation.
    + apply NoDup_checkpoint_refs.
    + rewrite <- (take_drop n listing) in Hnd. by apply NoDup_app in Hnd as (_ & _ & ?).
    + intros name. rewrite elem_of_checkpoint_refs. simpl. rewrite without_lookup.
      rewrite <- (take_drop n listing) in Hnd. apply NoDup_app in Hnd as (_ & Hdisj & _).
      split.
      * destruct (decide _) as [|Hno]; [by intros [[? [=]] _]|].
        intros Hin. apply elem_of_checkpoint_refs in Hin.
        rewrite <- Hperm, <- (take_drop n listing) in Hin.
        apply elem_of_app in Hin as [Hin|Hin]; [|done].
        destruct Hno. split; [done|by apply Hunlocked].
      * intros Hin. rewrite decide_False.
        -- apply elem_of_checkpoint_refs. rewrite <- Hperm. by eapply subseteq_drop.
        -- intros [Hin' _]. by eapply Hdisj.
Qed.

End Retention.

(** ** Capture *)

Lemma rm_lookup dir m file :
  startsWith file (dir +:+ "/") = true → tmp_index (rm dir m) !! file = None.
Proof.
  intros Hs. unfold rm. simpl. apply map_lookup_filter_None. right.
  intros t _. simpl. by rewrite Hs.
Qed.

Lemma bind_Return {S A B : Type} (c : M S A) (k : A → M S B) s s' a :
  c s = (s', Return a) → bind c k s = k a s'.
Proof. unfold bind. by intros ->. Qed.

Lemma bind_Throw {S A B : Type} (c : M S A) (k : A → M S B) s s' e :
  c s = (s', Throw e) → bind c k s = (s', Throw e).
Proof. unfold bind. by intros ->. Qed.

Lemma add_all_empty r : add_all r ∅ = captured_files r.
Proof.
  unfold add_all, captured_files. apply map_filter_ext.
  intros p b _. simpl. rewrite lookup_empty. split; [|by left].
  by intros [?|[? [=]]].
Qed.

Section Capture.

Context `{PlainNames}.

Lemma createCheckpoint_spec cwd id turn sid now m r :
  repository m = Some r →
  ∃ m', createCheckpoint cwd id turn sid now m =
          (m', if capture_accepted r id now
               then Return (captured_record r id sid turn now)
               else Throw "Command failed") ∧
        (capture_accepted r id now = true →
         ∃ ms, parse_iso (toISOString now) = Some ms ∧
               repository m' = Some (captured_repo r id sid turn now ms)).
Proof.
  intros Hr. unfold createCheckpoint, capture_accepted.
  erewrite bind_Return by (rewrite getRepoRoot_spec, Hr; reflexivity).
  erewrite (bind_Return _ _ m m (captured_head r)).
  2:{ unfold try_catch, bind, execAsync, run, captured_head. rewrite Hr.
      by destruct (head r). }
  erewrite bind_Return by (unfold execAsync, run; rewrite Hr; reflexivity).
  rewrite trim_line by apply tree_name_plain. simpl index_of.
  erewrite bind_Return by reflexivity.
  set (dir := "/tmp/pi-checkpoint-" +:+ _).
  unfold try_finally.
  erewrite bind_Return by reflexivity.
  unfold with_index, index_of.
  rewrite rm_lookup by apply startsWith_index. simpl default.
  rewrite add_all_empty.
  erewrite bind_Return.
  2:{ unfold execAsync, run. simpl repository. unfold index_of. simpl tmp_index.
      rewrite lookup_insert_eq. simpl default. reflexivity. }
  rewrite trim_line by apply tree_name_plain.
  change (captured_files (set_trees _ r)) with (captured_files r).
  unfold bind at 1, execAsync at 1, run at 1. simpl repository.
  cbv beta iota. simpl trees.
  rewrite lookup_insert_eq.
  unfold ident_time. simpl i_date.
  destruct (parse_iso (toISOString now)) as [ms|] eqn:Hms; simpl;
    [|eexists; split; [reflexivity|done]].
  rewrite trim_line by apply commit_name_plain.
  unfold bind at 1, execAsync at 1, run at 1. simpl repository.
  cbv beta iota. simpl commits.
  destruct (check_ref_format _) eqn:Href; simpl;
    [|eexists; split; [reflexivity|done]].
  destruct (bool_decide (_ ∉ _)) eqn:Hlock; simpl;
    [|eexists; split; [reflexivity|done]].
  rewrite bool_decide_eq_true_2.
  2:{ left. change (checkpoint_message _ _ _ _ _ _ _)
         with (c_message (checkpoint_commit r id sid turn now (ms / 1000))).
      fold (checkpoint_commit r id sid turn now (ms / 1000)).
      rewrite lookup_insert_eq. eauto. }
  simpl. unfold ret. eexists. split; [reflexivity|].
  intros _. exists ms. split; [done|]. reflexivity.
Qed.

Lemma createCheckpoint_Return cwd id turn sid now m r m' d :
  repository m = Some r →
  createCheckpoint cwd id turn sid now m = (m', Return d) →
  ∃ ms,
    parse_iso (toISOString now) = Some ms ∧
    check_ref_format (REF_BASE +:+ "/" +:+ id) = true ∧
    d = captured_record r id sid turn now ∧
    repository m' = Some (captured_repo r id sid turn now ms).
Proof.
  intros Hr Hc. destruct (createCheckpoint_spec cwd id turn sid now m r Hr)
    as (m'' & Heq & Hok).
  rewrite Hc in Heq. destruct (capture_accepted r id now) eqn:Ha; [|by injection Heq].
  injection Heq as -> ->. destruct (Hok eq_refl) as (ms & Hms & Hr').
  exists ms. unfold capture_accepted in Ha.
  apply andb_prop in Ha as [[_ ?]%andb_prop _]. done.
Qed.


End Capture.

(** ** Restore *)

Lemma checkout_entries_lookup (t w : tree) (f : path) :
  checkout_entries t w !! f =
  match t !! f with
  | Some b => Some b
  | None => if decide (in_the_way t f) then None else w !! f
  end.
Proof.
  unfold checkout_entries. rewrite lookup_union.
  destruct (t !! f) as [b|] eqn:E; simpl.
  - by destruct (filter _ w !! f).
  - rewrite (left_id_L None _). destruct (decide (in_the_way t f)) as [Hw|Hw].
    + apply map_lookup_filter_None. right. intros b _ Hn. by apply Hn.
    + destruct (w !! f) as [b|] eqn:Ew.
      * by apply map_lookup_filter_Some.
      * apply map_lookup_filter_None. by left.
Qed.

Section Restore.
Context `{ObjectNames}.

(** The four commands of a restore, one after the other. *)
Lemma restoreCheckpoint_spec cwd rec m r :
  repository m = Some r → headSha rec ≠ ZEROS →
  restoreCheckpoint cwd rec m =
  match reset_hard (headSha rec) r with
  | None => (m, Throw "Command failed")
  | Some r1 =>
      match read_tree_reset (worktreeTreeSha rec) r1 with
      | None => (set_repository r1 m, Throw "Command failed")
      | Some r2 =>
          match read_tree_reset (indexTreeSha rec) (checkout_index r2) with
          | None => (set_repository (checkout_index r2) m, Throw "Command failed")
          | Some r4 => (set_repository r4 m, Return tt)
          end
      end
  end.
Proof.
  intros Hr Hz. unfold restoreCheckpoint, bind at 1. rewrite getRepoRoot_spec, Hr.
  apply String.eqb_neq in Hz. rewrite Hz.
  unfold bind, execAsync, run, fatal, ret. rewrite Hr.
  destruct (reset_hard _ r) as [r1|]; [|done]. simpl.
  destruct (read_tree_reset _ r1) as [r2|]; [|done]. simpl.
  destruct (read_tree_reset _ (checkout_index r2)) as [r4|]; by destruct m.
Qed.


Lemma restoreCheckpoint_unborn cwd rec m :
  headSha rec = ZEROS → (restoreCheckpoint cwd rec m).1 = m.
Proof.
  intros Hz. unfold restoreCheckpoint, bind. rewrite getRepoRoot_spec, Hz.
  by destruct (repository m).
Qed.

Lemma reset_hard_Some c r r1 :
  reset_hard c r = Some r1 →
  trees r1 = trees r ∧ commits r1 = commits r ∧
  worktree r1 = checkout_entries (commit_tree_at r c)
                  (filter (fun kv => index r !! kv.1 = None) (worktree r)).
Proof.
  unfold reset_hard, commit_tree_at.
  destruct (commits r !! c) as [co|]; simpl; [|done].
  destruct (trees r !! c_tree co) as [t|]; simpl; [|done].
  by intros [= <-].
Qed.

Lemma read_tree_reset_Some t r r2 :
  read_tree_reset t r = Some r2 →
  trees r2 = trees r ∧ worktree r2 = worktree r ∧ index r2 = tree_at r t.
Proof.
  unfold read_tree_reset, tree_at.
  destruct (trees r !! t) as [tr|]; simpl; [|done].
  by intros [= <-].
Qed.

(** C1 (non-destructive restore), with the conditions it needs.  A
    file of the working tree that is not an entry of the index when
    the restore starts (or is a file of the head commit of the
    record), and whose path is not in the way of a file of the head
    commit or of the working tree snapshot of the record, is still
    there after the restore, whether the restore succeeds or fails
    part-way; when it is a file of neither tree its content is
    unchanged. *)
Theorem C1_restore_keeps_untracked cwd rec m r f :
  repository m = Some r →
  is_Some (worktree r !! f) →
  index r !! f = None ∨ is_Some (commit_tree_at r (headSha rec) !! f) →
  ¬ in_the_way (commit_tree_at r (headSha rec)) f →
  ¬ in_the_way (tree_at r (worktreeTreeSha rec)) f →
  ∃ r', repository (restoreCheckpoint cwd rec m).1 = Some r' ∧
        is_Some (worktree r' !! f) ∧
        (tree_at r (worktreeTreeSha rec) !! f = None →
         commit_tree_at r (headSha rec) !! f = None →
         worktree r' !! f = worktree r !! f).
Proof.
  intros Hr Hf Huntracked Hhead Hsnap.
  destruct (decide (headSha rec = ZEROS)) as [Hz|Hz].
  { rewrite restoreCheckpoint_unborn by done. by exists r. }
  rewrite (restoreCheckpoint_spec _ _ _ r) by done.
  destruct (reset_hard _ r) as [r1|] eqn:E1; [|by exists r].
  apply reset_hard_Some in E1 as (Ht1 & _ & Hw1).
  assert (is_Some (worktree r1 !! f) ∧
          (commit_tree_at r (headSha rec) !! f = None →
           worktree r1 !! f = worktree r !! f)) as [Hf1 Heq1].
  { rewrite Hw1, checkout_entries_lookup.
    destruct (commit_tree_at r (headSha rec) !! f) as [b|] eqn:Eh; [by eauto|].
    rewrite decide_False by done.
    destruct Huntracked as [Hi|[? [=]]]. destruct Hf as [b Hb].
    rewrite (proj2 (map_lookup_filter_Some _ _ f b)) by done. rewrite Hb. eauto. }
  destruct (read_tree_reset _ r1) as [r2|] eqn:E2; [|exists r1; simpl; eauto].
  apply read_tree_reset_Some in E2 as (Ht2 & Hw2 & Hi2).
  assert (tree_at r1 (worktreeTreeSha rec) = tree_at r (worktreeTreeSha rec)) as Hsame.
  { unfold tree_at. by rewrite Ht1. }
  assert (is_Some (worktree (checkout_index r2) !! f) ∧
          (tree_at r (worktreeTreeSha rec) !! f = None →
           worktree (checkout_index r2) !! f = worktree r1 !! f)) as [Hf3 Heq3].
  { simpl. rewrite checkout_entries_lookup, Hi2, Hsame, Hw2.
    destruct (tree_at r (worktreeTreeSha rec) !! f) as [b|] eqn:Es; [by eauto|].
    by rewrite decide_False by done. }
  destruct (read_tree_reset _ (checkout_index r2)) as [r4|] eqn:E4.
  - apply read_tree_reset_Some in E4 as (_ & Hw4 & _).
    exists r4. simpl. rewrite Hw4. split; [done|]. split; [done|].
    intros ? ?. rewrite Heq3, Heq1; done.
  - exists (checkout_index r2). split; [done|]. split; [done|].
    intros ? ?. rewrite Heq3, Heq1; done.
Qed.

End Restore.

(** ** Persistence *)

Lemma bad_ref_char_one_line s : has_bad_ref_char s = false → one_line s.
Proof.
  unfold one_line. induction s as [|c s IH]; simpl; [done|].
  intros [Hc Hs]%orb_false_elim. rewrite IH by done.
  rewrite andb_true_r. apply negb_true_iff.
  destruct (isLineTerminator c) eqn:E; [|done].
  apply orb_prop in E as [->%Ascii.eqb_eq| ->%Ascii.eqb_eq]; by vm_compute in Hc.
Qed.

Lemma checkpoint_text_lines T A C id sid N H I W iso :
  one_line T → one_line A → one_line C → one_line id → one_line sid →
  one_line N → one_line H → one_line I → one_line W → one_line iso →
  lines (checkpoint_text T A C id sid N H I W iso) =
  [ "tree " +:+ T; "author " +:+ A; "committer " +:+ C; EmptyString;
    "checkpoint:" +:+ id; "sessionId " +:+ sid; "turn " +:+ N;
    "head " +:+ H; "index-tree " +:+ I; "worktree-tree " +:+ W;
    "created " +:+ iso ].
Proof.
  intros. unfold checkpoint_text.
  repeat (rewrite lines_cons; [f_equal|by (try apply one_line_app)]).
  apply lines_one. by apply one_line_app.
Qed.

Ltac find_field :=
  cbn [find_map];
  repeat match goal with
  | |- context [match_key_line ?k ?l] =>
      first [ change (match_key_line k l) with (@None string)
            | rewrite (match_key_line_hit k) by done ]
  | |- context [match_int_line ?k ?l] =>
      first [ change (match_int_line k l) with (@None string)
            | rewrite (match_int_line_hit k) by done ]
  end;
  reflexivity.

Lemma checkpoint_text_matches T A C id sid N H I W iso :
  one_line T → one_line A → one_line C → one_line id → one_line sid →
  one_line N → one_line H → one_line I → one_line W → one_line iso →
  nonempty sid = true → is_integer_literal N = true → nonempty H = true →
  nonempty I = true → nonempty W = true → nonempty iso = true →
  let text := checkpoint_text T A C id sid N H I W iso in
  match_key "sessionId" text = Some sid ∧ match_int "turn" text = Some N ∧
  match_key "head" text = Some H ∧ match_key "index-tree" text = Some I ∧
  match_key "worktree-tree" text = Some W ∧
  match_key "created" text = Some iso.
Proof.
  intros. unfold match_key, match_int. subst text.
  rewrite checkpoint_text_lines by done.
  change ("sessionId " +:+ sid) with ("sessionId" +:+ " " +:+ sid).
  change ("turn " +:+ N) with ("turn" +:+ " " +:+ N).
  change ("head " +:+ H) with ("head" +:+ " " +:+ H).
  change ("index-tree " +:+ I) with ("index-tree" +:+ " " +:+ I).
  change ("worktree-tree " +:+ W) with ("worktree-tree" +:+ " " +:+ W).
  change ("created " +:+ iso) with ("created" +:+ " " +:+ iso).
  repeat split; find_field.
Qed.

Lemma commit_text_checkpoint T A C secs id sid turn H I W iso :
  commit_text (mkCommit T [] A C secs
                 (checkpoint_message id sid turn H I W iso)) =
  checkpoint_text T A C id sid (Number_toString turn) H I W iso.
Proof.
  unfold commit_text, checkpoint_text, checkpoint_message.
  cbn [c_tree c_parents c_author c_committer c_message foldr join].
  rewrite <- !string_app_assoc. reflexivity.
Qed.

Section RoundTrip.

Context `{PlainNames} `{Engine}.

Lemma captured_head_plain r :
  (∀ h, head r = Some h → plain h) →
  plain (captured_head r) ∧ trim (captured_head r) = captured_head r.
Proof.
  intros Hh. unfold captured_head. destruct (head r) as [h|].
  - rewrite trim_line by auto. split; [auto|]. apply plain_trim. auto.
  - split; [by vm_compute|by vm_compute].
Qed.

(** C9 (persistence round trip), with the condition it needs.  When
    the session id is not empty, is on one line and has no white space
    around it, every record that [createCheckpoint] returns is read
    back by [loadCheckpointFromRef] from the ref of its id: the loaded
    record equals the returned one in all seven fields, the time stamp
    to the millisecond. *)
Theorem C9_persistence_round_trip cwd id turn sid now m r m' d :
  repository m = Some r →
  (∀ h, head r = Some h → plain h) →
  tidy sid →
  createCheckpoint cwd id turn sid now m = (m', Return d) →
  loadCheckpointFromRef cwd id m' = (m', Return (Some d)).
Proof.
  intros Hr Hhead (Hsid1 & Hsid2 & Hsid3) Hcreate.
  destruct (createCheckpoint_Return _ _ _ _ _ _ _ _ _ Hr Hcreate)
    as (ms & Hms & Href & -> & Hr').
  pose proof (parse_iso_toISOString_Some _ _ Hms) as ->.
  destruct (captured_head_plain r Hhead) as [Hhp Hht].
  rewrite loadCheckpointFromRef_spec. f_equal. f_equal.
  unfold commit_text_of. rewrite Hr'. simpl. rewrite lookup_insert_eq. simpl.
  rewrite trim_line by apply commit_name_plain.
  rewrite lookup_insert_eq. simpl.
  unfold checkpoint_commit. rewrite commit_text_checkpoint.
  destruct (Number_toString_spec turn) as (Hlit & Hparse & Hfree).
  edestruct (checkpoint_text_matches
               (tree_name (captured_files r))
               (ident_line (pi_checkpoint (toISOString now)) (now / 1000))
               (ident_line (pi_checkpoint (toISOString now)) (now / 1000))
               id sid (Number_toString turn) (captured_head r)
               (tree_name (index r)) (tree_name (captured_files r))
               (toISOString now))
    as (E1 & E2 & E3 & E4 & E5 & E6).
  all: try (apply plain_one_line, tree_name_plain).
  all: try (apply tree_name_plain).
  all: try done.
  1,2: unfold ident_line; cbn [i_name i_email pi_checkpoint];
       repeat (apply one_line_app; [by vm_compute|]);
       apply one_line_app; [|by vm_compute];
       apply free_of_space_line; by destruct (Number_toString_spec (now / 1000)) as (_ & _ & ?).
  - unfold check_ref_format in Href. rewrite !andb_true_iff, !negb_true_iff in Href.
    destruct Href as [[[[Hbad _] _] _] _].
    apply bad_ref_char_one_line in Hbad. unfold one_line in *.
    rewrite !free_of_app in Hbad. by repeat (apply andb_prop in Hbad as [_ Hbad]).
  - by apply free_of_space_line.
  - by apply plain_one_line.
  - apply free_of_space_line, toISOString_free.
  - apply Hhp.
  - apply toISOString_nonempty.
  - unfold record_of_text. rewrite E1, E2, E3, E4, E5, E6. simpl.
    rewrite Hparse, Hsid3, Hht, !plain_trim by apply tree_name_plain.
    rewrite trim_free by apply toISOString_free.
    unfold Date_parse. by rewrite Hms.
Qed.

End RoundTrip.
(** ** The hook *)

Import Hook.

#[local] Instance keeps_failed_preorder : PreOrder keeps_failed.
Proof. split; unfold keeps_failed; [by intros w|intros w1 w2 w3; auto]. Qed.

#[local] Instance keeps_records_preorder : PreOrder keeps_records.
Proof.
  split; unfold keeps_records.
  - by intros w.
  - intros w1 w2 w3 [-> H12] [-> H23]. auto.
Qed.

Section Respects.

Context (R : relation world) `{!PreOrder R}.

Lemma respects_ret {A} (a : A) : respects R (ret a).
Proof. by intros w. Qed.

Lemma respects_throw {A} e : respects R (throw (A:=A) e).
Proof. by intros w. Qed.

Lemma respects_gets {A} (f : world → A) : respects R (gets f).
Proof. by intros w. Qed.

Lemma respects_modify f : (∀ w, R w (f w)) → respects R (modify f).
Proof. intros Hf w. apply Hf. Qed.

Lemma respects_bind {A B} (c : M world A) (k : A → M world B) :
  respects R c → (∀ a, respects R (k a)) → respects R (bind c k).
Proof.
  intros Hc Hk w. unfold bind. specialize (Hc w).
  destruct (c w) as [w' [a|e]]; [|exact Hc]. etrans; [exact Hc|apply Hk].
Qed.

Lemma respects_try_catch {A} (c : M world A) h :
  respects R c → (∀ e, respects R (h e)) → respects R (try_catch c h).
Proof.
  intros Hc Hh w. unfold try_catch. specialize (Hc w).
  destruct (c w) as [w' [a|e]]; [exact Hc|]. etrans; [exact Hc|apply Hh].
Qed.

Lemma respects_on_machine {A} (c : M machine A) :
  (∀ w m, R w (set_machine m w)) → respects R (on_machine c).
Proof.
  intros Hm w. unfold on_machine. destruct (c (machine_of w)) as [m o]. apply Hm.
Qed.

End Respects.

Lemma keeps_failed_machine w m : keeps_failed w (set_machine m w).
Proof. by unfold keeps_failed. Qed.

Lemma keeps_records_machine w m : keeps_records w (set_machine m w).
Proof. by unfold keeps_records. Qed.

Lemma keeps_failed_emit a w : keeps_failed w (emit a w).
Proof. by unfold keeps_failed. Qed.

Lemma keeps_records_emit a w : keeps_records w (emit a w).
Proof. by unfold keeps_records. Qed.

Lemma keeps_failed_push d w : keeps_failed w (push_completed d w).
Proof. by unfold keeps_failed. Qed.

Lemma keeps_records_push d w : keeps_records w (push_completed d w).
Proof. split; [done|]. intros d' Hd'. simpl. apply elem_of_app. by left. Qed.

(** One step of a proof that a computation respects a relation. *)
Ltac respects_step :=
  lazymatch goal with
  | |- respects _ (ret _) => apply respects_ret; apply _
  | |- respects _ (throw _) => apply respects_throw; apply _
  | |- respects _ (gets _) => apply respects_gets; apply _
  | |- respects _ (bind _ _) => apply respects_bind; [apply _| |intros ?]
  | |- respects _ (try_catch _ _) =>
      apply respects_try_catch; [apply _| |intros ?]
  | |- respects _ (modify _) => apply respects_modify; intros ?
  | |- respects _ (notify _ _) => apply respects_modify; intros ?
  | |- respects _ (on_machine _) =>
      apply respects_on_machine;
      first [apply keeps_failed_machine | apply keeps_records_machine]
  | |- respects _ (match ?x with _ => _ end) => destruct x
  end.

Section Sessions.
Context `{ObjectNames} `{Engine}.

Lemma load_refs_failed cwd sid refs : respects keeps_failed (load_refs cwd sid refs).
Proof.
  induction refs as [|refName refs IH]; simpl; repeat respects_step; [|done].
  destruct a as [d|]; [|reflexivity].
  destruct (_ && _); [apply keeps_failed_push|reflexivity].
Qed.

Lemma load_refs_records cwd sid refs : respects keeps_records (load_refs cwd sid refs).
Proof.
  induction refs as [|refName refs IH]; simpl; repeat respects_step; [|done].
  destruct a as [d|]; [|reflexivity].
  destruct (_ && _); [apply keeps_records_push|reflexivity].
Qed.

Lemma loadCheckpointsForSession_failed cwd sid clear :
  respects keeps_failed (loadCheckpointsForSession cwd sid clear).
Proof.
  unfold loadCheckpointsForSession. repeat respects_step.
  - destruct clear; by unfold keeps_failed.
  - apply load_refs_failed.
Qed.

Lemma loadCheckpointsForSession_records cwd sid :
  respects keeps_records (loadCheckpointsForSession cwd sid false).
Proof.
  unfold loadCheckpointsForSession. repeat respects_step.
  - reflexivity.
  - apply load_refs_records.
Qed.

Lemma session_start_failed ctx : respects keeps_failed (session_start ctx).
Proof.
  unfold session_start.
  repeat respects_step; try (by unfold keeps_failed).
  apply loadCheckpointsForSession_failed.
Qed.

Lemma session_switch_failed e : respects keeps_failed (session_switch e).
Proof.
  unfold session_switch. repeat respects_step; by unfold keeps_failed.
Qed.

Lemma turn_start_spec e ctx w :
  ∃ w', turn_start e ctx w = (w', Return tt) ∧ machine_of w' = machine_of w ∧
        keeps_failed w w' ∧
        (checkpointingFailed (hook w) = true → w' = w).
Proof.
  unfold turn_start.
  destruct (checkpointingFailed (hook w)) eqn:Hf.
  { rewrite orb_true_r. by exists w. }
  destruct (negb (gitAvailable (hook w))); simpl.
  { exists w. unfold keeps_failed. by rewrite Hf. }
  match goal with |- context [if negb (nonempty (currentSessionId (hook ?x))) then _ else _] =>
    set (w1 := x) end.
  assert (machine_of w1 = machine_of w ∧ checkpointingFailed (hook w1) = false)
    as [Hm1 Hf1].
  { unfold w1. by destruct (_ && _). }
  destruct (negb (nonempty (currentSessionId (hook w1)))).
  - exists w1. unfold keeps_failed. rewrite Hf. done.
  - eexists. split; [reflexivity|]. unfold keeps_failed. rewrite Hf. done.
Qed.

Lemma run_capture_spec cwd id turn sid now lucky w :
  ∃ w' v, run_capture cwd id turn sid now lucky w = (w', Return v) ∧
    pendingCheckpoints (hook w') = pendingCheckpoints (hook w) ∧
    completedCheckpoints (hook w')
      = completedCheckpoints (hook w) ++ option_list v ∧
    keeps_failed w w' ∧
    match createCheckpoint cwd id turn sid now (machine_of w) with
    | (m', Return d) => v = Some d ∧ machine_of w' = m'
    | (m', Throw _) =>
        v = None ∧ machine_of w' = m' ∧ checkpointingFailed (hook w') = true
    end.
Proof.
  unfold run_capture, try_catch, bind, on_machine, modify, ret, keeps_failed.
  destruct (createCheckpoint cwd id turn sid now (machine_of w)) as [m' [d|e]]; simpl.
  - destruct lucky; simpl; eexists _, _; (split; [reflexivity|]); done.
  - eexists _, _. split; [reflexivity|]. simpl. rewrite app_nil_r. done.
Qed.

(** What [settle] does to the promises and to the known records. *)
Lemma settle_spec i now lucky w :
  let w' := settle i now lucky w in
  keeps_failed w w' ∧
  (∀ d, d ∈ completedCheckpoints (hook w) → d ∈ completedCheckpoints (hook w')) ∧
  length (pendingCheckpoints (hook w')) = length (pendingCheckpoints (hook w)) ∧
  (∀ j, j ≠ i → pendingCheckpoints (hook w') !! j = pendingCheckpoints (hook w) !! j) ∧
  match pendingCheckpoints (hook w) !! i with
  | Some (Pending cwd id turn sid) =>
      ∃ v, pendingCheckpoints (hook w') !! i = Some (Fulfilled v) ∧
           (∀ d, v = Some d → d ∈ completedCheckpoints (hook w')) ∧
           match createCheckpoint cwd id turn sid now (machine_of w) with
           | (_, Return d) => v = Some d
           | (_, Throw _) =>
               v = None ∧ checkpointingFailed (hook w') = true ∧
               completedCheckpoints (hook w') = completedCheckpoints (hook w)
           end
  | _ => w' = w
  end.
Proof.
  unfold settle.
  destruct (pendingCheckpoints (hook w) !! i) as [[cwd id turn sid|v|e]|] eqn:Hi;
    try (cbv zeta; split; [reflexivity|]; by repeat split).
  destruct (run_capture_spec cwd id turn sid now lucky w)
    as (w' & v & -> & Hp & Hc & Hf & Hcreate).
  cbv zeta. cbn [hook set_hook pendingCheckpoints set_pending completedCheckpoints
                 checkpointingFailed].
  split; [done|]. split.
  { intros d Hd. rewrite Hc. apply elem_of_app. by left. }
  rewrite Hp, length_insert. split; [done|]. split.
  { intros j Hj. by rewrite list_lookup_insert_ne. }
  exists v. split.
  { apply list_lookup_insert_eq. by eapply lookup_lt_Some. }
  split.
  { intros d ->. rewrite Hc. apply elem_of_app. right. by left. }
  destruct (createCheckpoint _ _ _ _ _ _) as [m' [d|err]].
  - by destruct Hcreate.
  - destruct Hcreate as (-> & _ & Hfail). rewrite Hc. simpl. by rewrite app_nil_r.
Qed.

(** The promises from [i] on settle one after the other. *)
Lemma settle_from_spec n i inp w :
  let w' := settle_from i n inp w in
  keeps_failed w w' ∧
  (∀ d, d ∈ completedCheckpoints (hook w) → d ∈ completedCheckpoints (hook w')) ∧
  length (pendingCheckpoints (hook w')) = length (pendingCheckpoints (hook w)) ∧
  (∀ j, (j < i ∨ i + n ≤ j)%nat →
        pendingCheckpoints (hook w') !! j = pendingCheckpoints (hook w) !! j) ∧
  (∀ j p, (i ≤ j < i + n)%nat → pendingCheckpoints (hook w) !! j = Some p →
     match p with
     | Pending _ _ _ _ =>
         ∃ v, pendingCheckpoints (hook w') !! j = Some (Fulfilled v) ∧
              ∀ d, v = Some d → d ∈ completedCheckpoints (hook w')
     | _ => pendingCheckpoints (hook w') !! j = Some p
     end).
Proof.
  revert i w. induction n as [|n IH]; intros i w; cbv zeta.
  { simpl. repeat split; try done. intros j p Hj. lia. }
  cbn [settle_from].
  set (w1 := settle i (capture_now inp i) (capture_lucky inp i) w).
  destruct (settle_spec i (capture_now inp i) (capture_lucky inp i) w)
    as (Hf1 & Hc1 & Hl1 & Ho1 & Hi1). fold w1 in Hf1, Hc1, Hl1, Ho1, Hi1.
  destruct (IH (S i) w1) as (Hf2 & Hc2 & Hl2 & Ho2 & Hi2).
  split; [by etrans|]. split; [auto|]. split; [congruence|]. split.
  { intros j Hj. rewrite Ho2 by lia. apply Ho1. lia. }
  intros j p Hj Hp. destruct (decide (j = i)) as [->|Hne].
  - rewrite Hp in Hi1. rewrite Ho2 by lia.
    destruct p as [cwd id turn sid|v|e].
    + destruct Hi1 as (v & Hv & Hin & _). exists v. split; [done|]. auto.
    + by rewrite Hi1.
    + by rewrite Hi1.
  - rewrite <- Ho1 in Hp by done. apply (Hi2 j p); [lia|done].
Qed.

Lemma await_all_state inp w :
  (await_all inp w).1
  = settle_from 0 (length (pendingCheckpoints (hook w))) inp w.
Proof. unfold await_all. by destruct (find_map _ _). Qed.

Lemma branch_prepare_records event ctx inp w :
  keeps_records (await_all inp w).1 (branch_prepare event ctx inp w).1.
Proof.
  unfold branch_prepare, bind at 1.
  destruct (await_all inp w) as [wa [[]|e]]; [|reflexivity]. simpl.
  revert wa.
  change (respects keeps_records
    (current <- gets (fun w => currentSessionId (hook w)) ;;
     match List.find (fun e => (e_type e =? "session")%string) (entries event)
           ≫= e_id with
     | Some sid =>
         if nonempty sid && negb (sid =? current)%string
         then loadCheckpointsForSession (ctx_cwd ctx) sid false
         else ret tt
     | None => ret tt
     end)).
  repeat respects_step. apply loadCheckpointsForSession_records.
Qed.

(** C7 (ordering of captures and selection).  The branch handler is
    [branch_prepare] followed by [branch_decide], and the selection is
    made in [branch_decide].  In the world that [branch_prepare] leaves
    no promise is pending: every promise of the list at the branch
    event is settled, each one that was pending is fulfilled, and the
    record of each capture that succeeded is among the known records
    from which [branch_decide] selects. *)
Theorem C7_selection_after_captures event ctx inp w :
  let w1 := (branch_prepare event ctx inp w).1 in
  (∀ j p, pendingCheckpoints (hook w) !! j = Some p →
     ∃ p', pendingCheckpoints (hook w1) !! j = Some p' ∧
           is_pending p' = false ∧
           (is_pending p = true →
            ∃ v, p' = Fulfilled v ∧
                 ∀ d, v = Some d → d ∈ completedCheckpoints (hook w1))) ∧
  Forall (fun p => is_pending p = false) (pendingCheckpoints (hook w1)) ∧
  (gitAvailable (hook w) = true →
   branch event ctx inp w =
   match (branch_prepare event ctx inp w).2 with
   | Return _ => branch_decide event ctx inp w1
   | Throw e => (w1, Throw e)
   end).
Proof.
  cbv zeta.
  destruct (branch_prepare_records event ctx inp w) as [Hp Hc].
  rewrite await_all_state in Hp, Hc.
  destruct (settle_from_spec (length (pendingCheckpoints (hook w))) 0 inp w)
    as (_ & _ & Hlen & _ & Hsettled).
  assert (∀ j p, pendingCheckpoints (hook w) !! j = Some p →
     ∃ p', pendingCheckpoints (hook (branch_prepare event ctx inp w).1) !! j = Some p' ∧
           is_pending p' = false ∧
           (is_pending p = true →
            ∃ v, p' = Fulfilled v ∧
                 ∀ d, v = Some d →
                      d ∈ completedCheckpoints (hook (branch_prepare event ctx inp w).1)))
    as Hall.
  { intros j p Hj. rewrite Hp.
    pose proof (lookup_lt_Some _ _ _ Hj) as Hlt.
    specialize (Hsettled j p ltac:(lia) Hj).
    destruct p as [cwd id turn sid|v|e].
    - destruct Hsettled as (v & Hv & Hin). exists (Fulfilled v).
      split; [done|]. split; [done|]. intros _. exists v. split; [done|]. auto.
    - exists (Fulfilled v). by repeat split.
    - exists (Rejected e). by repeat split. }
  split; [exact Hall|]. split.
  - apply Forall_lookup. intros j p' Hj.
    assert (is_Some (pendingCheckpoints (hook w) !! j)) as [p Hpj].
    { apply lookup_lt_is_Some. rewrite <- Hlen, <- Hp. by eapply lookup_lt_Some. }
    destruct (Hall j p Hpj) as (p'' & Hj' & Hnp & _). congruence.
  - intros Hg. unfold branch, bind at 1, gets. rewrite Hg. simpl.
    unfold bind at 1. by destruct (branch_prepare event ctx inp w) as [w1 [[]|e]].
Qed.

Lemma await_all_failed inp : respects keeps_failed (await_all inp).
Proof.
  intros w. rewrite await_all_state. apply settle_from_spec.
Qed.

Lemma branch_prepare_failed event ctx inp :
  respects keeps_failed (branch_prepare event ctx inp).
Proof.
  unfold branch_prepare. respects_step; [apply await_all_failed|].
  repeat respects_step. apply loadCheckpointsForSession_failed.
Qed.

Lemma save_and_restore_failed event ctx inp checkpoint :
  respects keeps_failed (save_and_restore event ctx inp checkpoint).
Proof.
  unfold save_and_restore. repeat respects_step; by unfold keeps_failed.
Qed.

Lemma branch_decide_failed event ctx inp :
  respects keeps_failed (branch_decide event ctx inp).
Proof.
  unfold branch_decide.
  repeat first [ apply save_and_restore_failed | respects_step ];
    by unfold keeps_failed.
Qed.

Lemma branch_failed event ctx inp : respects keeps_failed (branch event ctx inp).
Proof.
  unfold branch. repeat respects_step.
  - apply branch_prepare_failed.
  - apply branch_decide_failed.
Qed.

Lemma step_failed e w : keeps_failed w (step e w).
Proof.
  destruct e as [ctx|e ctx|e ctx inp|e|i now lucky|cwd|m files]; simpl.
  - apply session_start_failed.
  - destruct (turn_start_spec e ctx w) as (w' & -> & _ & Hf & _). exact Hf.
  - apply branch_failed.
  - apply session_switch_failed.
  - apply settle_spec.
  - unfold run_prune. destruct (background_prunes w); [reflexivity|].
    unfold on_machine. destruct (pruneCheckpoints _ _). by unfold keeps_failed.
  - by unfold keeps_failed.
Qed.

Lemma run_events_failed es w : keeps_failed w (run_events es w).
Proof.
  revert w. induction es as [|e es IH]; intros w; [reflexivity|].
  simpl. etrans; [apply (step_failed e)|apply IH].
Qed.

(** C8 (capture-failure containment).  [turn_start] always returns
    normally and leaves the repository as it is: the capture runs
    later, when its promise settles.  A capture that fails fulfils its
    promise with null and sets [checkpointingFailed].  Once the flag is
    set it stays set whatever events follow, and every later
    [turn_start] leaves the world as it is: it starts no capture. *)
Theorem C8_capture_failure_containment :
  (∀ e ctx w, ∃ w', turn_start e ctx w = (w', Return tt) ∧
                    machine_of w' = machine_of w) ∧
  (∀ i now lucky w cwd id turn sid m' err,
     pendingCheckpoints (hook w) !! i = Some (Pending cwd id turn sid) →
     createCheckpoint cwd id turn sid now (machine_of w) = (m', Throw err) →
     let w' := settle i now lucky w in
     pendingCheckpoints (hook w') !! i = Some (Fulfilled None) ∧
     checkpointingFailed (hook w') = true) ∧
  (∀ es e ctx w,
     checkpointingFailed (hook w) = true →
     let w' := run_events es w in
     checkpointingFailed (hook w') = true ∧
     turn_start e ctx w' = (w', Return tt)).
Proof.
  split; [|split].
  - intros e ctx w. destruct (turn_start_spec e ctx w) as (w' & ? & ? & _). eauto.
  - intros i now lucky w cwd id turn sid m' err Hi Hc.
    destruct (settle_spec i now lucky w) as (_ & _ & _ & _ & Hs).
    rewrite Hi, Hc in Hs. destruct Hs as (v & Hv & _ & -> & Hf & _). done.
  - intros es e ctx w Hf. cbv zeta.
    pose proof (run_events_failed es w Hf) as Hf'. split; [done|].
    destruct (turn_start_spec e ctx (run_events es w)) as (w' & Ht & _ & _ & Hsame).
    by rewrite Ht, (Hsame Hf').
Qed.

(** The choices "Code only" and "Restore all" restore only after the
    state before the restore is captured and registered. *)
Lemma save_and_restore_spec event ctx inp cp w :
  let w' := (save_and_restore event ctx inp cp w).1 in
  match createCheckpoint (ctx_cwd ctx) (before_restore_id w inp)
          (targetTurnIndex event) (currentSessionId (hook w))
          (now_capture inp) (machine_of w) with
  | (m1, Return before) =>
      log w' = log w ++ [CallCreate (before_restore_id w inp);
                         CallRestore (id cp)] ∧
      completedCheckpoints (hook w')
        = completedCheckpoints (hook w) ++ [before] ∧
      machine_of w' = (restoreCheckpoint (ctx_cwd ctx) cp m1).1
  | (m1, Throw _) =>
      log w' = log w ++ [CallCreate (before_restore_id w inp)] ∧
      completedCheckpoints (hook w') = completedCheckpoints (hook w) ∧
      machine_of w' = m1
  end.
Proof.
  unfold save_and_restore, before_restore_id, bind, gets, modify, on_machine.
  simpl.
  destruct (createCheckpoint _ _ _ _ _ (machine_of w)) as [m1 [before|e]]; simpl.
  - destruct (restoreCheckpoint _ cp m1) as [m2 o]. simpl.
    by rewrite <- app_assoc.
  - done.
Qed.

(** C6 (before-restore snapshot), the path that diverges.  With more
    than one known record the dialog offers "Restore oldest checkpoint
    (keep conversation)".  On that choice the handler restores the
    oldest known record on the machine as it stands: [createCheckpoint]
    is not called, no record is registered, and the log shows the call
    of [restoreCheckpoint] followed only by a notification.  The
    choices "Code only" and "Restore all" go through
    [save_and_restore]. *)
Theorem C6_restore_oldest_without_snapshot event ctx inp w c cp latest older :
  choice inp = Some c → c ≠ "Cancel" → startsWith c "Restore oldest" = true →
  selectCheckpoint (completedCheckpoints (hook w)) (targetTimestamp event inp)
    = Selected cp latest older →
  let w' := (branch_decide event ctx inp w).1 in
  ∃ oldest note,
    last (allCheckpoints (completedCheckpoints (hook w))) = Some oldest ∧
    machine_of w' = (restoreCheckpoint (ctx_cwd ctx) oldest (machine_of w)).1 ∧
    completedCheckpoints (hook w') = completedCheckpoints (hook w) ∧
    log w' = log w ++ [CallRestore (id oldest); note].
Proof.
  intros Hc Hcancel Hstart Hsel. cbv zeta.
  assert (∃ oldest, last (allCheckpoints (completedCheckpoints (hook w))) = Some oldest)
    as [oldest Ho].
  { unfold selectCheckpoint in Hsel.
    destruct (allCheckpoints (completedCheckpoints (hook w))) as [|x l]; [done|].
    apply (last_is_Some (x :: l)). done. }
  unfold branch_decide. erewrite bind_Return by reflexivity.
  rewrite Hsel, Hc.
  destruct c as [|a c]; [done|].
  apply String.eqb_neq in Hcancel. rewrite Hcancel, Hstart, Ho.
  exists oldest.
  unfold bind, try_catch, modify, on_machine, notify, ret. simpl.
  destruct (restoreCheckpoint (ctx_cwd ctx) oldest (machine_of w)) as [m' [[]|e]];
    simpl; eexists; rewrite <- ?(assoc_L (++)); done.
Qed.

End Sessions.
(** ** Frames of the checkpoint functions *)

Section Keeps.

Context {S : Type} (R : relation S) `{!PreOrder R}.

Lemma keeps_ret {A} (a : A) : keeps R (ret a).
Proof. by intros s. Qed.

Lemma keeps_throw {A} e : keeps R (throw (A:=A) e).
Proof. by intros s. Qed.

Lemma keeps_bind {A B} (c : M S A) (k : A → M S B) :
  keeps R c → (∀ a, keeps R (k a)) → keeps R (bind c k).
Proof.
  intros Hc Hk s. unfold bind. specialize (Hc s).
  destruct (c s) as [s' [a|e]]; [|exact Hc]. etrans; [exact Hc|apply Hk].
Qed.

Lemma keeps_try_catch {A} (c : M S A) h :
  keeps R c → (∀ e, keeps R (h e)) → keeps R (try_catch c h).
Proof.
  intros Hc Hh s. unfold try_catch. specialize (Hc s).
  destruct (c s) as [s' [a|e]]; [exact Hc|]. etrans; [exact Hc|apply Hh].
Qed.

Lemma keeps_try_finally {A} (c : M S A) f :
  keeps R c → (∀ s, R s (f s)) → keeps R (try_finally c f).
Proof.
  intros Hc Hf s. unfold try_finally. specialize (Hc s).
  destruct (c s) as [s' o]. etrans; [exact Hc|apply Hf].
Qed.

End Keeps.

#[local] Instance same_but_ref_preorder ref : PreOrder (same_but_ref ref).
Proof.
  split; unfold same_but_ref.
  - by intros m.
  - intros m1 m2 m3 [-> ->] [-> ->]. done.
Qed.

#[local] Instance only_refs_deleted_preorder : PreOrder only_refs_deleted.
Proof.
  split; unfold only_refs_deleted.
  - by intros m.
  - intros m1 m2 m3 (-> & -> & -> & -> & H12) (-> & -> & -> & -> & H23).
    repeat split; try done. by etrans.
Qed.

#[local] Instance same_store_preorder : PreOrder same_store.
Proof.
  split; unfold same_store.
  - by intros m.
  - intros m1 m2 m3 (-> & -> & -> & ->) (-> & -> & -> & ->). done.
Qed.

(** One step of a proof that a computation keeps a relation. *)
Ltac keeps_step :=
  lazymatch goal with
  | |- keeps _ (ret _) => apply keeps_ret; apply _
  | |- keeps _ (throw _) => apply keeps_throw; apply _
  | |- keeps _ (bind _ _) => apply keeps_bind; [apply _| |intros ?]
  | |- keeps _ (try_catch _ _) => apply keeps_try_catch; [apply _| |intros ?]
  | |- keeps _ (try_finally _ _) => apply keeps_try_finally; [apply _| |intros ?]
  | |- keeps _ (if ?b then _ else _) => destruct b
  | |- keeps _ (match ?x with _ => _ end) => destruct x
  end.

Section Frames.

Context `{ObjectNames} `{Engine}.

Lemma run_same_but_ref ref c :
  capture_command ref c → keeps (same_but_ref ref) (run c).
Proof.
  intros Hc m. unfold run, fatal, same_but_ref, working_state, refs_of.
  destruct (repository m) as [r|] eqn:Hr; simpl; [|by rewrite Hr].
  destruct c; simpl in Hc; try done; simpl; rewrite ?Hr; try done.
  - destruct (head r) eqn:Hh; simpl; rewrite Hr; simpl; by rewrite Hh.
  - destruct index_file; [|done]. simpl. by rewrite Hr.
  - by destruct (trees r !! _), (ident_time author), (ident_time committer);
      simpl; rewrite ?Hr.
  - subst ref0. destruct (_ && _); simpl; rewrite ?Hr; [|done].
    split; [done|]. by rewrite delete_insert_eq.
Qed.

Lemma rm_same_but_ref ref dir m : same_but_ref ref m (rm dir m).
Proof. done. Qed.

Lemma getRepoRoot_same_but_ref ref cwd : keeps (same_but_ref ref) (getRepoRoot cwd).
Proof.
  unfold getRepoRoot, execAsync. repeat keeps_step. by apply run_same_but_ref.
Qed.

(** X1 (a capture leaves the work alone).  Whether [createCheckpoint]
    returns or throws, HEAD, the staging area and the files of the
    working tree are what they were, and so is every ref other than
    the ref of the checkpoint. *)
Theorem createCheckpoint_keeps_work cwd id turn sid now m :
  let m' := (createCheckpoint cwd id turn sid now m).1 in
  working_state m' = working_state m ∧
  delete (REF_BASE +:+ "/" +:+ id) (refs_of m')
  = delete (REF_BASE +:+ "/" +:+ id) (refs_of m).
Proof.
  revert m.
  change (keeps (same_but_ref (REF_BASE +:+ "/" +:+ id))
                (createCheckpoint cwd id turn sid now)).
  unfold createCheckpoint, execAsync.
  keeps_step; [apply getRepoRoot_same_but_ref|].
  repeat first
    [ apply run_same_but_ref; done
    | apply rm_same_but_ref
    | keeps_step ].
  all: try done.
Qed.

End Frames.

Section Frames2.

Context `{ObjectNames} `{Engine}.

Lemma run_only_refs_deleted c :
  match c with
  | RevParseIsInsideWorkTree | RevParseShowToplevel | RevParseHEAD
  | RevParseVerify _ | CatFileCommit _ | ForEachRef _ _
  | UpdateRefDelete _ => True
  | _ => False
  end →
  keeps only_refs_deleted (run c).
Proof.
  intros Hc m.
  unfold run, fatal, only_refs_deleted, working_state, refs_of, trees_of, commits_of.
  destruct (repository m) as [r|] eqn:Hr; simpl; [|by rewrite Hr].
  destruct c; try done; simpl.
  - by rewrite Hr.
  - by rewrite Hr.
  - destruct (head r) eqn:Hh; simpl; rewrite Hr; simpl; by rewrite ?Hh.
  - by destruct (refs r !! ref); simpl; rewrite Hr.
  - by destruct (commits r !! object); simpl; rewrite Hr.
  - by destruct (for_each_ref r _ _); simpl; rewrite Hr.
  - destruct (bool_decide _); simpl; rewrite ?Hr; [|done].
    repeat split; try done. apply delete_subseteq.
Qed.

Lemma delete_refs_only_refs_deleted l : keeps only_refs_deleted (delete_refs l).
Proof.
  induction l as [|ref l IH]; simpl; unfold execAsync; repeat keeps_step; try done.
  by apply run_only_refs_deleted.
Qed.

(** X11 (a prune only deletes refs).  Whatever the repository is
    like, [pruneCheckpoints] leaves HEAD, the staging area, the files,
    the objects and the temporary files as they are, makes no ref and
    changes the target of none: every ref there is after it was there
    before it, with the same target. *)
Theorem pruneCheckpoints_only_deletes cwd m :
  let m' := (pruneCheckpoints cwd m).1 in
  working_state m' = working_state m ∧
  trees_of m' = trees_of m ∧ commits_of m' = commits_of m ∧
  tmp_index m' = tmp_index m ∧
  refs_of m' ⊆ refs_of m.
Proof.
  revert m. change (keeps only_refs_deleted (pruneCheckpoints cwd)).
  unfold pruneCheckpoints, getRepoRoot, execAsync.
  repeat first
    [ apply delete_refs_only_refs_deleted
    | apply run_only_refs_deleted; done
    | keeps_step ].
Qed.




End Frames2.

Section Listing.

Context `{ObjectNames} `{Engine}.


(** The ids that [listCheckpointRefs] returns in a repository whose
    refs are well formed. *)
Lemma listCheckpointRefs_spec cwd m r :
  repository m = Some r → valid_refs r →
  ∃ ids, listCheckpointRefs cwd m = (m, Return ids) ∧
         for_each_ref r false checkpoint_prefix
         = Some ((String.app checkpoint_prefix) <$> ids) ∧
         ((String.app checkpoint_prefix) <$> ids) ≡ₚ checkpoint_refs r.
Proof.
  intros Hr Hv.
  destruct (for_each_ref_valid r false checkpoint_prefix Hv)
    as (ks & _ & Hl & Hn & _).
  set (names := (merge_sort ref_order ks).*2) in *.
  assert (names ≡ₚ checkpoint_refs r) as Hperm.
  { unfold names, checkpoint_refs. rewrite <- Hn.
    apply fmap_Permutation, merge_sort_Permutation. }
  assert (∃ ids, names = (String.app checkpoint_prefix) <$> ids ∧
                 map (fun ref => match strip_prefix checkpoint_prefix ref with
                                 | Some rest => rest
                                 | None => ref
                                 end) names = ids) as (ids & Hids & Hmap).
  { assert (Forall (fun n => startsWith n checkpoint_prefix = true) names) as Hp.
    { apply Forall_forall. intros n Hin. rewrite Hperm in Hin.
      by apply elem_of_checkpoint_refs in Hin as [_ ?]. }
    clear -Hp. induction Hp as [|n names Hn _ (ids & Hnames & Hmap)].
    - by exists [].
    - unfold startsWith in Hn.
      destruct (strip_prefix checkpoint_prefix n) as [rest|] eqn:E; [|done].
      exists (rest :: ids). rewrite fmap_cons. cbn [map]. rewrite E, Hmap.
      apply strip_prefix_Some in E as ->. by rewrite Hnames. }
  exists ids. rewrite <- Hids. split; [|done].
  unfold listCheckpointRefs, try_catch, bind at 1. rewrite getRepoRoot_spec, Hr.
  unfold bind, execAsync, run. rewrite Hr.
  change (REF_BASE +:+ "/") with checkpoint_prefix. rewrite Hl.
  rewrite split_listing.
  2:{ rewrite Hperm. by apply listed_refs_valid. }
  unfold ret. by rewrite Hmap.
Qed.

(** X10 (the list of the checkpoints).  [listCheckpointRefs] never
    throws and changes nothing.  Outside a repository it returns the
    empty list.  In a repository whose refs are well formed it returns
    each id that has a ref in the checkpoint namespace, once. *)
Theorem listCheckpointRefs_lists :
  (∀ cwd m, ∃ ids, listCheckpointRefs cwd m = (m, Return ids) ∧
                   (repository m = None → ids = [])) ∧
  (∀ cwd m r, repository m = Some r → valid_refs r →
     ∃ ids, listCheckpointRefs cwd m = (m, Return ids) ∧ NoDup ids ∧
            ∀ id, id ∈ ids ↔ is_Some (refs r !! (REF_BASE +:+ "/" +:+ id))).
Proof.
  split.
  - intros cwd m.
    unfold listCheckpointRefs, try_catch, bind at 1. rewrite getRepoRoot_spec.
    destruct (repository m) as [r|] eqn:Hr; [|by eexists].
    unfold bind, execAsync, run, fatal, ret. rewrite Hr.
    destruct (for_each_ref r false _); eexists; (split; [reflexivity|done]).
  - intros cwd m r Hr Hv.
    destruct (listCheckpointRefs_spec cwd m r Hr Hv) as (ids & -> & _ & Hperm).
    exists ids. split; [done|].
    split.
    + apply (NoDup_fmap_1 (String.app checkpoint_prefix)). rewrite Hperm.
      apply NoDup_checkpoint_refs.
    + intros id.
      rewrite <- (list_elem_of_fmap_inj (String.app checkpoint_prefix)), Hperm.
      rewrite elem_of_checkpoint_refs, startsWith_app.
      change (checkpoint_prefix +:+ id) with ((REF_BASE +:+ "/") +:+ id).
      rewrite <- string_app_assoc. split; [by intros [? _]|done].
Qed.

End Listing.

Section Resume.

Context `{ObjectNames} `{Engine}.

Lemma set_machine_id w : set_machine (machine_of w) w = w.
Proof. by destruct w. Qed.

Lemma set_completed_id w :
  set_hook (set_completed (completedCheckpoints (hook w)) (hook w)) w = w.
Proof. by destruct w as [? ? [] ? ?]. Qed.

Lemma load_refs_spec cwd sid refs w :
  load_refs cwd sid refs w =
  (set_hook (set_completed
               (foldl (load_one sid (machine_of w))
                      (completedCheckpoints (hook w)) refs) (hook w)) w,
   Return tt).
Proof.
  revert w. induction refs as [|refName refs IH]; intros w.
  - simpl. unfold ret. by rewrite set_completed_id.
  - cbn [load_refs foldl]. unfold bind at 1, on_machine.
    rewrite loadCheckpointFromRef_spec, set_machine_id.
    unfold bind at 1, modify. rewrite IH. f_equal.
    match goal with |- context [machine_of ?x] =>
      lazymatch x with w => fail | _ => set (w1 := x) end end.
    assert (machine_of w1 = machine_of w ∧
            completedCheckpoints (hook w1)
            = load_one sid (machine_of w) (completedCheckpoints (hook w)) refName ∧
            ∀ l, set_hook (set_completed l (hook w1)) w1
                 = set_hook (set_completed l (hook w)) w) as (-> & -> & ->); [|done].
    unfold w1, load_one.
    destruct (commit_text_of _ _ ≫= _) as [d|]; [|done].
    destruct (_ && _); [|done].
    by destruct w as [? ? [] ? ?].
Qed.

Lemma load_one_id sid m known refName d :
  d ∈ load_one sid m known refName → d ∈ known ∨ id d = refName.
Proof.
  unfold load_one.
  destruct (commit_text_of m refName ≫= _) as [d'|] eqn:E; [|by left].
  destruct (_ && _); [|by left].
  intros [?|Hd%list_elem_of_singleton]%elem_of_app; [by left|right]. subst d'.
  unfold record_of_text in E.
  destruct (commit_text_of m refName) as [text|]; simpl in E; [|done].
  destruct (match_key "sessionId" text); simpl in E; [|done].
  destruct (match_int "turn" text); simpl in E; [|done].
  destruct (match_key "head" text); simpl in E; [|done].
  destruct (match_key "index-tree" text); simpl in E; [|done].
  destruct (match_key "worktree-tree" text); simpl in E; [|done].
  by injection E as <-.
Qed.

Lemma load_one_grows sid m known refName d :
  d ∈ known → d ∈ load_one sid m known refName.
Proof.
  intros Hd. unfold load_one.
  destruct (_ ≫= _); [|done]. destruct (_ && _); [|done].
  apply elem_of_app. by left.
Qed.

Lemma foldl_load_one_grows sid m refs known d :
  d ∈ known → d ∈ foldl (load_one sid m) known refs.
Proof.
  revert known. induction refs as [|n refs IH]; intros known Hd; [done|].
  simpl. by apply IH, load_one_grows.
Qed.

Lemma existsb_id_true known (d : CheckpointData) :
  existsb (fun c => (id c =? id d)%string) known = true →
  ∃ c, c ∈ known ∧ id c = id d.
Proof.
  intros (c & Hin & Heq)%existsb_exists. exists c.
  split; [by apply list_elem_of_In|by apply String.eqb_eq].
Qed.

(** The record of a ref of the list joins the known records, unless
    a record of its id is known already. *)
Lemma foldl_load_one_loads sid m refs known refName d :
  refName ∈ refs →
  commit_text_of m refName ≫= record_of_text refName = Some d →
  sessionId d = sid →
  (∀ c, c ∈ known → id c = refName → c = d) →
  d ∈ foldl (load_one sid m) known refs.
Proof.
  intros Hin Hload Hsid. revert known.
  assert (id d = refName) as Hid.
  { destruct (load_one_id (sessionId d) m [] refName d) as [[]%not_elem_of_nil|?];
      [|done].
    unfold load_one. rewrite Hload, String.eqb_refl. simpl. by left. }
  induction refs as [|n refs IH]; intros known Hknown.
  { by apply not_elem_of_nil in Hin. }
  simpl. destruct (decide (refName ∈ refs)) as [Hlater|Hnot].
  - apply IH; [done|]. intros c Hc Hcid.
    apply load_one_id in Hc as Hc'. destruct Hc' as [Hc'|Hc'']; [by apply Hknown|].
    assert (n = refName) as -> by congruence.
    unfold load_one in Hc. rewrite Hload in Hc.
    destruct (_ && _); [|by apply Hknown].
    apply elem_of_app in Hc as [?|?%list_elem_of_singleton]; [by apply Hknown|done].
  - apply elem_of_cons in Hin as [<-|?]; [|done].
    apply foldl_load_one_grows. unfold load_one. rewrite Hload, Hsid, String.eqb_refl.
    simpl. destruct (existsb _ known) eqn:E; simpl.
    + apply existsb_id_true in E as (c & Hc & Hcid).
      rewrite (Hknown c Hc) in Hc by congruence. done.
    + apply elem_of_app. right. by left.
Qed.

Lemma foldl_load_one_origin sid m refs known c :
  c ∈ foldl (load_one sid m) known refs → c ∈ known ∨ sessionId c = sid.
Proof.
  revert known. induction refs as [|n refs IH]; intros known Hc; [by left|].
  simpl in Hc. apply IH in Hc as [Hc|?]; [|by right].
  unfold load_one in Hc. destruct (_ ≫= _) as [d|]; [|by left].
  destruct (sessionId d =? sid)%string eqn:E; simpl in Hc; [|by left].
  destruct (negb _); [|by left].
  apply elem_of_app in Hc as [Hc|Hc%list_elem_of_singleton]; [by left|].
  right. subst c. by apply String.eqb_eq.
Qed.

Lemma foldl_load_one_NoDup sid m refs known :
  NoDup (id <$> known) → NoDup (id <$> foldl (load_one sid m) known refs).
Proof.
  revert known. induction refs as [|n refs IH]; intros known Hk; [done|].
  simpl. apply IH. unfold load_one.
  destruct (_ ≫= _) as [d|]; [|done].
  destruct (sessionId d =? sid)%string; simpl; [|done].
  destruct (existsb _ known) eqn:E; simpl; [done|].
  rewrite fmap_app. apply NoDup_app. split; [done|]. split; [|apply NoDup_singleton].
  intros x Hx Hx'%list_elem_of_singleton. subst x.
  apply list_elem_of_fmap in Hx as (c & Hc & Hin).
  assert (existsb (fun c => (id c =? id d)%string) known = true) as E'; [|congruence].
  apply existsb_exists. exists c. split; [by apply list_elem_of_In|].
  by apply String.eqb_eq.
Qed.

Lemma foldl_load_one_prefix sid m refs known :
  known `prefix_of` foldl (load_one sid m) known refs.
Proof.
  revert known. induction refs as [|n refs IH]; intros known; [done|].
  simpl. etrans; [|apply IH]. unfold load_one.
  destruct (_ ≫= _) as [d|]; [|done]. destruct (_ && _); [|done].
  by apply prefix_app_r.
Qed.

End Resume.

Section Sessions2.

Context `{ObjectNames} `{Engine}.

Lemma listCheckpointRefs_total cwd m :
  ∃ ids, listCheckpointRefs cwd m = (m, Return ids).
Proof.
  unfold listCheckpointRefs, try_catch, bind at 1. rewrite getRepoRoot_spec.
  destruct (repository m) as [r|] eqn:Hr; [|by eexists].
  unfold bind, execAsync, run, fatal, ret. rewrite Hr.
  destruct (for_each_ref r false _); by eexists.
Qed.

Lemma loadCheckpointsForSession_spec cwd sid clear w ids :
  listCheckpointRefs cwd (machine_of w) = (machine_of w, Return ids) →
  loadCheckpointsForSession cwd sid clear w =
  (set_hook (set_completed
               (foldl (load_one sid (machine_of w))
                      (if clear then [] else completedCheckpoints (hook w)) ids)
               (hook w)) w,
   Return tt).
Proof.
  intros Hids. unfold loadCheckpointsForSession, bind at 1, modify.
  unfold bind at 1, on_machine.
  destruct clear.
  - change (machine_of (set_hook _ w)) with (machine_of w). rewrite Hids.
    rewrite load_refs_spec. by destruct w as [? ? [] ? ?].
  - rewrite Hids, set_machine_id. apply load_refs_spec.
Qed.

(** X13 (the records of a session).  [loadCheckpointsForSession] always
    returns and leaves the machine as it is.  Every record it adds is
    of the session asked for; the records known before stay, in their
    order, unless they are to be cleared; and when no two known
    records share an id, or the known records are cleared, no two
    records share an id afterwards. *)
Theorem loadCheckpointsForSession_loads cwd sid clear w :
  let w' := (loadCheckpointsForSession cwd sid clear w).1 in
  (loadCheckpointsForSession cwd sid clear w).2 = Return tt ∧
  machine_of w' = machine_of w ∧
  (∀ c, c ∈ completedCheckpoints (hook w') →
        (clear = false ∧ c ∈ completedCheckpoints (hook w)) ∨ sessionId c = sid) ∧
  (clear = false →
   completedCheckpoints (hook w) `prefix_of` completedCheckpoints (hook w')) ∧
  (clear = true ∨ NoDup (id <$> completedCheckpoints (hook w)) →
   NoDup (id <$> completedCheckpoints (hook w'))).
Proof.
  cbv zeta.
  destruct (listCheckpointRefs_total cwd (machine_of w)) as [ids Hids].
  rewrite (loadCheckpointsForSession_spec _ _ _ _ _ Hids).
  cbn [fst snd hook set_hook machine_of completedCheckpoints set_completed].
  split; [done|]. split; [done|]. split; [|split].
  - intros c [Hc|Hc]%foldl_load_one_origin; [|by right].
    destruct clear; [by apply not_elem_of_nil in Hc|by left].
  - intros ->. apply foldl_load_one_prefix.
  - intros Hnd. apply foldl_load_one_NoDup.
    destruct clear; [constructor|]. by destruct Hnd.
Qed.

End Sessions2.

Section Persistence.

Context `{PlainNames} `{Engine}.

(** The text of the commit of a capture reads back as the record of
    the capture. *)
Lemma captured_text_loads r id sid turn now ms m' :
  parse_iso (toISOString now) = Some ms →
  check_ref_format (REF_BASE +:+ "/" +:+ id) = true →
  (∀ h, head r = Some h → plain h) →
  tidy sid →
  repository m' = Some (captured_repo r id sid turn now ms) →
  commit_text_of m' id ≫= record_of_text id
  = Some (captured_record r id sid turn now).
Proof.
  intros Hms Href Hhead (Hsid1 & Hsid2 & Hsid3) Hr'.
  pose proof (parse_iso_toISOString_Some _ _ Hms) as ->.
  destruct (captured_head_plain r Hhead) as [Hhp Hht].
  unfold commit_text_of. rewrite Hr'. simpl. rewrite lookup_insert_eq. simpl.
  rewrite trim_line by apply commit_name_plain.
  rewrite lookup_insert_eq. simpl.
  unfold checkpoint_commit. rewrite commit_text_checkpoint.
  destruct (Number_toString_spec turn) as (Hlit & Hparse & Hfree).
  edestruct (checkpoint_text_matches
               (tree_name (captured_files r))
               (ident_line (pi_checkpoint (toISOString now)) (now / 1000))
               (ident_line (pi_checkpoint (toISOString now)) (now / 1000))
               id sid (Number_toString turn) (captured_head r)
               (tree_name (index r)) (tree_name (captured_files r))
               (toISOString now))
    as (E1 & E2 & E3 & E4 & E5 & E6).
  all: try (apply plain_one_line, tree_name_plain).
  all: try (apply tree_name_plain).
  all: try done.
  1,2: unfold ident_line; cbn [i_name i_email pi_checkpoint];
       repeat (apply one_line_app; [by vm_compute|]);
       apply one_line_app; [|by vm_compute];
       apply free_of_space_line; by destruct (Number_toString_spec (now / 1000)) as (_ & _ & ?).
  - unfold check_ref_format in Href. rewrite !andb_true_iff, !negb_true_iff in Href.
    destruct Href as [[[[Hbad _] _] _] _].
    apply bad_ref_char_one_line in Hbad. unfold one_line in *.
    rewrite !free_of_app in Hbad. by repeat (apply andb_prop in Hbad as [_ Hbad]).
  - by apply free_of_space_line.
  - by apply plain_one_line.
  - apply free_of_space_line, toISOString_free.
  - apply Hhp.
  - apply toISOString_nonempty.
  - unfold record_of_text. rewrite E1, E2, E3, E4, E5, E6. simpl.
    rewrite Hparse, Hsid3, Hht, !plain_trim by apply tree_name_plain.
    rewrite trim_free by apply toISOString_free.
    unfold Date_parse. by rewrite Hms.
Qed.

Lemma valid_refs_captured r id sid turn now ms :
  valid_refs r → check_ref_format (REF_BASE +:+ "/" +:+ id) = true →
  valid_refs (captured_repo r id sid turn now ms).
Proof.
  intros Hv Href name sha. unfold captured_repo. simpl.
  intros [[<- <-]|[_ Hold]]%lookup_insert_Some.
  - split; [done|]. left. rewrite lookup_insert_eq. eauto.
  - destruct (Hv _ _ Hold) as [? Hobj]. split; [done|].
    destruct Hobj as [Hc|Ht]; [left|right].
    + apply lookup_insert_is_Some'. by right.
    + apply lookup_insert_is_Some'. right. apply lookup_insert_is_Some'. by right.
Qed.

(** X14 (a checkpoint survives the session).  A record that
    [createCheckpoint] returns for a session id that is not empty, is
    on one line and has no white space around it, in a repository
    whose refs are well formed, is known again after [session_start]
    in a new instance of the hook on that session: it is among the
    records that the handler loads. *)
Theorem checkpoint_survives_resume cwd id turn sid now m r m' d file w :
  repository m = Some r → valid_refs r →
  (∀ h, head r = Some h → plain h) →
  tidy sid →
  createCheckpoint cwd id turn sid now m = (m', Return d) →
  machine_of w = m' →
  nonempty file = true → session_files w !! file = Some sid →
  let w' := (session_start (mkContext cwd (Some file)) w).1 in
  d ∈ completedCheckpoints (hook w') ∧
  gitAvailable (hook w') = true ∧ currentSessionId (hook w') = sid.
Proof.
  intros Hr Hv Hhead Hsid Hcreate Hm Hfile Hfiles. cbv zeta.
  destruct (createCheckpoint_Return _ _ _ _ _ _ _ _ _ Hr Hcreate)
    as (ms & Hms & Href & -> & Hr').
  pose proof (valid_refs_captured r id sid turn now ms Hv Href) as Hv'.
  pose proof (captured_text_loads r id sid turn now ms m' Hms Href Hhead Hsid Hr')
    as Hload.
  destruct (listCheckpointRefs_spec cwd m' _ Hr' Hv') as (ids & Hids & _ & Hperm).
  assert (id ∈ ids) as Hin.
  { apply (list_elem_of_fmap_inj_2 (String.app checkpoint_prefix)).
    rewrite Hperm. apply elem_of_checkpoint_refs. rewrite startsWith_app.
    split; [|done]. unfold captured_repo. simpl.
    change (checkpoint_prefix +:+ id) with ((REF_BASE +:+ "/") +:+ id).
    rewrite <- string_app_assoc, lookup_insert_eq. eauto. }
  destruct Hsid as (Hne & Hline & Htrim).
  destruct file as [|a file]; [done|].
  eassert (session_start (mkContext cwd (Some (String a file))) w = _) as ->.
  { unfold session_start, bind at 1, on_machine, isGitRepo, try_catch.
    unfold bind at 1, execAsync, run. rewrite Hm, Hr'. cbn [fst snd ret].
    unfold bind at 1, modify. cbn [negb].
    cbn [ctx_sessionFile].
    unfold bind at 1, modify. unfold bind at 1, gets, getSessionIdFromFile.
    cbn [session_files set_hook set_machine]. rewrite Hfiles.
    cbn [default from_option Datatypes.id].
    unfold bind at 1, modify. rewrite Hne.
    erewrite loadCheckpointsForSession_spec by (cbn [machine_of]; exact Hids).
    reflexivity. }
  cbn [fst hook set_hook completedCheckpoints set_completed gitAvailable
       currentSessionId set_currentSessionId set_currentSessionFile
       set_gitAvailable machine_of set_machine].
  split; [|done].
  apply (foldl_load_one_loads sid m' ids [] id); try done.
  by intros c Hc%not_elem_of_nil.
Qed.

End Persistence.

Section Restore2.

Context `{ObjectNames}.

Lemma restoreCheckpoint_Return cwd rec m r m' :
  repository m = Some r →
  restoreCheckpoint cwd rec m = (m', Return tt) →
  headSha rec ≠ ZEROS ∧
  ∃ r1 r2 r4,
    reset_hard (headSha rec) r = Some r1 ∧
    read_tree_reset (worktreeTreeSha rec) r1 = Some r2 ∧
    read_tree_reset (indexTreeSha rec) (checkout_index r2) = Some r4 ∧
    m' = set_repository r4 m.
Proof.
  intros Hr Hres.
  destruct (decide (headSha rec = ZEROS)) as [Hz|Hz].
  { unfold restoreCheckpoint, bind in Hres. rewrite getRepoRoot_spec, Hr, Hz in Hres.
    done. }
  split; [done|].
  rewrite (restoreCheckpoint_spec _ _ _ r) in Hres by done.
  destruct (reset_hard _ r) as [r1|] eqn:E1; [|done].
  destruct (read_tree_reset _ r1) as [r2|] eqn:E2; [|done].
  destruct (read_tree_reset _ (checkout_index r2)) as [r4|] eqn:E4; [|done].
  injection Hres as <-. by exists r1, r2, r4.
Qed.

Lemma restoreCheckpoint_restorable cwd rec m r :
  repository m = Some r → restorable r rec →
  ∃ r4, restoreCheckpoint cwd rec m = (set_repository r4 m, Return tt).
Proof.
  intros Hr (Hz & (co & Hco & [t Ht]) & [tw Htw] & [ti Hti]).
  rewrite (restoreCheckpoint_spec _ _ _ r) by done.
  unfold reset_hard. rewrite Hco. simpl. rewrite Ht. simpl.
  unfold read_tree_reset. simpl. rewrite Htw. simpl. rewrite Hti. simpl.
  by eexists.
Qed.

(** X6 (when a restore succeeds).  [restoreCheckpoint] returns exactly
    when it runs in a repository, the head of the record is not the
    sentinel and names a commit of the store whose tree is there, and
    the working tree snapshot and the index tree of the record are in
    the store. *)
Theorem restoreCheckpoint_succeeds_iff cwd rec m :
  (restoreCheckpoint cwd rec m).2 = Return tt ↔
  ∃ r, repository m = Some r ∧ restorable r rec.
Proof.
  unfold restorable. split.
  - intros Hres. destruct (repository m) as [r|] eqn:Hr.
    + exists r. split; [done|].
      destruct (restoreCheckpoint cwd rec m) as [m' o] eqn:E. simpl in Hres. subst o.
      destruct (restoreCheckpoint_Return _ _ _ _ _ Hr E)
        as (Hz & r1 & r2 & r4 & E1 & E2 & E4 & _).
      split; [done|]. unfold reset_hard in E1.
      destruct (commits r !! headSha rec) as [co|]; simpl in E1; [|done].
      destruct (trees r !! c_tree co) as [t|] eqn:Et; simpl in E1; [|done].
      injection E1 as <-. split; [eauto|].
      unfold read_tree_reset in E2. simpl in E2.
      destruct (trees r !! worktreeTreeSha rec) as [tw|]; simpl in E2; [|done].
      injection E2 as <-. split; [eauto|].
      unfold read_tree_reset in E4. simpl in E4.
      by destruct (trees r !! indexTreeSha rec).
    + unfold restoreCheckpoint, bind in Hres.
      by rewrite getRepoRoot_spec, Hr in Hres.
  - intros (r & Hr & Hres).
    by destruct (restoreCheckpoint_restorable cwd rec m r Hr Hres) as [r4 ->].
Qed.


End Restore2.

Section RoundTrip2.

Context `{PlainNames} `{Engine}.


End RoundTrip2.

Section Capture2.

Context `{PlainNames} `{Engine}.

(** X4 (the commit of a checkpoint).  After a capture that succeeds
    the ref of the checkpoint names a commit without parents whose
    tree is the working tree snapshot of the record and whose
    committer time, by which [pruneCheckpoints] sorts, is the time of
    the capture in whole seconds. *)
Theorem checkpoint_commit_of_capture cwd id turn sid now m r m' d :
  repository m = Some r →
  createCheckpoint cwd id turn sid now m = (m', Return d) →
  ∃ r' sha co,
    repository m' = Some r' ∧
    refs r' !! (REF_BASE +:+ "/" +:+ id) = Some sha ∧
    commits r' !! sha = Some co ∧
    c_tree co = worktreeTreeSha d ∧ c_parents co = [] ∧
    c_time co = now / 1000 ∧ timestamp d = Num now ∧
    ref_date r' (REF_BASE +:+ "/" +:+ id) = Some (now / 1000).
Proof.
  intros Hr Hc.
  destruct (createCheckpoint_Return _ _ _ _ _ _ _ _ _ Hr Hc)
    as (ms & Hms & _ & -> & Hr').
  pose proof (parse_iso_toISOString_Some _ _ Hms) as ->.
  eexists _, _, _. split; [exact Hr'|].
  unfold ref_date, committerdate, captured_repo. simpl.
  rewrite !lookup_insert_eq. simpl. rewrite lookup_insert_eq.
  by repeat split.
Qed.

(** X5 (a capture before the first commit).  In a repository without
    a commit a capture that succeeds records the sentinel of forty
    zeros as the head, and no restore of that record ever succeeds:
    wherever it runs it throws and changes nothing. *)
Theorem unborn_capture_never_restores cwd id turn sid now m r m' d cwd2 m2 :
  repository m = Some r → head r = None →
  createCheckpoint cwd id turn sid now m = (m', Return d) →
  headSha d = ZEROS ∧ ∃ e, restoreCheckpoint cwd2 d m2 = (m2, Throw e).
Proof.
  intros Hr Hh Hc.
  destruct (createCheckpoint_Return _ _ _ _ _ _ _ _ _ Hr Hc)
    as (ms & _ & _ & -> & _).
  assert (headSha (captured_record r id sid turn now) = ZEROS) as Hz.
  { simpl. unfold captured_head. by rewrite Hh. }
  split; [done|].
  unfold restoreCheckpoint, bind. rewrite getRepoRoot_spec, Hz.
  destruct (repository m2); by eexists.
Qed.

End Capture2.

Section Outside.

Context `{ObjectNames} `{Engine}.

(** X12 (outside a repository).  Where there is no repository around
    the working directory, [isGitRepo] returns false, a capture and a
    restore throw, a load returns null, the list of the checkpoints is
    empty and a prune returns; none of them changes anything. *)
Theorem outside_a_repository cwd id turn sid now rec refName m :
  repository m = None →
  isGitRepo cwd m = (m, Return false) ∧
  (∃ e, createCheckpoint cwd id turn sid now m = (m, Throw e)) ∧
  (∃ e, restoreCheckpoint cwd rec m = (m, Throw e)) ∧
  loadCheckpointFromRef cwd refName m = (m, Return None) ∧
  listCheckpointRefs cwd m = (m, Return []) ∧
  pruneCheckpoints cwd m = (m, Return tt).
Proof.
  intros Hr. split; [|split; [|split; [|split; [|split]]]].
  - unfold isGitRepo, try_catch, bind, execAsync, run. by rewrite Hr.
  - unfold createCheckpoint, bind. rewrite getRepoRoot_spec, Hr. by eexists.
  - unfold restoreCheckpoint, bind. rewrite getRepoRoot_spec, Hr. by eexists.
  - rewrite loadCheckpointFromRef_spec. unfold commit_text_of. by rewrite Hr.
  - unfold listCheckpointRefs, try_catch, bind. by rewrite getRepoRoot_spec, Hr.
  - unfold pruneCheckpoints, try_catch, bind. by rewrite getRepoRoot_spec, Hr.
Qed.

End Outside.

#[local] Instance same_outside_preorder dir : PreOrder (same_outside dir).
Proof.
  split; unfold same_outside.
  - by intros m.
  - intros m1 m2 m3 [-> H12] [-> H23]. split; [done|].
    intros file Hf. by rewrite H23, H12.
Qed.


Section Cleanup.

Context `{ObjectNames} `{Engine}.



End Cleanup.

(** ** The order of the known records *)

Lemma sort_insert_descending x l :
  timed x → Forall timed l → StronglySorted (flip not_later) l →
  StronglySorted (flip not_later) (sort_insert descending x l).
Proof.
  intros [zx Hx] Hl Hs. induction Hs as [|y l Hs IH Hy]; simpl.
  - repeat constructor.
  - apply Forall_cons in Hl as [[zy Hy'] Hl].
    unfold descending at 1. rewrite Hx, Hy'. simpl.
    destruct (0 <? zy - zx) eqn:E.
    + constructor; [by apply IH|].
      rewrite sort_insert_perm. constructor; [|done].
      unfold flip, not_later, ge. rewrite Hx, Hy'. apply Z.leb_le.
      apply Z.ltb_lt in E. lia.
    + apply Z.ltb_ge in E.
      assert (not_later y x) as Hxy.
      { unfold not_later, ge. rewrite Hx, Hy'. apply Z.leb_le. lia. }
      constructor; [by constructor|].
      constructor; [done|].
      eapply Forall_impl; [exact Hy|]. intros c Hc. unfold flip in *.
      by eapply not_later_trans.
Qed.

Lemma sort_descending l :
  Forall timed l → StronglySorted (flip not_later) (sort descending l).
Proof.
  induction l as [|x l IH]; simpl; intros Hl; [constructor|].
  apply Forall_cons in Hl as [Hx Hl].
  apply sort_insert_descending; [done| |by apply IH].
  by rewrite sort_perm.
Qed.

Lemma not_later_refl d : timed d → not_later d d.
Proof. intros [z Hz]. unfold not_later, ge. rewrite Hz. apply Z.leb_le. lia. Qed.

(** X15 (the latest and the oldest record).  When every known record
    has a number as its time, the record that the branch handler calls
    the latest is a known record that none is later than, the record
    that "Restore oldest" restores is a known record that none is
    earlier than, and an older checkpoint is offered exactly when
    there are two records or more. *)
Theorem latest_and_oldest records t cp latest older :
  Forall timed records →
  selectCheckpoint records t = Selected cp latest older →
  (latest ∈ records ∧ ∀ d, d ∈ records → not_later d latest) ∧
  (∃ oldest, last (allCheckpoints records) = Some oldest ∧
             oldest ∈ records ∧ ∀ d, d ∈ records → not_later oldest d) ∧
  (older = true ↔ (2 ≤ length records)%nat).
Proof.
  intros Htimed Hsel. unfold selectCheckpoint in Hsel.
  pose proof (sort_descending records Htimed) as Hsorted.
  pose proof (sort_perm descending records) as Hperm.
  change (sort descending records) with (allCheckpoints records) in *.
  destruct (allCheckpoints records) as [|first others] eqn:Hall; [done|].
  destruct (checkpointsAtOrAfterTarget records t) as [|c ?]; [done|].
  injection Hsel as _ <- <-.
  assert (∀ d, d ∈ records → timed d) as Ht.
  { intros d Hd. by eapply Forall_forall in Htimed. }
  split; [|split].
  - split; [rewrite <- Hperm; by left|].
    intros d Hd. rewrite <- Hperm in Hd.
    apply StronglySorted_inv in Hsorted as [_ Hfirst].
    apply elem_of_cons in Hd as [->|Hd].
    + apply not_later_refl, Ht. rewrite <- Hperm. by left.
    + by eapply Forall_forall in Hfirst.
  - destruct (last (first :: others)) as [oldest|] eqn:Hlast.
    2:{ by apply last_None in Hlast. }
    exists oldest. split; [done|].
    apply last_Some in Hlast as [front Hfront].
    assert (oldest ∈ records) as Hin.
    { rewrite <- Hperm, Hfront. apply elem_of_app. right. by left. }
    split; [done|]. intros d Hd. rewrite <- Hperm, Hfront in Hd.
    rewrite Hfront in Hsorted.
    apply elem_of_app in Hd as [Hd|Hd%list_elem_of_singleton].
    + by eapply (StronglySorted_app_1_elem_of (flip not_later)) in Hsorted;
        [|exact Hd|by left].
    + subst d. by apply not_later_refl, Ht.
  - rewrite <- (Permutation_length Hperm). simpl.
    destruct others; simpl; split; (done || lia).
Qed.

Section Branch2.

Context `{ObjectNames} `{Engine}.

Lemma save_and_restore_run event ctx inp cp w :
  save_and_restore event ctx inp cp w =
  match createCheckpoint (ctx_cwd ctx) (before_restore_id w inp)
          (targetTurnIndex event) (currentSessionId (hook w))
          (now_capture inp) (machine_of w) with
  | (m1, Return before) =>
      let w1 := emit (CallRestore (id cp))
                  (push_completed before
                     (set_machine m1
                        (emit (CallCreate (before_restore_id w inp)) w))) in
      (set_machine (restoreCheckpoint (ctx_cwd ctx) cp m1).1 w1,
       (restoreCheckpoint (ctx_cwd ctx) cp m1).2)
  | (m1, Throw e) =>
      (set_machine m1 (emit (CallCreate (before_restore_id w inp)) w), Throw e)
  end.
Proof.
  unfold save_and_restore, before_restore_id, bind, gets, modify, on_machine.
  simpl.
  destruct (createCheckpoint _ _ _ _ _ (machine_of w)) as [m1 [before|e]]; simpl.
  - by destruct (restoreCheckpoint _ cp m1) as [m2 o].
  - done.
Qed.

(** X16 (the restore of "Code only" and "Restore all").  On these two
    choices the handler first captures the state as it is, under the
    id of the session followed by -before-restore- and the time.  When
    the capture succeeds its record joins the known records and the
    selected record is restored on the machine that the capture left.
    When the capture throws, nothing is restored: the machine is as
    the failed capture left it, the known records are unchanged, and
    the error is notified. *)
Theorem restore_after_capture event ctx inp w c cp latest older :
  choice inp = Some c → c ≠ "Cancel" →
  startsWith c "Restore oldest" = false →
  startsWith c "Code only" = true ∨ startsWith c "Restore all" = true →
  selectCheckpoint (completedCheckpoints (hook w)) (targetTimestamp event inp)
    = Selected cp latest older →
  let w' := (branch_decide event ctx inp w).1 in
  match createCheckpoint (ctx_cwd ctx) (before_restore_id w inp)
          (targetTurnIndex event) (currentSessionId (hook w))
          (now_capture inp) (machine_of w) with
  | (m1, Return before) =>
      completedCheckpoints (hook w') = completedCheckpoints (hook w) ++ [before] ∧
      machine_of w' = (restoreCheckpoint (ctx_cwd ctx) cp m1).1 ∧
      ∃ note, log w' = log w ++ [CallCreate (before_restore_id w inp);
                                 CallRestore (id cp); note]
  | (m1, Throw e) =>
      completedCheckpoints (hook w') = completedCheckpoints (hook w) ∧
      machine_of w' = m1 ∧
      ∃ message, log w' = log w ++ [CallCreate (before_restore_id w inp);
                                    Notify (message +:+ e) "error"]
  end.
Proof.
  intros Hc Hcancel Hold Hchoice Hsel. cbv zeta.
  unfold branch_decide. erewrite bind_Return by reflexivity.
  rewrite Hsel, Hc.
  destruct c as [|a c]; [by destruct Hchoice|].
  apply String.eqb_neq in Hcancel. rewrite Hcancel, Hold.
  assert (∀ ok failed (result : branch_result),
    let w' := ((try_catch (save_and_restore event ctx inp cp ;;; notify ok "info")
                  (fun error => notify (failed +:+ error) "error") ;;;
                ret result) w).1 in
    match createCheckpoint (ctx_cwd ctx) (before_restore_id w inp)
            (targetTurnIndex event) (currentSessionId (hook w))
            (now_capture inp) (machine_of w) with
    | (m1, Return before) =>
        completedCheckpoints (hook w')
        = completedCheckpoints (hook w) ++ [before] ∧
        machine_of w' = (restoreCheckpoint (ctx_cwd ctx) cp m1).1 ∧
        ∃ note, log w' = log w ++ [CallCreate (before_restore_id w inp);
                                   CallRestore (id cp); note]
    | (m1, Throw e) =>
        completedCheckpoints (hook w') = completedCheckpoints (hook w) ∧
        machine_of w' = m1 ∧
        ∃ message, log w' = log w ++ [CallCreate (before_restore_id w inp);
                                      Notify (message +:+ e) "error"]
    end) as Hboth.
  { intros ok failed result. cbv zeta.
    unfold bind, try_catch, notify, modify, ret.
    rewrite save_and_restore_run.
    destruct (createCheckpoint _ _ _ _ _ (machine_of w)) as [m1 [before|e]].
    - cbv zeta. destruct (restoreCheckpoint _ cp m1) as [m2 [[]|e]]; simpl;
        (split; [done|]); (split; [done|]); eexists;
        by rewrite <- !(assoc_L (++)).
    - simpl. split; [done|]. split; [done|]. exists failed.
      by rewrite <- !(assoc_L (++)). }
  destruct (startsWith (String a c) "Code only") eqn:Hcode.
  - apply Hboth.
  - destruct Hchoice as [?|Hall]; [done|]. rewrite Hall. apply Hboth.
Qed.

End Branch2.

(** ** Handlers that never throw *)

Section Returns.

Context {S : Type}.

Lemma returns_ret {A} (a : A) : returns (ret (S:=S) a).
Proof. intros s. by eexists _, _. Qed.

Lemma returns_gets {A} (f : S → A) : returns (gets f).
Proof. intros s. by eexists _, _. Qed.

Lemma returns_modify (f : S → S) : returns (modify f).
Proof. intros s. by eexists _, _. Qed.

Lemma returns_bind {A B} (c : M S A) (k : A → M S B) :
  returns c → (∀ a, returns (k a)) → returns (bind c k).
Proof.
  intros Hc Hk s. unfold bind. destruct (Hc s) as (s' & a & ->). apply Hk.
Qed.

Lemma returns_try_catch {A} (c : M S A) h :
  (∀ e, returns (h e)) → returns (try_catch c h).
Proof.
  intros Hh s. unfold try_catch. destruct (c s) as [s' [a|e]]; [|apply Hh].
  by eexists _, _.
Qed.

End Returns.

Lemma returns_on_machine {A} (c : M machine A) :
  returns c → returns (on_machine c).
Proof.
  intros Hc w. unfold on_machine. destruct (Hc (machine_of w)) as (m & a & ->).
  by eexists _, _.
Qed.

(** One step of a proof that a computation returns. *)
Ltac returns_step :=
  lazymatch goal with
  | |- returns (ret _) => apply returns_ret
  | |- returns (gets _) => apply returns_gets
  | |- returns (modify _) => apply returns_modify
  | |- returns (notify _ _) => apply returns_modify
  | |- returns (bind _ _) => apply returns_bind; [|intros ?]
  | |- returns (try_catch _ _) => apply returns_try_catch; intros ?
  | |- returns (on_machine _) => apply returns_on_machine
  | |- returns (if ?b then _ else _) => destruct b
  | |- returns (match ?x with _ => _ end) => destruct x
  end.

#[local] Instance same_pending_preorder : PreOrder same_pending.
Proof.
  split; unfold same_pending; [done|]. intros w1 w2 w3 H12 H23. congruence.
Qed.

Lemma keeps_gets {S A} (R : relation S) `{!PreOrder R} (f : S → A) :
  keeps R (gets f).
Proof. by intros s. Qed.

Lemma keeps_modify {S} (R : relation S) (f : S → S) :
  (∀ s, R s (f s)) → keeps R (modify f).
Proof. intros Hf s. apply Hf. Qed.

Lemma on_machine_same_pending {A} (c : M machine A) :
  keeps same_pending (on_machine c).
Proof. intros w. unfold on_machine. by destruct (c (machine_of w)). Qed.

(** One step of a proof that a handler keeps the promises. *)
Ltac pending_step :=
  lazymatch goal with
  | |- keeps _ (gets _) => apply keeps_gets; apply _
  | |- keeps _ (modify _) => apply keeps_modify; intros ?
  | |- keeps _ (notify _ _) => apply keeps_modify; intros ?
  | |- keeps _ (on_machine _) => apply on_machine_same_pending
  | |- _ => keeps_step
  end.

Section NeverThrow.

Context `{ObjectNames} `{Engine}.

Lemma load_refs_same_pending cwd sid refs :
  keeps same_pending (load_refs cwd sid refs).
Proof.
  intros w. rewrite load_refs_spec. by destruct w as [? ? [] ? ?].
Qed.

Lemma loadCheckpointsForSession_same_pending cwd sid clear :
  keeps same_pending (loadCheckpointsForSession cwd sid clear).
Proof.
  unfold loadCheckpointsForSession. repeat pending_step.
  - by destruct clear.
  - apply load_refs_same_pending.
Qed.

Lemma session_start_same_pending ctx : keeps same_pending (session_start ctx).
Proof.
  unfold session_start.
  repeat first [ apply loadCheckpointsForSession_same_pending | pending_step ];
    done.
Qed.

Lemma session_switch_same_pending e : keeps same_pending (session_switch e).
Proof. unfold session_switch. repeat pending_step; done. Qed.

Lemma branch_decide_same_pending event ctx inp :
  keeps same_pending (branch_decide event ctx inp).
Proof.
  unfold branch_decide, save_and_restore. repeat pending_step; done.
Qed.

Lemma settle_no_rejection i now lucky w :
  no_rejection w → no_rejection (settle i now lucky w).
Proof.
  unfold no_rejection. intros Hw.
  destruct (settle_spec i now lucky w) as (_ & _ & Hlen & Hother & Hi).
  apply Forall_lookup. intros j p Hj.
  destruct (decide (j = i)) as [->|Hne].
  - destruct (pendingCheckpoints (hook w) !! i) as [[cwd id turn sid|v|e]|] eqn:E.
    + destruct Hi as (v & Hv & _). rewrite Hv in Hj. by injection Hj as <-.
    + rewrite Hi in Hj. by eapply (Forall_lookup_1 _ _ _ _ Hw).
    + rewrite Hi in Hj. by eapply (Forall_lookup_1 _ _ _ _ Hw).
    + rewrite Hi in Hj. by eapply (Forall_lookup_1 _ _ _ _ Hw).
  - rewrite Hother in Hj by done. by eapply (Forall_lookup_1 _ _ _ _ Hw).
Qed.

Lemma settle_from_no_rejection n i inp w :
  no_rejection w → no_rejection (settle_from i n inp w).
Proof.
  revert i w. induction n as [|n IH]; intros i w Hw; [done|].
  simpl. by apply IH, settle_no_rejection.
Qed.

Lemma await_all_returns inp w :
  no_rejection w →
  await_all inp w
  = (settle_from 0 (length (pendingCheckpoints (hook w))) inp w, Return tt).
Proof.
  intros Hw. unfold await_all.
  pose proof (settle_from_no_rejection
                (length (pendingCheckpoints (hook w))) 0 inp w Hw) as Hs.
  unfold no_rejection in Hs.
  destruct (find_map rejection _) as [e|] eqn:E; [|done].
  apply find_map_Some in E as (p & Hp & He).
  eapply Forall_forall in Hs; [|exact Hp]. congruence.
Qed.

Lemma loadCheckpointsForSession_returns cwd sid clear :
  returns (loadCheckpointsForSession cwd sid clear).
Proof.
  intros w. destruct (listCheckpointRefs_total cwd (machine_of w)) as [ids Hids].
  rewrite (loadCheckpointsForSession_spec _ _ _ _ _ Hids). by eexists _, _.
Qed.

Lemma branch_prepare_returns event ctx inp w :
  no_rejection w →
  ∃ w', branch_prepare event ctx inp w = (w', Return tt) ∧ no_rejection w'.
Proof.
  intros Hw. unfold branch_prepare, bind at 1. rewrite await_all_returns by done.
  set (w1 := settle_from _ _ _ _).
  assert (no_rejection w1) as Hw1 by by apply settle_from_no_rejection.
  match goal with |- ∃ w', ?c w1 = _ ∧ _ => set (rest := c) end.
  assert (returns rest) as Hret.
  { unfold rest. repeat first [ apply loadCheckpointsForSession_returns | returns_step ]. }
  assert (keeps same_pending rest) as Hkeep.
  { unfold rest.
    repeat first [ apply loadCheckpointsForSession_same_pending | pending_step ]. }
  destruct (Hret w1) as (w' & [] & Hrest). exists w'. split; [done|].
  specialize (Hkeep w1). rewrite Hrest in Hkeep.
  unfold no_rejection, same_pending in *. simpl in Hkeep. by rewrite Hkeep.
Qed.

Lemma branch_decide_returns event ctx inp : returns (branch_decide event ctx inp).
Proof. unfold branch_decide. repeat returns_step. Qed.

Lemma step_no_rejection e w : no_rejection w → no_rejection (step e w).
Proof.
  intros Hw. destruct e as [ctx|e ctx|e ctx inp|e|i now lucky|cwd|m files]; simpl.
  - unfold no_rejection. by rewrite (session_start_same_pending ctx w).
  - unfold turn_start.
    destruct (negb _ || _); [done|]. simpl.
    match goal with |- context [if negb (nonempty (currentSessionId (hook ?x))) then _ else _] =>
      set (w1 := x) end.
    assert (pendingCheckpoints (hook w1) = pendingCheckpoints (hook w)) as Hp.
    { unfold w1. by destruct (_ && _). }
    unfold no_rejection in *.
    destruct (negb (nonempty (currentSessionId (hook w1)))); simpl.
    + by rewrite Hp.
    + rewrite Hp. apply Forall_app. split; [done|]. by apply Forall_singleton.
  - unfold branch, bind at 1, gets.
    destruct (negb (gitAvailable (hook w))); [done|].
    unfold bind at 1.
    destruct (branch_prepare_returns e ctx inp w Hw) as (w' & -> & Hw').
    unfold no_rejection in *. by rewrite (branch_decide_same_pending e ctx inp w').
  - unfold no_rejection. by rewrite (session_switch_same_pending e w).
  - by apply settle_no_rejection.
  - unfold run_prune. destruct (background_prunes w); [done|].
    unfold on_machine. by destruct (pruneCheckpoints _ _).
  - done.
Qed.

Lemma run_events_no_rejection es w :
  no_rejection w → no_rejection (run_events es w).
Proof.
  revert w. induction es as [|e es IH]; intros w Hw; [done|].
  simpl. by apply IH, step_no_rejection.
Qed.

(** X18 (the handlers never throw).  In a session of the hook,
    whatever events are delivered, whatever the captures and the git
    commands do and whatever happens to the repository in between, no
    promise of a capture is rejected, and each of the four handlers
    returns: no failure of a git command or of a capture leaves a
    handler as an exception. *)
Theorem handlers_never_throw m files es :
  let w := run_events es (mkWorld m files initial_state 0 []) in
  no_rejection w ∧
  (∀ ctx, (session_start ctx w).2 = Return tt) ∧
  (∀ e ctx, (turn_start e ctx w).2 = Return tt) ∧
  (∀ e ctx inp, ∃ result, (branch e ctx inp w).2 = Return result) ∧
  (∀ e, (session_switch e w).2 = Return tt).
Proof.
  cbv zeta. set (w := run_events es _).
  assert (no_rejection w) as Hw.
  { apply run_events_no_rejection. constructor. }
  split; [done|]. split; [|split; [|split]].
  - intros ctx.
    assert (returns (session_start ctx)) as Hret.
    { unfold session_start, isGitRepo.
      repeat first [ apply loadCheckpointsForSession_returns | returns_step ]. }
    by destruct (Hret w) as (w' & [] & ->).
  - intros e ctx. by destruct (turn_start_spec e ctx w) as (w' & -> & _).
  - intros e ctx inp. unfold branch, bind at 1, gets.
    destruct (negb (gitAvailable (hook w))); [by eexists|].
    unfold bind at 1.
    destruct (branch_prepare_returns e ctx inp w Hw) as (w' & -> & _).
    destruct (branch_decide_returns e ctx inp w') as (w'' & result & ->).
    by eexists.
  - intros e.
    assert (returns (session_switch e)) as Hret.
    { unfold session_switch. repeat returns_step. }
    by destruct (Hret w) as (w' & [] & ->).
Qed.

End NeverThrow.

(** ** A capture that fails *)

Section OnThrow.

Context {S : Type} (R : relation S) `{!PreOrder R}.

Lemma keeps_on_throw_ret {A} (a : A) : keeps_on_throw R (ret a).
Proof. by intros s. Qed.

Lemma keeps_on_throw_keeps {A} (c : M S A) : keeps R c → keeps_on_throw R c.
Proof. intros Hc s. specialize (Hc s). by destruct (c s) as [s' [a|e]]. Qed.

Lemma keeps_on_throw_bind {A B} (c : M S A) (k : A → M S B) :
  keeps R c → (∀ a, keeps_on_throw R (k a)) → keeps_on_throw R (bind c k).
Proof.
  intros Hc Hk s. unfold bind. specialize (Hc s).
  destruct (c s) as [s' [a|e]]; [|exact Hc].
  specialize (Hk a s'). destruct (k a s') as [s'' [b|e]]; [done|]. by etrans.
Qed.

Lemma keeps_on_throw_then_ret {A B} (c : M S A) (b : B) :
  keeps_on_throw R c → keeps_on_throw R (c ;;; ret b).
Proof.
  intros Hc s. unfold bind. specialize (Hc s). by destruct (c s) as [s' [a|e]].
Qed.

Lemma keeps_on_throw_try_finally {A} (c : M S A) f :
  keeps_on_throw R c → (∀ s, R s (f s)) → keeps_on_throw R (try_finally c f).
Proof.
  intros Hc Hf s. unfold try_finally. specialize (Hc s).
  destruct (c s) as [s' [a|e]]; [done|]. etrans; [exact Hc|apply Hf].
Qed.

End OnThrow.

#[local] Instance same_refs_preorder : PreOrder same_refs.
Proof.
  split; unfold same_refs; [done|]. by intros m1 m2 m3 [-> ->] [-> ->].
Qed.

Section Failure.

Context `{ObjectNames} `{Engine}.

Lemma run_same_refs c :
  match c with
  | RevParseIsInsideWorkTree | RevParseShowToplevel | RevParseHEAD
  | WriteTree _ | AddAll (Some _) | CommitTree _ _ _ _ => True
  | _ => False
  end →
  keeps same_refs (run c).
Proof.
  intros Hc m. unfold run, fatal, same_refs, working_state, refs_of.
  destruct (repository m) as [r|] eqn:Hr; simpl; [|by rewrite Hr].
  destruct c; simpl in Hc; try done; simpl; rewrite ?Hr; try done.
  - destruct (head r) eqn:Hh; simpl; rewrite Hr; simpl; by rewrite Hh.
  - destruct index_file; [|done]. simpl. by rewrite Hr.
  - by destruct (trees r !! _), (ident_time author), (ident_time committer);
      simpl; rewrite ?Hr.
Qed.

Lemma update_ref_on_throw ref value :
  keeps_on_throw same_refs (run (UpdateRef ref value)).
Proof.
  intros m. unfold run, fatal. destruct (repository m); [|done].
  by destruct (_ && _).
Qed.

(** X3 (a capture that fails leaves no ref).  When
    [createCheckpoint] throws, the refs are what they were, and so are
    HEAD, the staging area and the files: the ref of a checkpoint is
    made by the last command of a capture, and only objects that no
    ref names can be left of a capture that fails. *)
Theorem failed_capture_leaves_no_ref cwd id turn sid now m m' e :
  createCheckpoint cwd id turn sid now m = (m', Throw e) →
  refs_of m' = refs_of m ∧ working_state m' = working_state m.
Proof.
  intros Hc.
  assert (keeps_on_throw same_refs (createCheckpoint cwd id turn sid now)) as Hk.
  { unfold createCheckpoint, getRepoRoot, execAsync.
    repeat first
      [ apply keeps_on_throw_then_ret; apply update_ref_on_throw
      | apply keeps_on_throw_ret
      | apply keeps_on_throw_bind; [apply _| |intros ?]
      | apply keeps_on_throw_try_finally; [apply _| |done]
      | apply run_same_refs; done
      | keeps_step ].
    all: done. }
  specialize (Hk m). rewrite Hc in Hk. by destruct Hk.
Qed.

(** X17 (a capture that succeeds is registered).  When the promise of
    a turn runs and its capture succeeds, the record joins the known
    records as the last of them, the promise is fulfilled with it, the
    machine is the one that the capture left, the failure flag is what
    it was, and a prune is started in the background exactly when the
    draw of the random number says so. *)
Theorem settled_capture_is_registered i now lucky w cwd id turn sid m' d :
  pendingCheckpoints (hook w) !! i = Some (Pending cwd id turn sid) →
  createCheckpoint cwd id turn sid now (machine_of w) = (m', Return d) →
  let w' := settle i now lucky w in
  completedCheckpoints (hook w') = completedCheckpoints (hook w) ++ [d] ∧
  pendingCheckpoints (hook w')
  = <[i := Fulfilled (Some d)]> (pendingCheckpoints (hook w)) ∧
  machine_of w' = m' ∧
  checkpointingFailed (hook w') = checkpointingFailed (hook w) ∧
  log w' = log w ++ (if lucky then [CallPrune] else []) ∧
  background_prunes w'
  = (background_prunes w + (if lucky then 1 else 0))%nat.
Proof.
  intros Hi Hc. cbv zeta. unfold settle. rewrite Hi.
  unfold run_capture, try_catch, bind, on_machine, modify, ret. rewrite Hc.
  destruct lucky; simpl.
  - repeat split; (done || lia).
  - rewrite app_nil_r. repeat split; (done || lia).
Qed.

End Failure.

(** ** Ref names of the hook *)












Section Success.

Context `{PlainNames} `{Engine}.


End Success.

Section Retention2.

Context `{ObjectNames}.

Lemma valid_refs_without r l :
  valid_refs r → valid_refs (set_refs (without (locked r) l (refs r)) r).
Proof.
  intros Hv name sha. simpl. rewrite without_lookup.
  destruct (decide _); [done|]. apply Hv.
Qed.

Lemma checkpoint_refs_without r listing n :
  listing ≡ₚ checkpoint_refs r →
  (∀ d, d ∈ take n listing → d ∉ locked r) →
  checkpoint_refs (set_refs (without (locked r) (take n listing) (refs r)) r)
  ≡ₚ drop n listing.
Proof.
  intros Hperm Hunlocked.
  assert (NoDup listing) as Hnd by (rewrite Hperm; apply NoDup_checkpoint_refs).
  apply NoDup_Permutation.
  - apply NoDup_checkpoint_refs.
  - rewrite <- (take_drop n listing) in Hnd. by apply NoDup_app in Hnd as (_ & _ & ?).
  - intros name. rewrite elem_of_checkpoint_refs. simpl. rewrite without_lookup.
    rewrite <- (take_drop n listing) in Hnd. apply NoDup_app in Hnd as (_ & Hdisj & _).
    split.
    + destruct (decide _) as [|Hno]; [by intros [[? [=]] _]|].
      intros Hin. apply elem_of_checkpoint_refs in Hin.
      rewrite <- Hperm, <- (take_drop n listing) in Hin.
      apply elem_of_app in Hin as [Hin|Hin]; [|done].
      destruct Hno. split; [done|by apply Hunlocked].
    + intros Hin. rewrite decide_False.
      * apply elem_of_checkpoint_refs. rewrite <- Hperm. by eapply subseteq_drop.
      * intros [Hin' _]. by eapply Hdisj.
Qed.

Lemma for_each_ref_listing r :
  valid_refs r →
  ∃ listing, for_each_ref r true checkpoint_prefix = Some listing ∧
             listing ≡ₚ checkpoint_refs r.
Proof.
  intros Hv.
  destruct (for_each_ref_valid r true checkpoint_prefix Hv) as (ks & _ & Hl & Hn & _).
  eexists. split; [exact Hl|]. unfold checkpoint_refs. rewrite <- Hn.
  apply fmap_Permutation, merge_sort_Permutation.
Qed.

(** X20 (a second prune does nothing).  In a repository whose refs are
    well formed and of which no ref is locked, the state that
    [pruneCheckpoints] leaves has at most [MAX_CHECKPOINTS] checkpoint
    refs, and a second prune leaves it as it is. *)
Theorem pruneCheckpoints_twice cwd m r :
  repository m = Some r → valid_refs r → locked r = ∅ →
  let m1 := (pruneCheckpoints cwd m).1 in
  (∃ r1, repository m1 = Some r1 ∧
         (length (checkpoint_refs r1) ≤ MAX_CHECKPOINTS)%nat) ∧
  pruneCheckpoints cwd m1 = (m1, Return tt).
Proof.
  intros Hr Hv Hlocked. cbv zeta.
  destruct (for_each_ref_listing r Hv) as (listing & Hl & Hperm).
  rewrite (pruneCheckpoints_spec cwd m r listing Hr Hv Hl). cbn [fst].
  set (n := (length listing - MAX_CHECKPOINTS)%nat).
  set (r1 := set_refs (without (locked r) (take n listing) (refs r)) r).
  assert (valid_refs r1) as Hv1 by by apply valid_refs_without.
  assert (checkpoint_refs r1 ≡ₚ drop n listing) as Hkept.
  { apply checkpoint_refs_without; [done|].
    intros d _. rewrite Hlocked. apply not_elem_of_empty. }
  assert (length (checkpoint_refs r1) ≤ MAX_CHECKPOINTS)%nat as Hlen.
  { rewrite Hkept, length_drop. unfold n. lia. }
  split; [by exists r1|].
  destruct (for_each_ref_listing r1 Hv1) as (listing1 & Hl1 & Hperm1).
  rewrite (pruneCheckpoints_spec cwd (set_repository r1 m) r1 listing1
             eq_refl Hv1 Hl1).
  replace (length listing1 - MAX_CHECKPOINTS)%nat with 0%nat
    by (rewrite Hperm1; lia).
  change (take 0 listing1) with (@nil string).
  change (without (locked r1) [] (refs r1)) with (refs r1).
  by rewrite set_refs_id.
Qed.

End Retention2.

(** ** The sample repository *)

Lemma digest_plain p : plain (Sample.digest p).
Proof.
  unfold Sample.digest. split; [|apply pad_free].
  unfold pad. by destruct (pad_onto_spec 40 (Z.pos p mod 10 ^ 40) EmptyString)
    as ([|c s] & -> & ? & _).
Qed.

Lemma names_plain : @PlainNames Sample.names.
Proof. split; intros; apply digest_plain. Qed.



(** ** Examples *)

(** A restore that deletes files the snapshot does not have: a file
    staged after the checkpoint, and an untracked file below a
    directory that stands where the snapshot has a file. *)
Lemma C1_counterexample :
  Sample.checkpointed.2 = Return Sample.snapshot ∧
  Sample.restored.2 = Return tt ∧
  ∃ r', repository Sample.restored.1 = Some r' ∧
    (* a file staged after the checkpoint *)
    (tree_at Sample.later_repo (worktreeTreeSha Sample.snapshot) !! ["new.txt"] = None ∧
     worktree Sample.later_repo !! ["new.txt"] = Some "made after the checkpoint" ∧
     worktree r' !! ["new.txt"] = None) ∧
    (* an untracked file in the way of a file of the snapshot *)
    (tree_at Sample.later_repo (worktreeTreeSha Sample.snapshot) !! ["docs"; "notes.txt"] = None ∧
     index Sample.later_repo !! ["docs"; "notes.txt"] = None ∧
     worktree Sample.later_repo !! ["docs"; "notes.txt"] = Some "notes" ∧
     worktree r' !! ["docs"; "notes.txt"] = None).
Proof.
  split; [by vm_compute|]. split; [by vm_compute|].
  eexists. split; [by vm_compute|]. by vm_compute.
Qed.

Lemma C1_witness :
  ∃ r', repository Sample.restored.1 = Some r' ∧
        is_Some (worktree r' !! ["untracked.txt"]) ∧
        (tree_at Sample.later_repo (worktreeTreeSha Sample.snapshot)
           !! ["untracked.txt"] = None →
         commit_tree_at Sample.later_repo (headSha Sample.snapshot)
           !! ["untracked.txt"] = None →
         worktree r' !! ["untracked.txt"]
           = worktree Sample.later_repo !! ["untracked.txt"]).
Proof.
  apply (@C1_restore_keeps_untracked Sample.names "/work" Sample.snapshot
           Sample.later_machine Sample.later_repo ["untracked.txt"]).
  - reflexivity.
  - vm_compute. eauto.
  - left. by vm_compute.
  - apply (bool_decide_unpack _). by vm_compute.
  - apply (bool_decide_unpack _). by vm_compute.
Defined.



(** Restoring the record of a capture made before the first commit. *)
Lemma C4_witness :
  Sample.unborn_checkpointed.2 = Return Sample.unborn_snapshot ∧
  headSha Sample.unborn_snapshot = ZEROS ∧
  @restoreCheckpoint Sample.names "/work" Sample.unborn_snapshot
     Sample.unborn_checkpointed.1
  = (Sample.unborn_checkpointed.1, Throw unborn_head_error).
Proof.
  split; [by vm_compute|]. split; [reflexivity|].
  apply (@C4_unborn_head_guard Sample.names "/work" Sample.unborn_snapshot
           Sample.unborn_checkpointed.1 eq_refl).
  apply (bool_decide_unpack _). by vm_compute.
Defined.

(** The record of the sample capture is read back from its ref. *)
Lemma C9_witness :
  Sample.checkpointed.2 = Return Sample.snapshot ∧
  @loadCheckpointFromRef Sample.names Sample.engine "/work" "s1-turn-0-1"
     Sample.checkpointed.1
  = (Sample.checkpointed.1, Return (Some Sample.snapshot)).
Proof.
  assert (Sample.checkpointed.2 = Return Sample.snapshot) as Hc by by vm_compute.
  split; [exact Hc|].
  assert (tidy "s1") as Hsid by (vm_compute; repeat split).
  assert (∀ h, head Sample.first_repo = Some h → plain h) as Hhead.
  { intros h Hh.
    change (Some (@commit_name Sample.names Sample.first_commit) = Some h) in Hh.
    apply (inj Some) in Hh as <-. apply (@commit_name_plain _ names_plain). }
  assert (Sample.checkpointed = (Sample.checkpointed.1, Return Sample.snapshot))
    as Hcreate by (rewrite <- Hc; apply surjective_pairing).
  exact (@C9_persistence_round_trip Sample.names names_plain Sample.engine
           "/work" "s1-turn-0-1" 0 "s1" 1793615445123
           Sample.first_machine Sample.first_repo Sample.checkpointed.1
           Sample.snapshot eq_refl Hhead Hsid Hcreate).
Defined.

(** Two records that are not read back as they were returned: one
    with an empty session id, which is not read back at all, and one
    whose session id starts with a space, which is read back without
    the space. *)
Lemma C9_counterexample :
  (∃ d, Sample.blank_checkpointed.2 = Return d ∧
        sessionId d = EmptyString ∧
        (@loadCheckpointFromRef Sample.names Sample.engine "/work"
           "-before-restore-5" Sample.blank_checkpointed.1).2 = Return None) ∧
  (∃ d d', Sample.spaced_checkpointed.2 = Return d ∧
        sessionId d = " s1" ∧
        (@loadCheckpointFromRef Sample.names Sample.engine "/work"
           "x-before-restore-5" Sample.spaced_checkpointed.1).2
        = Return (Some d') ∧
        sessionId d' = "s1" ∧ d' ≠ d).
Proof.
  split.
  - eexists. split; [by vm_compute|]. split; by vm_compute.
  - eexists _, _. split; [by vm_compute|]. split; [by vm_compute|].
    split; [by vm_compute|]. split; [by vm_compute|]. by vm_compute.
Qed.

(** A repository with 102 checkpoint refs: prune deletes two of them
    and 100 remain, none older than a deleted one. *)
Lemma C5_witness :
  ∃ listing r',
    for_each_ref Sample.crowded_repo true checkpoint_prefix = Some listing ∧
    length listing = 102%nat ∧
    @pruneCheckpoints Sample.names "/work" Sample.crowded_machine
    = (set_repository r' Sample.crowded_machine, Return tt) ∧
    checkpoint_refs r' ≡ₚ drop 2 listing ∧
    length (checkpoint_refs r') = 100%nat.
Proof.
  assert (valid_refs Sample.crowded_repo) as Hvalid.
  { apply (bool_decide_unpack
             (map_Forall (fun name sha =>
                check_ref_format name = true ∧
                (is_Some (commits Sample.crowded_repo !! sha) ∨
                 is_Some (trees Sample.crowded_repo !! sha)))
                (refs Sample.crowded_repo))).
    by vm_compute. }
  assert (length (checkpoint_refs Sample.crowded_repo) = 102%nat) as Hcount
    by by vm_compute.
  destruct (proj2 (@C5_retention_bound Sample.names) "/work" Sample.crowded_machine
              Sample.crowded_repo eq_refl Hvalid)
    as (listing & r' & Hl & Hperm & Hp & _ & _ & _ & _ & _ & Hkept).
  assert (length listing = 102%nat) as Hlen by by rewrite Hperm.
  rewrite Hlen in Hkept. change (102 - MAX_CHECKPOINTS)%nat with 2%nat in Hkept.
  assert (checkpoint_refs r' ≡ₚ drop 2 listing) as Hrest.
  { apply Hkept. intros d _. apply not_elem_of_empty. }
  exists listing, r'. split; [exact Hl|]. split; [exact Hlen|].
  split; [exact Hp|]. split; [exact Hrest|].
  rewrite Hrest, length_drop, Hlen. reflexivity.
Defined.

(** A branch with two known records and the choice "Restore oldest
    checkpoint (keep conversation)". *)
Lemma C6_witness :
  ∃ oldest note,
    last (allCheckpoints
            (Hook.completedCheckpoints (Hook.hook Sample.session_world)))
    = Some oldest ∧
    Hook.machine_of
      (@Hook.branch_decide Sample.names Sample.branch_to_first
         Sample.session_context
         (Sample.choosing "Restore oldest checkpoint (keep conversation)")
         Sample.session_world).1
    = (@restoreCheckpoint Sample.names (Hook.ctx_cwd Sample.session_context)
         oldest (Hook.machine_of Sample.session_world)).1 ∧
    Hook.completedCheckpoints
      (Hook.hook
         (@Hook.branch_decide Sample.names Sample.branch_to_first
            Sample.session_context
            (Sample.choosing "Restore oldest checkpoint (keep conversation)")
            Sample.session_world).1)
    = Hook.completedCheckpoints (Hook.hook Sample.session_world) ∧
    Hook.log
      (@Hook.branch_decide Sample.names Sample.branch_to_first
         Sample.session_context
         (Sample.choosing "Restore oldest checkpoint (keep conversation)")
         Sample.session_world).1
    = Hook.log Sample.session_world ++ [Hook.CallRestore (id oldest); note].
Proof.
  apply (@C6_restore_oldest_without_snapshot Sample.names
           Sample.branch_to_first Sample.session_context
           (Sample.choosing "Restore oldest checkpoint (keep conversation)")
           Sample.session_world
           "Restore oldest checkpoint (keep conversation)"
           Sample.snapshot Sample.second_snapshot true).
  - reflexivity.
  - discriminate.
  - reflexivity.
  - by vm_compute.
Defined.

(** The whole handler on that event: the files are restored to the
    oldest record, the record of the first turn, and no checkpoint is
    made of the state they were in, so that a file made since is in no
    known record; with the choice "Code only" a checkpoint is made
    first. *)
Lemma C6_counterexample :
  (let w' := (@Hook.branch Sample.names Sample.engine Sample.branch_to_first
                Sample.session_context
                (Sample.choosing "Restore oldest checkpoint (keep conversation)")
                Sample.session_world).1 in
   Hook.log w' = [Hook.CallRestore "s1-turn-0-1";
                  Hook.Notify "Restored to oldest checkpoint" "info"] ∧
   List.map id (Hook.completedCheckpoints (Hook.hook w'))
   = ["s1-turn-0-1"; "s1-turn-1-2"] ∧
   worktree Sample.later_repo !! ["new.txt"] = Some "made after the checkpoint" ∧
   repository (Hook.machine_of w') ≫= (fun r => worktree r !! ["new.txt"]) = None ∧
   Forall (fun d => tree_at Sample.later_repo (worktreeTreeSha d) !! ["new.txt"] = None)
          (Hook.completedCheckpoints (Hook.hook w'))) ∧
  (let w' := (@Hook.branch Sample.names Sample.engine Sample.branch_to_first
                Sample.session_context
                (Sample.choosing "Code only (restore files, keep conversation)")
                Sample.session_world).1 in
   Hook.log w' = [Hook.CallCreate "s1-before-restore-1793615450000";
                  Hook.CallRestore "s1-turn-0-1";
                  Hook.Notify "Files restored to checkpoint" "info"] ∧
   List.map id (Hook.completedCheckpoints (Hook.hook w'))
   = ["s1-turn-0-1"; "s1-turn-1-2"; "s1-before-restore-1793615450000"]).
Proof.
  cbv zeta. split; [|split; by vm_compute].
  split; [by vm_compute|]. split; [by vm_compute|]. split; [by vm_compute|].
  split; [by vm_compute|].
  apply (bool_decide_unpack _). by vm_compute.
Qed.

(** A session whose id has a space.  The capture of its first turn
    fails, since git refuses the name of the ref: the promise is
    fulfilled with null and the flag is set. *)
Lemma C8_witness :
  let w := @Hook.run_events Sample.names Sample.engine Sample.spaced_session
             Sample.spaced_world in
  let w' := @Hook.settle Sample.names 0 1793615445123 false w in
  Hook.pendingCheckpoints (Hook.hook w)
  = [Hook.Pending "/work" "s 1-turn-0-1000" 0 "s 1"] ∧
  Hook.pendingCheckpoints (Hook.hook w') !! 0%nat = Some (Hook.Fulfilled None) ∧
  Hook.checkpointingFailed (Hook.hook w') = true.
Proof.
  cbv zeta.
  assert (Hook.pendingCheckpoints
            (Hook.hook (@Hook.run_events Sample.names Sample.engine
                          Sample.spaced_session Sample.spaced_world))
          = [Hook.Pending "/work" "s 1-turn-0-1000" 0 "s 1"]) as Hp
    by by vm_compute.
  split; [exact Hp|].
  assert (is_Some (repository (Hook.machine_of
            (@Hook.run_events Sample.names Sample.engine
               Sample.spaced_session Sample.spaced_world)))) as [r Hr]
    by (apply (bool_decide_unpack _); by vm_compute).
  destruct (@createCheckpoint_spec Sample.names names_plain "/work"
              "s 1-turn-0-1000" 0 "s 1" 1793615445123 _ r Hr) as (m' & Hc & _).
  assert (capture_accepted r "s 1-turn-0-1000" 1793615445123 = false) as Ha.
  { unfold capture_accepted. by vm_compute. }
  rewrite Ha in Hc.
  apply (proj1 (proj2 (@C8_capture_failure_containment Sample.names Sample.engine))
           0%nat 1793615445123 false _ "/work" "s 1-turn-0-1000" 0 "s 1" m'
           "Command failed").
  - rewrite Hp. reflexivity.
  - exact Hc.
Defined.

(** ** Further examples *)

Lemma sample_capture :
  @createCheckpoint Sample.names "/work" "s1-turn-0-1" 0 "s1" 1793615445123
    Sample.first_machine
  = (Sample.checkpointed.1, Return Sample.snapshot).
Proof.
  assert (Sample.checkpointed.2 = Return Sample.snapshot) as Hc by by vm_compute.
  rewrite <- Hc. apply surjective_pairing.
Qed.

Lemma sample_head_plain h : head Sample.first_repo = Some h → plain h.
Proof.
  intros Hh.
  change (Some (@commit_name Sample.names Sample.first_commit) = Some h) in Hh.
  apply (inj Some) in Hh as <-. apply (@commit_name_plain _ names_plain).
Qed.

Lemma sample_valid_refs : valid_refs Sample.first_repo.
Proof.
  intros name sha Hl. change (refs Sample.first_repo) with (∅ : gmap string string) in Hl.
  by rewrite lookup_empty in Hl.
Qed.


(** The record of the sample capture is known again after
    [session_start] in a new instance of the hook. *)
Lemma checkpoint_survives_resume_witness :
  Sample.snapshot
  ∈ Hook.completedCheckpoints
      (Hook.hook (@Hook.session_start Sample.names Sample.engine
                    (Hook.mkContext "/work" (Some "/sessions/s1.jsonl"))
                    Sample.resumed_world).1) ∧
  Hook.gitAvailable
    (Hook.hook (@Hook.session_start Sample.names Sample.engine
                  (Hook.mkContext "/work" (Some "/sessions/s1.jsonl"))
                  Sample.resumed_world).1) = true ∧
  Hook.currentSessionId
    (Hook.hook (@Hook.session_start Sample.names Sample.engine
                  (Hook.mkContext "/work" (Some "/sessions/s1.jsonl"))
                  Sample.resumed_world).1) = "s1".
Proof.
  assert (tidy "s1") as Hsid by (vm_compute; repeat split).
  exact (@checkpoint_survives_resume Sample.names names_plain Sample.engine
           "/work" "s1-turn-0-1" 0 "s1" 1793615445123 Sample.first_machine
           Sample.first_repo Sample.checkpointed.1 Sample.snapshot
           "/sessions/s1.jsonl" Sample.resumed_world
           eq_refl sample_valid_refs sample_head_plain Hsid sample_capture
           eq_refl eq_refl eq_refl).
Defined.




(** The commit of the sample capture. *)
Lemma checkpoint_commit_of_capture_witness :
  ∃ r' sha co,
    repository Sample.checkpointed.1 = Some r' ∧
    refs r' !! (REF_BASE +:+ "/" +:+ "s1-turn-0-1") = Some sha ∧
    commits r' !! sha = Some co ∧
    c_tree co = worktreeTreeSha Sample.snapshot ∧ c_parents co = [] ∧
    c_time co = 1793615445123 / 1000 ∧
    timestamp Sample.snapshot = Num 1793615445123 ∧
    ref_date r' (REF_BASE +:+ "/" +:+ "s1-turn-0-1")
    = Some (1793615445123 / 1000).
Proof.
  exact (@checkpoint_commit_of_capture Sample.names names_plain
           "/work" "s1-turn-0-1" 0 "s1" 1793615445123 Sample.first_machine
           Sample.first_repo Sample.checkpointed.1 Sample.snapshot
           eq_refl sample_capture).
Defined.

Lemma unborn_capture :
  @createCheckpoint Sample.names "/work" "s1-turn-0-1" 0 "s1" 1793615445123
    Sample.unborn_machine
  = (Sample.unborn_checkpointed.1, Return Sample.unborn_snapshot).
Proof.
  assert (Sample.unborn_checkpointed.2 = Return Sample.unborn_snapshot) as Hc
    by by vm_compute.
  rewrite <- Hc. apply surjective_pairing.
Qed.

(** The record of a capture before the first commit is not restored,
    not even after a first commit. *)
Lemma unborn_capture_never_restores_witness :
  headSha Sample.unborn_snapshot = ZEROS ∧
  ∃ e, @restoreCheckpoint Sample.names "/work" Sample.unborn_snapshot
         Sample.first_machine
       = (Sample.first_machine, Throw e).
Proof.
  exact (@unborn_capture_never_restores Sample.names names_plain
           "/work" "s1-turn-0-1" 0 "s1" 1793615445123 Sample.unborn_machine
           Sample.unborn_repo Sample.unborn_checkpointed.1 Sample.unborn_snapshot
           "/work" Sample.first_machine eq_refl eq_refl unborn_capture).
Defined.

(** The functions on a machine without a repository. *)
Lemma outside_a_repository_witness :
  @isGitRepo Sample.names "/work" Sample.bare_machine
  = (Sample.bare_machine, Return false) ∧
  (∃ e, @createCheckpoint Sample.names "/work" "s1-turn-0-1" 0 "s1"
          1793615445123 Sample.bare_machine
        = (Sample.bare_machine, Throw e)) ∧
  (∃ e, @restoreCheckpoint Sample.names "/work" Sample.snapshot
          Sample.bare_machine
        = (Sample.bare_machine, Throw e)) ∧
  @loadCheckpointFromRef Sample.names Sample.engine "/work" "s1-turn-0-1"
    Sample.bare_machine
  = (Sample.bare_machine, Return None) ∧
  @listCheckpointRefs Sample.names "/work" Sample.bare_machine
  = (Sample.bare_machine, Return []) ∧
  @pruneCheckpoints Sample.names "/work" Sample.bare_machine
  = (Sample.bare_machine, Return tt).
Proof.
  exact (@outside_a_repository Sample.names Sample.engine "/work" "s1-turn-0-1"
           0 "s1" 1793615445123 Sample.snapshot "s1-turn-0-1"
           Sample.bare_machine eq_refl).
Defined.

(** The two records of the sample session. *)
Lemma latest_and_oldest_witness :
  (Sample.second_snapshot ∈ [Sample.snapshot; Sample.second_snapshot] ∧
   ∀ d, d ∈ [Sample.snapshot; Sample.second_snapshot] →
        not_later d Sample.second_snapshot) ∧
  (∃ oldest,
     last (allCheckpoints [Sample.snapshot; Sample.second_snapshot])
     = Some oldest ∧
     oldest ∈ [Sample.snapshot; Sample.second_snapshot] ∧
     ∀ d, d ∈ [Sample.snapshot; Sample.second_snapshot] → not_later oldest d) ∧
  (true = true ↔ (2 ≤ length [Sample.snapshot; Sample.second_snapshot])%nat).
Proof.
  assert (Forall timed [Sample.snapshot; Sample.second_snapshot]) as Ht.
  { repeat constructor; by eexists. }
  exact (latest_and_oldest [Sample.snapshot; Sample.second_snapshot]
           (Num 1793615445000) Sample.snapshot Sample.second_snapshot true
           Ht eq_refl).
Defined.

(** The choice "Code only" in the sample session. *)
Lemma restore_after_capture_witness :
  match @createCheckpoint Sample.names
          (Hook.ctx_cwd Sample.session_context)
          (before_restore_id Sample.session_world
             (Sample.choosing "Code only (restore files, keep conversation)"))
          (Hook.targetTurnIndex Sample.branch_to_first)
          (Hook.currentSessionId (Hook.hook Sample.session_world))
          (Hook.now_capture
             (Sample.choosing "Code only (restore files, keep conversation)"))
          (Hook.machine_of Sample.session_world) with
  | (m1, Return before) =>
      Hook.completedCheckpoints
        (Hook.hook
           (@Hook.branch_decide Sample.names Sample.branch_to_first
              Sample.session_context
              (Sample.choosing "Code only (restore files, keep conversation)")
              Sample.session_world).1)
      = Hook.completedCheckpoints (Hook.hook Sample.session_world) ++ [before] ∧
      Hook.machine_of
        (@Hook.branch_decide Sample.names Sample.branch_to_first
           Sample.session_context
           (Sample.choosing "Code only (restore files, keep conversation)")
           Sample.session_world).1
      = (@restoreCheckpoint Sample.names (Hook.ctx_cwd Sample.session_context)
           Sample.snapshot m1).1 ∧
      ∃ note,
        Hook.log
          (@Hook.branch_decide Sample.names Sample.branch_to_first
             Sample.session_context
             (Sample.choosing "Code only (restore files, keep conversation)")
             Sample.session_world).1
        = Hook.log Sample.session_world ++
          [Hook.CallCreate
             (before_restore_id Sample.session_world
                (Sample.choosing "Code only (restore files, keep conversation)"));
           Hook.CallRestore (id Sample.snapshot); note]
  | (m1, Throw e) =>
      Hook.completedCheckpoints
        (Hook.hook
           (@Hook.branch_decide Sample.names Sample.branch_to_first
              Sample.session_context
              (Sample.choosing "Code only (restore files, keep conversation)")
              Sample.session_world).1)
      = Hook.completedCheckpoints (Hook.hook Sample.session_world) ∧
      Hook.machine_of
        (@Hook.branch_decide Sample.names Sample.branch_to_first
           Sample.session_context
           (Sample.choosing "Code only (restore files, keep conversation)")
           Sample.session_world).1
      = m1 ∧
      ∃ message,
        Hook.log
          (@Hook.branch_decide Sample.names Sample.branch_to_first
             Sample.session_context
             (Sample.choosing "Code only (restore files, keep conversation)")
             Sample.session_world).1
        = Hook.log Sample.session_world ++
          [Hook.CallCreate
             (before_restore_id Sample.session_world
                (Sample.choosing "Code only (restore files, keep conversation)"));
           Hook.Notify (message +:+ e) "error"]
  end.
Proof.
  assert ("Code only (restore files, keep conversation)" ≠ "Cancel") as Hc
    by discriminate.
  exact (@restore_after_capture Sample.names Sample.branch_to_first
           Sample.session_context
           (Sample.choosing "Code only (restore files, keep conversation)")
           Sample.session_world
           "Code only (restore files, keep conversation)"
           Sample.snapshot Sample.second_snapshot true
           eq_refl Hc eq_refl (or_introl eq_refl) eq_refl).
Defined.

(** A capture under an id with a space, which git refuses as the name
    of a ref. *)
Lemma failed_capture_leaves_no_ref_witness :
  ∃ m', @createCheckpoint Sample.names "/work" "s 1-turn-0-1000" 0 "s 1"
          1793615445123 Sample.first_machine
        = (m', Throw "Command failed") ∧
        refs_of m' = refs_of Sample.first_machine ∧
        working_state m' = working_state Sample.first_machine.
Proof.
  destruct (@createCheckpoint_spec Sample.names names_plain "/work"
              "s 1-turn-0-1000" 0 "s 1" 1793615445123 Sample.first_machine
              Sample.first_repo eq_refl) as (m' & Hc & _).
  assert (capture_accepted Sample.first_repo "s 1-turn-0-1000" 1793615445123
          = false) as Ha by by vm_compute.
  rewrite Ha in Hc. exists m'. split; [exact Hc|].
  exact (@failed_capture_leaves_no_ref Sample.names "/work" "s 1-turn-0-1000"
           0 "s 1" 1793615445123 Sample.first_machine m' "Command failed" Hc).
Defined.

(** The capture of the first turn of the sample session runs. *)
Lemma settled_capture_is_registered_witness :
  Hook.completedCheckpoints
    (Hook.hook (@Hook.settle Sample.names 0 1793615445123 true
                  Sample.pending_world))
  = Hook.completedCheckpoints (Hook.hook Sample.pending_world)
    ++ [Sample.snapshot] ∧
  Hook.pendingCheckpoints
    (Hook.hook (@Hook.settle Sample.names 0 1793615445123 true
                  Sample.pending_world))
  = <[0%nat := Hook.Fulfilled (Some Sample.snapshot)]>
      (Hook.pendingCheckpoints (Hook.hook Sample.pending_world)) ∧
  Hook.machine_of (@Hook.settle Sample.names 0 1793615445123 true
                     Sample.pending_world)
  = Sample.checkpointed.1 ∧
  Hook.checkpointingFailed
    (Hook.hook (@Hook.settle Sample.names 0 1793615445123 true
                  Sample.pending_world))
  = Hook.checkpointingFailed (Hook.hook Sample.pending_world) ∧
  Hook.log (@Hook.settle Sample.names 0 1793615445123 true Sample.pending_world)
  = Hook.log Sample.pending_world ++ [Hook.CallPrune] ∧
  Hook.background_prunes
    (@Hook.settle Sample.names 0 1793615445123 true Sample.pending_world)
  = (Hook.background_prunes Sample.pending_world + 1)%nat.
Proof.
  exact (@settled_capture_is_registered Sample.names 0%nat 1793615445123 true
           Sample.pending_world "/work" "s1-turn-0-1" 0 "s1"
           Sample.checkpointed.1 Sample.snapshot eq_refl sample_capture).
Defined.


Lemma crowded_valid_refs : valid_refs Sample.crowded_repo.
Proof.
  apply (bool_decide_unpack
           (map_Forall (fun name sha =>
              check_ref_format name = true ∧
              (is_Some (commits Sample.crowded_repo !! sha) ∨
               is_Some (trees Sample.crowded_repo !! sha)))
              (refs Sample.crowded_repo))).
  by vm_compute.
Qed.

(** Two prunes of the repository with 102 checkpoint refs. *)
Lemma pruneCheckpoints_twice_witness :
  (∃ r1, repository (@pruneCheckpoints Sample.names "/work"
                       Sample.crowded_machine).1 = Some r1 ∧
         (length (checkpoint_refs r1) ≤ MAX_CHECKPOINTS)%nat) ∧
  @pruneCheckpoints Sample.names "/work"
    (@pruneCheckpoints Sample.names "/work" Sample.crowded_machine).1
  = ((@pruneCheckpoints Sample.names "/work" Sample.crowded_machine).1,
     Return tt).
Proof.
  assert (locked Sample.crowded_repo = ∅) as Hlocked by by vm_compute.
  exact (@pruneCheckpoints_twice Sample.names "/work" Sample.crowded_machine
           Sample.crowded_repo eq_refl crowded_valid_refs Hlocked).
Defined.

